(** * unitdb / tracedb: batch assembler, extendible-hash directory, header
      codec and topic trie, embedded from the Go sources.

    Machine integers are modelled as [Z] with the wrap-around of the Go type
    written out; Go maps are [gmap]s; slices are lists. *)

From stdpp Require Import gmap list fin_maps strings.
From Stdlib Require Import ZArith Lia.

Local Open Scope Z_scope.

(** ** Outcomes of a Go call *)

Inductive error : Type :=
  | errClosed | errLocked | errCorrupted | errTopicEmpty | errFull
  | errIO (what : string).

(** A Go function returning [error] either returns ([Return None] is the nil
    error) or panics. *)
Inductive outcome : Type :=
  | Return (err : option error)
  | Panic (msg : string).

(** ** encoding/binary, little endian, on bytes held as [Z] in [0, 256) *)
Module Binary.

(** Go's [byte(v)] conversion keeps the low eight bits. *)
Definition byte (v : Z) : Z := v mod 256.

Definition PutUint32 (v : Z) : list Z :=
  [byte v; byte (Z.shiftr v 8); byte (Z.shiftr v 16); byte (Z.shiftr v 24)].

Definition PutUint64 (v : Z) : list Z :=
  [byte v; byte (Z.shiftr v 8); byte (Z.shiftr v 16); byte (Z.shiftr v 24);
   byte (Z.shiftr v 32); byte (Z.shiftr v 40); byte (Z.shiftr v 48);
   byte (Z.shiftr v 56)].

(** [None] is the index-out-of-range panic on a short slice. *)
Definition Uint32 (b : list Z) : option Z :=
  match b with
  | b0 :: b1 :: b2 :: b3 :: _ =>
      Some (Z.lor (Z.lor (Z.lor b0 (Z.shiftl b1 8)) (Z.shiftl b2 16)) (Z.shiftl b3 24))
  | _ => None
  end.

Definition Uint64 (b : list Z) : option Z :=
  match b with
  | b0 :: b1 :: b2 :: b3 :: b4 :: b5 :: b6 :: b7 :: _ =>
      Some (Z.lor (Z.lor (Z.lor (Z.lor (Z.lor (Z.lor (Z.lor b0 (Z.shiftl b1 8))
              (Z.shiftl b2 16)) (Z.shiftl b3 24)) (Z.shiftl b4 32))
              (Z.shiftl b5 40)) (Z.shiftl b6 48)) (Z.shiftl b7 56))
  | _ => None
  end.

(** Conversions between int64 and uint64 keep the bit pattern. *)
Definition uint64_of_int64 (x : Z) : Z := x mod 2 ^ 64.
Definition int64_of_uint64 (u : Z) : Z := if u <? 2 ^ 63 then u else u - 2 ^ 64.

(** The slice expression [data[lo:hi]]; [None] is the bounds panic. *)
Definition slice (data : list Z) (lo hi : nat) : option (list Z) :=
  if decide (lo <= hi <= length data)%nat then Some (take (hi - lo) (drop lo data))
  else None.

(** [copy(dst, src)]: the first [min (len dst) (len src)] elements of [dst]
    are overwritten. *)
Definition copy (dst src : list Z) : list Z :=
  take (length dst) src ++ drop (length src) dst.

(** [copy(buf[lo:hi], src)], also what [PutUint32(buf[lo:hi], v)] does to
    [buf]; [None] is the bounds panic. *)
Definition copyInto (buf : list Z) (lo hi : nat) (src : list Z) : option (list Z) :=
  window ← slice buf lo hi;
  Some (take lo buf ++ copy window src ++ drop hi buf).

End Binary.

(** ** batch.go *)
Module Batch.

(** [batchIndex] of batch.go. [key] is a uint32, [offset] an int64. *)
Record batchIndex : Type := BatchIndex {
  delFlag : bool;
  key : Z;
  offset : Z
}.

(** The zero value Go's [make] fills a fresh slice with. *)
Definition zeroBatchIndex : batchIndex := BatchIndex false 0 0.

#[global] Instance batchIndex_inhabited : Inhabited batchIndex :=
  populate zeroBatchIndex.

#[global] Instance batchIndex_eq_dec : EqDecision batchIndex.
Proof. solve_decision. Defined.

(** The local [indices] struct of [uniq]. *)
Record indices : Type := Indices { idx : nat; newidx : nat }.

(** First loop of [uniq]:
    [for idx := len(b.index) - 1; idx >= 0; idx-- { if _, ok := uniqueSet[key]; !ok {...; i++} }].
    [n] is [idx + 1], so the loop starts at [n = len(b.index)] and
    [b.index[idx]] is always in range. *)
Fixpoint uniqScan (index : list batchIndex) (n : nat)
    (uniqueSet : gmap Z indices) (i : nat) : gmap Z indices * nat :=
  match n with
  | O => (uniqueSet, i)
  | S idx =>
      let k := key (index !!! idx) in
      match uniqueSet !! k with
      | Some _ => uniqScan index idx uniqueSet i
      | None => uniqScan index idx (<[k := Indices idx i]> uniqueSet) (S i)
      end
  end.

(** Second loop of [uniq]: [for _, i := range uniqueSet { pendingWrites[len(uniqueSet)-i.newidx-1] = b.index[i.idx] }],
    run over the map's entries in the order [order] the runtime picks.
    [None] is the index-out-of-range panic of Go. *)
Fixpoint uniqFill (index : list batchIndex) (len : nat)
    (order : list (Z * indices)) (pendingWrites : list batchIndex)
    : option (list batchIndex) :=
  match order with
  | [] => Some pendingWrites
  | (_, i) :: rest =>
      let pos := (Z.of_nat len - Z.of_nat (newidx i) - 1)%Z in
      if decide (0 <= pos < Z.of_nat (length pendingWrites))%Z then
        match index !! idx i with
        | Some x => uniqFill index len rest (<[Z.to_nat pos := x]> pendingWrites)
        | None => None
        end
      else None
  end.

(** [uniq] for a given iteration order of the Go map. *)
Definition uniqWith (allowDuplicates : bool) (index : list batchIndex)
    (order : gmap Z indices -> list (Z * indices)) : option (list batchIndex) :=
  if allowDuplicates then Some index
  else
    let uniqueSet := fst (uniqScan index (length index) ∅ 0%nat) in
    uniqFill index (size uniqueSet) (order uniqueSet)
             (replicate (size uniqueSet) zeroBatchIndex).

(** [uniq] with the canonical enumeration of the map. *)
Definition uniq (allowDuplicates : bool) (index : list batchIndex)
    : option (list batchIndex) :=
  uniqWith allowDuplicates index map_to_list.

(** The claim's words: keep an entry exactly when no later entry of the index
    has its key. *)
Fixpoint lastOccurrences (index : list batchIndex) : list batchIndex :=
  match index with
  | [] => []
  | x :: rest =>
      if bool_decide (key x ∈ key <$> rest) then lastOccurrences rest
      else x :: lastOccurrences rest
  end.

(** Invariant of the first loop once positions [n..] have been visited; [K]
    lists the retained positions in the order the loop met them. *)
Definition scanInv (index : list batchIndex) (n : nat)
    (m : gmap Z indices) (i : nat) (K : list nat) : Prop :=
  i = length K /\ base.size m = length K /\
  (forall q, q ∈ K -> (q < length index)%nat) /\
  (forall k v, m !! k = Some v <->
      K !! newidx v = Some (idx v) /\ key (index !!! idx v) = k) /\
  (fun p => index !!! p) <$> reverse K = lastOccurrences (drop n index).

(** The slot of [pendingWrites] that the second loop writes for a map entry. *)
Definition fillPos (len : nat) (e : Z * indices) : nat :=
  (len - newidx e.2 - 1)%nat.

(** *** The batch, the DB it writes to, and the write pipeline *)

(** [message.Part] and [message.Topic], as far as batch.go uses them. *)
Record Part : Type := MkPart { Query : Z; Wildchars : Z }.
Record Topic : Type := MkTopic { Parts : list Part; Depth : Z }.

(** [bpool.Buffer]: the bytes written so far; [Size] is their number and
    [reset] empties the buffer. *)
Definition Size (buf : list Z) : Z := Z.of_nat (length buf).

(** A Go channel of [struct{}] that is only ever closed. *)
Inductive chan : Type := ChanNil | ChanOpen | ChanClosed.

Record Batch : Type := MkBatch {
  AllowDuplicates : bool;           (* b.opts.AllowDuplicates *)
  managed : bool;
  grouped : bool;
  entryCount : Z;
  buffer : list Z;
  size : Z;
  attached : bool;                  (* b.db != nil *)
  topics : gmap Z Topic;
  index : list batchIndex;
  pendingWrites : list batchIndex;
  commitComplete : chan
}.

(** The unpacked [entry] as [writeInternal] reads it. *)
Record entry : Type := MkEntry { seq : Z; topicHash : Z; expiresAt : Z }.

Record winEntry : Type := WinEntry { wseq : Z; wexpiresAt : Z }.

(** The parts of [DB] that batch.go touches. The memtable is keyed by
    [(blockID, memseq)]; the trie, the time window, [db.delete] and the WAL
    are represented by the calls they received, oldest first. *)
Record DB : Type := MkDB {
  closed : bool;
  cacheID : Z;
  filter : gset Z;                              (* seqs for which filter.Test answers true *)
  mem : gmap (Z * Z) (list Z);
  trieAdds : list (Z * list Part * Z);
  timeWindow : list (Z * winEntry);
  deletes : list (Z * Z);
  walCommits : list (nat * list Z);
  bufPool : list (list Z);
  batchQueue : list Batch;
  logged : list string
}.

(** Field updates of [DB]. *)
Definition setMem (db : DB) (m : gmap (Z * Z) (list Z)) : DB :=
  {| closed := closed db; cacheID := cacheID db; filter := filter db; mem := m;
     trieAdds := trieAdds db; timeWindow := timeWindow db; deletes := deletes db;
     walCommits := walCommits db; bufPool := bufPool db;
     batchQueue := batchQueue db; logged := logged db |}.
Definition setTrieAdds (db : DB) (t : list (Z * list Part * Z)) : DB :=
  {| closed := closed db; cacheID := cacheID db; filter := filter db; mem := mem db;
     trieAdds := t; timeWindow := timeWindow db; deletes := deletes db;
     walCommits := walCommits db; bufPool := bufPool db;
     batchQueue := batchQueue db; logged := logged db |}.
Definition setTimeWindow (db : DB) (w : list (Z * winEntry)) : DB :=
  {| closed := closed db; cacheID := cacheID db; filter := filter db; mem := mem db;
     trieAdds := trieAdds db; timeWindow := w; deletes := deletes db;
     walCommits := walCommits db; bufPool := bufPool db;
     batchQueue := batchQueue db; logged := logged db |}.
Definition setDeletes (db : DB) (d : list (Z * Z)) : DB :=
  {| closed := closed db; cacheID := cacheID db; filter := filter db; mem := mem db;
     trieAdds := trieAdds db; timeWindow := timeWindow db; deletes := d;
     walCommits := walCommits db; bufPool := bufPool db;
     batchQueue := batchQueue db; logged := logged db |}.
Definition setWal (db : DB) (w : list (nat * list Z)) (l : list string) : DB :=
  {| closed := closed db; cacheID := cacheID db; filter := filter db; mem := mem db;
     trieAdds := trieAdds db; timeWindow := timeWindow db; deletes := deletes db;
     walCommits := w; bufPool := bufPool db;
     batchQueue := batchQueue db; logged := l |}.
Definition setBufPool (db : DB) (pool : list (list Z)) : DB :=
  {| closed := closed db; cacheID := cacheID db; filter := filter db; mem := mem db;
     trieAdds := trieAdds db; timeWindow := timeWindow db; deletes := deletes db;
     walCommits := walCommits db; bufPool := pool;
     batchQueue := batchQueue db; logged := logged db |}.
Definition setBatchQueue (db : DB) (q : list Batch) : DB :=
  {| closed := closed db; cacheID := cacheID db; filter := filter db; mem := mem db;
     trieAdds := trieAdds db; timeWindow := timeWindow db; deletes := deletes db;
     walCommits := walCommits db; bufPool := bufPool db;
     batchQueue := q; logged := logged db |}.

(** What batch.go calls but the sources do not contain: the packed-entry
    decoder and its size, [startBlockIndex], and whether [mem.Set],
    [timeWindow.add] and [db.commit] report an error. *)
Record Env : Type := MkEnv {
  entrySize : Z;
  unmarshalEntry : list Z -> error + entry;
  startBlockIndex : Z -> Z;
  memSetErr : Z -> Z -> list Z -> option error;
  windowAddErr : Z -> winEntry -> option error;
  commitErr : nat -> list Z -> option error
}.

(** [maxPoolSize] of bpool.go. *)
Definition maxPoolSize : nat := 2048.

(** [buf[lo:hi]] with int64 bounds; [None] is the bounds panic. *)
Definition sliceZ (buf : list Z) (lo hi : Z) : option (list Z) :=
  if decide (0 <= lo <= hi /\ hi <= Z.of_nat (length buf))
  then Some (take (Z.to_nat (hi - lo)) (drop (Z.to_nat lo) buf))
  else None.

(** [a ^ b] on uint64. *)
Definition xor64 (a b : Z) : Z := Z.lxor a b.

(** The closure [Write] hands to [writeInternal]. *)
Definition writeEntry (env : Env) (b : Batch) (db : DB)
    (i : nat) (topicHash seq expiresAt : Z) (data : list Z) : option error * DB :=
  let blockID := startBlockIndex env seq in
  let memseq := xor64 (cacheID db) seq in
  match memSetErr env blockID memseq data with
  | Some err => (Some err, db)
  | None =>
      let db := setMem db (<[(blockID, memseq) := data]> (mem db)) in
      match topics b !! topicHash with
      | None => (Some errTopicEmpty, db)
      | Some t =>
          let db := setTrieAdds db (trieAdds db ++ [(topicHash, Parts t, Depth t)]) in
          let we := WinEntry seq expiresAt in
          match windowAddErr env topicHash we with
          | Some err => (Some err, db)
          | None => (None, setTimeWindow db (timeWindow db ++ [(topicHash, we)]))
          end
      end
  end.

(** [b.db.delete(e.topicHash, e.seq)] *)
Definition dbDelete (db : DB) (topicHash seq : Z) : DB :=
  setDeletes db (deletes db ++ [(topicHash, seq)]).

(** The loop of [writeInternal] over [b.pendingWrites], from position [i]. *)
Fixpoint writeLoop (env : Env)
    (fn : DB -> nat -> Z -> Z -> Z -> list Z -> option error * DB)
    (buf : list Z) (pending : list batchIndex) (i : nat) (db : DB)
    : outcome * DB :=
  match pending with
  | [] => (Return None, db)
  | index :: rest =>
      match sliceZ buf (offset index) (offset index + 4) ≫= Binary.Uint32 with
      | None => (Panic "slice bounds out of range", db)
      | Some dataLen =>
          match sliceZ buf (offset index + 4) (offset index + entrySize env + 4),
                sliceZ buf (offset index + 4) (offset index + dataLen) with
          | Some entryData, Some data =>
              match unmarshalEntry env entryData with
              | inl err => (Return (Some err), db)
              | inr e =>
                  if delFlag index && negb (seq e =? 0) then
                    if negb (bool_decide (seq e ∈ filter db)) then
                      (Return None, db)
                    else
                      writeLoop env fn buf rest (S i) (dbDelete db (topicHash e) (seq e))
                  else
                    match fn db i (topicHash e) (seq e) (expiresAt e) data with
                    | (Some err, db) => (Return (Some err), db)
                    | (None, db) => writeLoop env fn buf rest (S i) db
                    end
              end
          | _, _ => (Panic "slice bounds out of range", db)
          end
      end
  end.

Definition writeInternal (env : Env)
    (fn : DB -> nat -> Z -> Z -> Z -> list Z -> option error * DB)
    (b : Batch) (db : DB) : outcome * DB :=
  if closed db then (Return (Some errClosed), db)
  else writeLoop env fn (buffer b) (pendingWrites b) 0 db.

Definition setPendingWrites (b : Batch) (pw : list batchIndex) : Batch :=
  {| AllowDuplicates := AllowDuplicates b; managed := managed b; grouped := grouped b;
     entryCount := entryCount b; buffer := buffer b; size := size b;
     attached := attached b; topics := topics b; index := index b;
     pendingWrites := pw; commitComplete := commitComplete b |}.

(** [func (b *Batch) Write() error]. Its first statement,
    [b.db.writeLockC <- struct{}{}], dereferences [b.db]: on a batch that is
    detached ([b.db == nil] after [Abort]) it panics before anything else
    happens. Taking and releasing the write lock has no effect on a single
    caller. *)
Definition Write (env : Env) (b : Batch) (db : DB) : outcome * Batch * DB :=
  if negb (attached b) then (Panic "nil pointer dereference", b, db)
  else
    match uniq (AllowDuplicates b) (index b) with
    | None => (Panic "index out of range", b, db)
    | Some pw =>
        let b := setPendingWrites b pw in
        if grouped b then (Return None, b, setBatchQueue db (batchQueue db ++ [b]))
        else
          let '(r, db) := writeInternal env (fun db => writeEntry env b db) b db in
          (r, b, db)
    end.

(** [func (b *Batch) Reset()] *)
Definition Reset (b : Batch) : Batch :=
  {| AllowDuplicates := AllowDuplicates b; managed := managed b; grouped := grouped b;
     entryCount := 0; buffer := buffer b; size := 0;
     attached := attached b; topics := topics b; index := [];
     pendingWrites := []; commitComplete := commitComplete b |}.

(** [func (pool *BufferPool) Put(buf *Buffer)]: the buffer is reset, and it
    enters the pool's channel unless the channel is full. The result is the
    pool and the buffer as the caller still sees it. *)
Definition BufferPool_Put (pool : list (list Z)) (buf : list Z)
    : list (list Z) * list Z :=
  let buf := @nil Z in
  if decide (length pool < maxPoolSize)%nat then (pool ++ [buf], buf) else (pool, buf).

(** [func (b *Batch) Abort()]: the assertion, [b.Reset()],
    [b.db.bufPool.Put(b.buffer)], [b.db = nil]. On a batch that is already
    detached the third statement dereferences the nil [b.db] and panics,
    after [Reset] has run. *)
Definition Abort (b : Batch) (db : DB) : outcome * Batch * DB :=
  if managed b then (Panic "assertion failed: managed tx abort not allowed", b, db)
  else
    let b := Reset b in
    if negb (attached b) then (Panic "nil pointer dereference", b, db)
    else
      let '(pool, buf) := BufferPool_Put (bufPool db) (buffer b) in
      (Return None,
       {| AllowDuplicates := AllowDuplicates b; managed := managed b; grouped := grouped b;
          entryCount := entryCount b; buffer := buf; size := size b;
          attached := false; topics := topics b; index := index b;
          pendingWrites := pendingWrites b; commitComplete := commitComplete b |},
       setBufPool db pool).

(** [func (b *Batch) Len() int] *)
Definition Len (b : Batch) : nat := length (pendingWrites b).

Definition closeCommitComplete (b : Batch) : Batch :=
  {| AllowDuplicates := AllowDuplicates b; managed := managed b;
     grouped := grouped b; entryCount := entryCount b; buffer := buffer b;
     size := size b; attached := attached b; topics := topics b;
     index := index b; pendingWrites := pendingWrites b;
     commitComplete := ChanClosed |}.

(** [func (b *Batch) Commit() error]. The deferred [close(b.commitComplete)]
    runs when the function returns and panics unless the channel is open. The
    branch of an empty batch returns through [Abort] and panics where [Abort]
    panics. The other branch calls [db.commit], which is not among the
    sources: what it answers is [commitErr], and what it does when the batch
    is detached is not modelled. *)
Definition Commit (env : Env) (b : Batch) (db : DB) : outcome * Batch * DB :=
  if managed b then (Panic "assertion failed: managed tx commit not allowed", b, db)
  else if (length (pendingWrites b) =? 0)%nat || (Size (buffer b) =? 0) then
    match Abort b db with
    | (Panic msg, b, db) => (Panic msg, b, db)
    | (Return _, b, db) => (Return None, b, db)
    end
  else
    let r := commitErr env (Len b) (buffer b) in
    let db :=
      setWal db (walCommits db ++ [(Len b, buffer b)])
             (match r with
              | Some _ => logged db ++ ["Error committing batch"%string]
              | None => logged db
              end) in
    match commitComplete b with
    | ChanOpen => (Return None, closeCommitComplete b, db)
    | ChanClosed => (Panic "close of closed channel", b, db)
    | ChanNil => (Panic "close of nil channel", b, db)
    end.

(** *** Concrete inputs used to run the pipeline *)

(** A three-byte packed entry header [seq; topicHash; expiresAt] stands in for
    the decoder the sources do not contain. *)
Definition sampleEnv (commitResult : option error) : Env :=
  {| entrySize := 3;
     unmarshalEntry := fun d =>
       match d with
       | [s; h; x] => inr (MkEntry s h x)
       | _ => inl (errIO "short entry")
       end;
     startBlockIndex := fun seq => (seq - 1) / 22;
     memSetErr := fun _ _ _ => None;
     windowAddErr := fun _ _ => None;
     commitErr := fun _ _ => commitResult |}.

Definition emptyDB (present : gset Z) : DB :=
  {| closed := false; cacheID := 0; filter := present; mem := ∅; trieAdds := [];
     timeWindow := []; deletes := []; walCommits := []; bufPool := [];
     batchQueue := []; logged := [] |}.

(** A delete of seq 5 followed by a put of seq 6, both on topic hash 9. The
    buffer holds the two length-prefixed frames. *)
Definition deleteThenPut : Batch :=
  {| AllowDuplicates := false; managed := false; grouped := false;
     entryCount := 2;
     buffer := [7; 0; 0; 0; 5; 9; 0] ++ [8; 0; 0; 0; 6; 9; 0; 42];
     size := 15; attached := true;
     topics := {[ 9 := MkTopic [MkPart 1 0] 1 ]};
     index := [BatchIndex true 100 0; BatchIndex false 200 7];
     pendingWrites := []; commitComplete := ChanOpen |}.

(** The same batch once [uniq] has filled [pendingWrites]. *)
Definition writtenBatch : Batch :=
  setPendingWrites deleteThenPut [BatchIndex true 100 0; BatchIndex false 200 7].

(** *** [PutEntry], [DeleteEntry] and [append] *)

(** int64 arithmetic of Go. *)
Definition wrapInt64 (x : Z) : Z := Binary.int64_of_uint64 (Binary.uint64_of_int64 x).

(** [Entry] as far as batch.go reads and writes it: the caller's [ID],
    [Topic], [Payload] and [Contract], and the fields [PutEntry] and
    [DeleteEntry] fill in. *)
Record Entry : Type := MkEntryArg {
  eID : list Z;
  eTopic : list Z;
  ePayload : list Z;
  eContract : Z;
  etopicHash : Z;        (* e.topic.hash *)
  etopicData : list Z;   (* e.topic.data *)
  etopicSize : Z;        (* e.topic.size *)
  eencryption : bool;
  eval : list Z;         (* e.val *)
  eid : list Z;          (* e.id *)
  eseq : Z               (* e.seq *)
}.

(** The errors of the argument checks, next to the errors of the package. *)
Inductive putError : Type :=
  | PutErr (err : error)
  | errTopicTooLarge | errValueEmpty | errValueTooLarge | errImmutable | errMsgIDEmpty.

(** What [PutEntry], [DeleteEntry] and [append] call but the sources do not
    contain: the two length limits and [message.MasterContract],
    [db.parseTopic], the methods of [message.Topic] and [message.ID],
    [db.setEntry], [hash.WithSalt], [db.packEntry], and the internal buffer
    of [bpool.Buffer]: whether a [Write] to it fails ([bufferWriteErr]) and
    what it holds after a [Write] that failed ([failedWrite]). *)
Record PutEnv : Type := MkPutEnv {
  maxTopicLength : nat;
  maxValueLength : nat;
  MasterContract : Z;
  parseTopic : Z -> list Z -> error + Topic * Z;
  AddContract : Topic -> Z -> Topic;
  GetHash : Topic -> Z -> Z;
  Marshal : Topic -> list Z;
  GetHashCode : Topic -> Z;
  Unmarshal : list Z -> Topic;
  setEntry : Entry -> Z -> option error * Entry;
  WithSalt : list Z -> Z -> Z;
  packEntry : Entry -> error + list Z;
  SetContract : list Z -> Z -> list Z;
  Sequence : list Z -> Z;
  bufferWriteErr : list Z -> list Z -> option error;
  failedWrite : list Z -> list Z -> list Z
}.

(** Modelled from the spec: [func (buf *Buffer) Write(p []byte) (int, error)]
    of bpool.go calls [buf.internal.allocate] and then [buf.internal.writeAt],
    and the internal buffer is not among the sources. The spec has the batch
    hold an "append-only `buffer` holding length-prefixed packed entries":
    when both calls succeed the bytes of [p] are at the end of the buffer.
    The call fails when [allocate] fails or when [writeAt] fails after
    [allocate] has run; the sources do not say what the internal buffer
    holds then, so that is left to [failedWrite]. *)
Definition Buffer_Write (env : PutEnv) (buf p : list Z) : option error * list Z :=
  match bufferWriteErr env buf p with
  | Some err => (Some err, failedWrite env buf p)
  | None => (None, buf ++ p)
  end.

Definition setContract (e : Entry) (c : Z) : Entry :=
  {| eID := eID e; eTopic := eTopic e; ePayload := ePayload e; eContract := c;
     etopicHash := etopicHash e; etopicData := etopicData e;
     etopicSize := etopicSize e; eencryption := eencryption e; eval := eval e;
     eid := eid e; eseq := eseq e |}.

Definition setTopicInfo (e : Entry) (h : Z) (d : list Z) (enc : bool) : Entry :=
  {| eID := eID e; eTopic := eTopic e; ePayload := ePayload e; eContract := eContract e;
     etopicHash := h; etopicData := d;
     etopicSize := etopicSize e; eencryption := enc; eval := eval e;
     eid := eid e; eseq := eseq e |}.

Definition setTopicSize (e : Entry) (n : Z) : Entry :=
  {| eID := eID e; eTopic := eTopic e; ePayload := ePayload e; eContract := eContract e;
     etopicHash := etopicHash e; etopicData := etopicData e;
     etopicSize := n; eencryption := eencryption e; eval := eval e;
     eid := eid e; eseq := eseq e |}.

Definition setIdSeq (e : Entry) (id : list Z) (s : Z) : Entry :=
  {| eID := eID e; eTopic := eTopic e; ePayload := ePayload e; eContract := eContract e;
     etopicHash := etopicHash e; etopicData := etopicData e;
     etopicSize := etopicSize e; eencryption := eencryption e; eval := eval e;
     eid := id; eseq := s |}.

Definition setTopics (b : Batch) (t : gmap Z Topic) : Batch :=
  {| AllowDuplicates := AllowDuplicates b; managed := managed b; grouped := grouped b;
     entryCount := entryCount b; buffer := buffer b; size := size b;
     attached := attached b; topics := t; index := index b;
     pendingWrites := pendingWrites b; commitComplete := commitComplete b |}.

Definition setBuffer (b : Batch) (buf : list Z) : Batch :=
  {| AllowDuplicates := AllowDuplicates b; managed := managed b; grouped := grouped b;
     entryCount := entryCount b; buffer := buf; size := size b;
     attached := attached b; topics := topics b; index := index b;
     pendingWrites := pendingWrites b; commitComplete := commitComplete b |}.

(** The common tail of [PutEntry] and [DeleteEntry]: the 4-byte little-endian
    length [uint32(len(data)+4)] and the data go to the buffer, then
    [b.index = append(b.index, batchIndex{delFlag, key, offset: b.size})],
    [b.size += int64(len(data) + 4)], [b.entryCount++]. *)
Definition writeFrame (env : PutEnv) (b : Batch) (del : bool) (k : Z) (data : list Z)
    : option putError * Batch :=
  let scratch := Binary.PutUint32 ((Z.of_nat (length data) + 4) mod 2 ^ 32) in
  match Buffer_Write env (buffer b) scratch with
  | (Some err, buf) => (Some (PutErr err), setBuffer b buf)
  | (None, buf) =>
      let b := setBuffer b buf in
      match Buffer_Write env (buffer b) data with
      | (Some err, buf) => (Some (PutErr err), setBuffer b buf)
      | (None, buf) =>
          (None,
           {| AllowDuplicates := AllowDuplicates b; managed := managed b;
              grouped := grouped b;
              entryCount := wrapInt64 (entryCount b + 1);
              buffer := buf;
              size := wrapInt64 (size b + (Z.of_nat (length data) + 4));
              attached := attached b; topics := topics b;
              index := index b ++ [BatchIndex del k (size b)];
              pendingWrites := pendingWrites b;
              commitComplete := commitComplete b |})
      end
  end.

(** [func (b *Batch) PutEntry(e *Entry) error]; [Encryption] is
    [b.opts.Encryption]. The result is the error and the batch afterwards. *)
Definition PutEntry (env : PutEnv) (Encryption : bool) (b : Batch) (e : Entry)
    : option putError * Batch :=
  if (length (eTopic e) =? 0)%nat then (Some (PutErr errTopicEmpty), b)
  else if (maxTopicLength env <? length (eTopic e))%nat then (Some errTopicTooLarge, b)
  else if (length (ePayload e) =? 0)%nat then (Some errValueEmpty, b)
  else if (maxValueLength env <? length (ePayload e))%nat then (Some errValueTooLarge, b)
  else
    let e := if eContract e =? 0 then setContract e (MasterContract env) else e in
    match parseTopic env (eContract e) (eTopic e) with
    | inl err => (Some (PutErr err), b)
    | inr (topic, ttl) =>
        let topic := AddContract env topic (eContract e) in
        let e := setTopicInfo e (GetHash env topic (eContract e)) (Marshal env topic)
                              Encryption in
        match setEntry env e ttl with
        | (Some err, _) => (Some (PutErr err), b)
        | (None, e) =>
            let k := if AllowDuplicates b then 0
                     else WithSalt env (eval e) (GetHashCode env topic) in
            let '(b, e) :=
              match topics b !! etopicHash e with
              | Some _ => (b, e)
              | None =>
                  (setTopics b (<[etopicHash e := Unmarshal env (etopicData e)]> (topics b)),
                   setTopicSize e (Z.of_nat (length (etopicData e)) mod 2 ^ 16))
              end in
            match packEntry env e with
            | inl err => (Some (PutErr err), b)
            | inr data => writeFrame env b false k data
            end
        end
    end.

(** [func (b *Batch) DeleteEntry(e *Entry) error]; [Immutable] is
    [b.opts.Immutable]. The topic is parsed with the contract as the caller
    gave it, which is replaced by [message.MasterContract] only afterwards. *)
Definition DeleteEntry (env : PutEnv) (Immutable : bool) (b : Batch) (e : Entry)
    : option putError * Batch :=
  if Immutable then (Some errImmutable, b)
  else if (length (eID e) =? 0)%nat then (Some errMsgIDEmpty, b)
  else if (length (eTopic e) =? 0)%nat then (Some (PutErr errTopicEmpty), b)
  else if (maxTopicLength env <? length (eTopic e))%nat then (Some errTopicTooLarge, b)
  else
    match parseTopic env (eContract e) (eTopic e) with
    | inl err => (Some (PutErr err), b)
    | inr (topic, _) =>
        let e := if eContract e =? 0 then setContract e (MasterContract env) else e in
        let topic := AddContract env topic (eContract e) in
        let id := SetContract env (eID e) (eContract e) in
        let e := setIdSeq e id (Sequence env id) in
        let k := GetHashCode env topic in
        match packEntry env e with
        | inl err => (Some (PutErr err), b)
        | inr data => writeFrame env b true k data
        end
    end.







(** Stand-ins for what the sources do not contain: every topic parses to the
    single part 1 with hash 9 and hash code 5, and an entry is packed as the
    three-byte header that [sampleEnv] decodes, followed by the payload. *)
Definition samplePutEnv : PutEnv :=
  {| maxTopicLength := 16; maxValueLength := 64; MasterContract := 1;
     parseTopic := fun _ _ => inr (MkTopic [MkPart 1 0] 1, 0);
     AddContract := fun t _ => t;
     GetHash := fun _ _ => 9;
     Marshal := fun _ => [1];
     GetHashCode := fun _ => 5;
     Unmarshal := fun _ => MkTopic [MkPart 1 0] 1;
     setEntry := fun e _ => (None, e);
     WithSalt := fun v _ => Z.of_nat (length v);
     packEntry := fun e => inr ([6; 9; 0] ++ ePayload e);
     SetContract := fun id _ => id;
     Sequence := fun _ => 5;
     bufferWriteErr := fun _ _ => None;
     failedWrite := fun buf _ => buf |}.

(** The same stand-ins with an internal buffer that takes a [Write] only
    while it is empty and fails later ones after it has allocated the room:
    the failed [Write] leaves as many zero bytes as it was asked to write. *)
Definition shortBufferEnv : PutEnv :=
  {| maxTopicLength := 16; maxValueLength := 64; MasterContract := 1;
     parseTopic := fun _ _ => inr (MkTopic [MkPart 1 0] 1, 0);
     AddContract := fun t _ => t;
     GetHash := fun _ _ => 9;
     Marshal := fun _ => [1];
     GetHashCode := fun _ => 5;
     Unmarshal := fun _ => MkTopic [MkPart 1 0] 1;
     setEntry := fun e _ => (None, e);
     WithSalt := fun v _ => Z.of_nat (length v);
     packEntry := fun e => inr ([6; 9; 0] ++ ePayload e);
     SetContract := fun id _ => id;
     Sequence := fun _ => 5;
     bufferWriteErr := fun buf _ =>
       if (length buf =? 0)%nat then None else Some (errIO "writeAt");
     failedWrite := fun buf p => buf ++ replicate (length p) 0 |}.

Definition emptyBatch : Batch :=
  {| AllowDuplicates := false; managed := false; grouped := false;
     entryCount := 0; buffer := []; size := 0; attached := true;
     topics := ∅; index := []; pendingWrites := []; commitComplete := ChanOpen |}.

Definition sampleEntry : Entry :=
  {| eID := [7]; eTopic := [97]; ePayload := [42]; eContract := 0;
     etopicHash := 0; etopicData := []; etopicSize := 0; eencryption := false;
     eval := [42]; eid := []; eseq := 0 |}.


End Batch.


(** ** The index-file header (header.go, found in the sources next to the trie) *)
Module Header.
Import Binary.

(** [dbInfo] of db.go: level uint8, count, nBlocks, splitBlockIdx and hashSeed
    uint32, freelistOff int64. *)
Record dbInfo : Type := DbInfo {
  level : Z;
  count : Z;
  nBlocks : Z;
  splitBlockIdx : Z;
  freelistOff : Z;
  hashSeed : Z
}.

Record header : Type := Mkheader {
  signature : list Z;   (* [7]byte *)
  version : Z;          (* uint32 *)
  info : dbInfo
}.

#[global] Instance dbInfo_eq_dec : EqDecision dbInfo.
Proof. solve_decision. Defined.
#[global] Instance header_eq_dec : EqDecision header.
Proof. solve_decision. Defined.

(** [signature = [7]byte{'t','r','a','c','e','d','b'}] *)
Definition signatureBytes : list Z := [116; 114; 97; 99; 101; 100; 98].

(** Modelled from the spec: [align512] is not among the sources; the spec
    fixes HEADER_SIZE=512, the next multiple of 512 above the 292 bytes that
    [binary.Size(header{})] counts (7+4+25+256). *)
Definition align512 (n : Z) : Z := (n + 511) / 512 * 512.

Definition headerSize : nat := Z.to_nat (align512 292).

(** The values a Go variable of type [header] can hold. *)
Definition validHeader (h : header) : Prop :=
  length (signature h) = 7%nat /\
  Forall (fun b => 0 <= b < 256) (signature h) /\
  0 <= version h < 2 ^ 32 /\
  0 <= level (info h) < 256 /\
  0 <= count (info h) < 2 ^ 32 /\
  0 <= nBlocks (info h) < 2 ^ 32 /\
  0 <= splitBlockIdx (info h) < 2 ^ 32 /\
  - 2 ^ 63 <= freelistOff (info h) < 2 ^ 63 /\
  0 <= hashSeed (info h) < 2 ^ 32.

(** [func (h header) MarshalBinary() ([]byte, error)]; [None] is a panic. *)
Definition MarshalBinary (h : header) : option (list Z) :=
  let buf := replicate headerSize 0 in
  buf ← copyInto buf 0 8 (signature h);
  buf ← copyInto buf 8 12 (PutUint32 (version h));
  buf ← (if decide (12 < length buf)%nat then Some (<[12%nat := level (info h)]> buf) else None);
  buf ← copyInto buf 13 17 (PutUint32 (count (info h)));
  buf ← copyInto buf 17 21 (PutUint32 (nBlocks (info h)));
  buf ← copyInto buf 21 25 (PutUint32 (splitBlockIdx (info h)));
  buf ← copyInto buf 25 33 (PutUint64 (uint64_of_int64 (freelistOff (info h))));
  buf ← copyInto buf 33 37 (PutUint32 (hashSeed (info h)));
  Some buf.

(** [func (h *header) UnmarshalBinary(data []byte) error], writing into the
    header [h] it is called on; [None] is a panic. *)
Definition UnmarshalBinary (h : header) (data : list Z) : option header :=
  sig ← slice data 0 8;
  version ← slice data 8 12 ≫= Uint32;
  level ← data !! 12%nat;
  count ← slice data 13 17 ≫= Uint32;
  nBlocks ← slice data 17 21 ≫= Uint32;
  splitBlockIdx ← slice data 21 25 ≫= Uint32;
  freelistOff ← slice data 25 33 ≫= Uint64;
  hashSeed ← slice data 33 37 ≫= Uint32;
  Some {| signature := copy (signature h) sig;
          version := version;
          info := {| level := level; count := count; nBlocks := nBlocks;
                     splitBlockIdx := splitBlockIdx;
                     freelistOff := int64_of_uint64 freelistOff;
                     hashSeed := hashSeed |} |}.

(** [h := &header{}]: the zero value. *)
Definition zeroHeader : header :=
  {| signature := replicate 7 0; version := 0; info := DbInfo 0 0 0 0 0 0 |}.

(** The image of a header: the fixed layout of the 512-byte buffer. *)
Definition layout (h : header) : list Z :=
  signature h ++ [0] ++ PutUint32 (version h) ++ [level (info h)]
  ++ PutUint32 (count (info h)) ++ PutUint32 (nBlocks (info h))
  ++ PutUint32 (splitBlockIdx (info h))
  ++ PutUint64 (uint64_of_int64 (freelistOff (info h)))
  ++ PutUint32 (hashSeed (info h)) ++ replicate 475 0.

(** A header as [writeHeader] produces it. *)
Definition sampleHeader : header :=
  {| signature := signatureBytes; version := 1;
     info := {| level := 3; count := 1000; nBlocks := 11; splitBlockIdx := 3;
                freelistOff := -1; hashSeed := 3735928559 |} |}.

(** The values of a byte. *)
Definition isByte (b : Z) : Prop := 0 <= b < 256.

End Header.

(** ** message/trie.go *)
Module Trie.

(** [message.Part], the parsed topic part handed to [Add] and [Remove]. *)
Record Part : Type := MkPart { Query : Z; Wildchars : Z }.

(** [key]: query uint32, wildchars uint8. *)
Record key : Type := Key { query : Z; wildchars : Z }.

#[global] Instance key_eq_dec : EqDecision key.
Proof. solve_decision. Defined.

#[global] Instance key_countable : Countable key :=
  inj_countable' (fun x => (query x, wildchars x)) (fun p => Key p.1 p.2)
                 (fun x => match x with Key _ _ => eq_refl end).

(** [part]. A node is owned by the [children] map of its parent, so the
    [parent] pointer of the Go struct is the node one step up the path from
    the root; the functions below that walk upwards ([orphan]) are written
    as the return leg of the descent. *)
#[warnings="-register-all"]
Inductive part : Type := MkNode {
  k : key;
  depth : Z;
  ss : list Z;
  children : gmap key part
}.

(** [len(p.ss) == 0 && len(p.children) == 0] *)
Definition isEmpty (p : part) : bool :=
  bool_decide (length (ss p) = 0%nat) && bool_decide (base.size (children p) = 0%nat).

(** [func (ss *ssid) contains(value uint64) bool] *)
Fixpoint contains (ss : list Z) (value : Z) : bool :=
  match ss with
  | [] => false
  | v :: rest => if decide (v = value) then true else contains rest value
  end.

(** Position of the first [v == value] met by [range *ss]. *)
Fixpoint firstIndex (ss : list Z) (value : Z) : option nat :=
  match ss with
  | [] => None
  | v :: rest => if decide (v = value) then Some 0%nat else S <$> firstIndex rest value
  end.

(** [func (ss *ssid) remove(value uint64) (removed bool)]: the first match is
    overwritten by the last element and the slice loses its last element. *)
Definition ssidRemove (ss : list Z) (value : Z) : list Z * bool :=
  match firstIndex ss value with
  | Some i =>
      match last ss with
      | Some z => (take (length ss - 1) (<[i := z]> ss), true)
      | None => (ss, false)
      end
  | None => (ss, false)
  end.

(** [Trie]: the root of its [partTrie] and the entry count. *)
Record Trie : Type := MkTrie { root : part; count : Z }.

(** [NewTrie] / [NewPartTrie] *)
Definition NewTrie : Trie :=
  {| root := MkNode (Key 0 0) 0 [] ∅; count := 0 |}.

Definition keyOf (p : Part) : key := Key (Query p) (Wildchars p).

(** The descent of [Add] from [curr], creating missing children, then
    [curr.ss = append(curr.ss, seq); curr.depth = depth] at the end. *)
Fixpoint addAt (parts : list Part) (d seq : Z) (curr : part) : part :=
  match parts with
  | [] => MkNode (k curr) d (ss curr ++ [seq]) (children curr)
  | p :: rest =>
      let child := match children curr !! keyOf p with
                   | Some c => c
                   | None => MkNode (keyOf p) 0 [] ∅
                   end in
      MkNode (k curr) (depth curr) (ss curr)
             (<[keyOf p := addAt rest d seq child]> (children curr))
  end.

(** [func (t *Trie) Add(contract, parts, depth, seq) (added bool)] *)
Definition Add (t : Trie) (parts : list Part) (d seq : Z) : Trie * bool :=
  ({| root := addAt parts d seq (root t); count := count t + 1 |}, true).

(** The descent of [Remove] from [curr] and what happens on the way back.
    [None]: a part of the path has no child, [Remove] returns without a
    change. Otherwise the new [curr], whether the seq was removed, and whether
    [curr.orphan()] is called: on the last node when it is empty, and on a
    node further up when [orphan] of its child deleted that child (by the
    child's own key [p.k]) and left it empty. *)
Fixpoint removeAt (parts : list Part) (seq : Z) (curr : part)
    : option (part * bool * bool) :=
  match parts with
  | [] =>
      let '(ss', removed) := ssidRemove (ss curr) seq in
      let curr' := MkNode (k curr) (depth curr) ss' (children curr) in
      Some (curr', removed, isEmpty curr')
  | p :: rest =>
      match children curr !! keyOf p with
      | None => None
      | Some child =>
          match removeAt rest seq child with
          | None => None
          | Some (child', removed, orphaned) =>
              if orphaned then
                let curr' := MkNode (k curr) (depth curr) (ss curr)
                                    (delete (k child') (children curr)) in
                Some (curr', removed, isEmpty curr')
              else
                Some (MkNode (k curr) (depth curr) (ss curr)
                             (<[keyOf p := child']> (children curr)),
                      removed, false)
          end
      end
  end.

(** [func (t *Trie) Remove(contract, parts, seq) (removed bool)]; [orphan] on
    the root returns at once because the root has no parent. *)
Definition Remove (t : Trie) (parts : list Part) (seq : Z) : Trie * bool :=
  match removeAt parts seq (root t) with
  | None => (t, false)
  | Some (root', removed, _) =>
      ({| root := root'; count := if removed then count t - 1 else count t |},
       removed)
  end.

(** The node reached from [from] along the keys [path]. *)
Fixpoint descend (from : part) (path : list key) : option part :=
  match path with
  | [] => Some from
  | kk :: rest =>
      match children from !! kk with
      | Some c => descend c rest
      | None => None
      end
  end.

(** The tries a program can hold: built from [NewTrie] by [Add] and [Remove]. *)
Inductive built : Trie -> Prop :=
  | built_new : built NewTrie
  | built_Add t parts d seq : built t -> built (Add t parts d seq).1
  | built_Remove t parts seq : built t -> built (Remove t parts seq).1.

(** Every child is stored under its own key, is not empty, and the same holds
    below it. *)
#[warnings="-register-all"]
Inductive good : part -> Prop :=
  | good_node p :
      (forall kk c, children p !! kk = Some c ->
         k c = kk /\ isEmpty c = false /\ good c) ->
      good p.

(** A trie holding seq 7 under a.b and seq 8 under a. *)
Definition sampleTrie : Trie :=
  (Add (Add NewTrie [MkPart 1 0; MkPart 2 0] 2 7).1 [MkPart 1 0] 1 8).1.

(** [func (ss *ssid) addUnique(value uint64) (added bool)] *)
Definition addUnique (ss : list Z) (value : Z) : list Z * bool :=
  if contains ss value then (ss, false) else (ss ++ [value], true).

(** [func (t *Trie) Count() int] *)
Definition Count (t : Trie) : Z := count t.

(** Go's conversion to uint8, and uint8 arithmetic. *)
Definition uint8 (x : Z) : Z := x mod 256.

Section Lookup.

(** [TopicMaxDepth] is a constant of the package that the sources do not
    contain. *)
Variable TopicMaxDepth : Z.

(** [part.depth == depth || (part.depth >= TopicMaxDepth && depth > part.depth-TopicMaxDepth)];
    the subtraction is only evaluated when it does not wrap. *)
Definition depthMatches (nodeDepth depth : Z) : bool :=
  (nodeDepth =? depth) ||
  ((TopicMaxDepth <=? nodeDepth) && (nodeDepth - TopicMaxDepth <? depth)).

(** [func (t *Trie) ilookup(contract uint64, parts []Part, depth uint8, ss *ssid, part *part)].
    The first loop appends every seq of the node or none, since its condition
    does not depend on the seq. [k.wildchars+1] and [uint8(len(parts))] are
    uint8 values; the slice [parts[k.wildchars+1:]] is in range whenever the
    condition holds. The children are visited in the order [map_fold]
    enumerates the map. *)
Fixpoint ilookup (p : part) (parts : list Part) (depth : Z) (ss : list Z)
    {struct p} : list Z :=
  match p with
  | MkNode _ pdepth pss pchildren =>
      let ss := if depthMatches pdepth depth then ss ++ pss else ss in
      match parts with
      | [] => ss
      | q :: _ =>
          map_fold (fun kk c ss =>
                      if (query kk =? Query q)
                         && (uint8 (wildchars kk + 1) <=? uint8 (Z.of_nat (length parts)))
                      then ilookup c (drop (Z.to_nat (uint8 (wildchars kk + 1))) parts) depth ss
                      else ss)
                   ss pchildren
      end
  end.

(** [func (t *Trie) Lookup(contract uint64, parts []Part) (ss ssid)]:
    [t.ilookup(contract, parts, uint8(len(parts)-1), &ss, t.partTrie.root)]. *)
Definition Lookup (t : Trie) (parts : list Part) : list Z :=
  ilookup (root t) parts (uint8 (Z.of_nat (length parts) - 1)) [].

End Lookup.

(** The number of seqs stored in a subtree. *)
Fixpoint stored (p : part) : nat :=
  match p with
  | MkNode _ _ s ch => (length s + map_fold (fun _ c n => stored c + n) 0 ch)%nat
  end.

Definition storedBelow (ch : gmap key part) : nat :=
  map_fold (fun _ c n => (stored c + n)%nat) 0%nat ch.

(** The number of nodes on the longest path below a node, itself included. *)
Fixpoint height (p : part) : nat :=
  match p with
  | MkNode _ _ _ ch => S (map_fold (fun _ c n => max (height c) n) 0%nat ch)
  end.

End Trie.

(** ** db.go: the index file, the directory and [split] *)
Module Index.
Import Header.

(** uint32 and uint8 arithmetic of Go. A shift by 32 or more gives 0. *)
Definition wrap32 (x : Z) : Z := x mod 2 ^ 32.
Definition wrap8 (x : Z) : Z := x mod 2 ^ 8.
Definition shl32 (x s : Z) : Z := wrap32 (Z.shiftl x s).

Definition entriesPerBlock : nat := 22.

(** [entry] of the index block: hash uint32, keySize (topicSize in the
    variant that stores topics) uint16, valueSize and expiresAt uint32,
    kvOffset int64. A slot with [kvOffset = 0] is free. *)
Record entry : Type := MkEntry {
  hash : Z;
  keySize : Z;
  valueSize : Z;
  expiresAt : Z;
  kvOffset : Z
}.

Definition zeroEntry : entry := MkEntry 0 0 0 0 0.

#[global] Instance entry_eq_dec : EqDecision entry.
Proof. solve_decision. Defined.

#[global] Instance entry_inhabited : Inhabited entry := populate zeroEntry.

(** The file a block lives in: [db.index] or [db.data]. *)
Inductive table : Type := IndexTable | DataTable.

(** [block]: the [entriesPerBlock] slots and the offset of the overflow block
    in the data file, 0 when there is none. *)
Record block : Type := MkBlock { entries : list entry; next : Z }.

Definition zeroBlock : block := MkBlock (replicate entriesPerBlock zeroEntry) 0.

(** [blockHandle]: a block together with the file and offset it is read from
    and written to. *)
Record blockHandle : Type := MkHandle { file : table; offset : Z; blk : block }.

(** The index file: its size, the 512 header bytes, and the blocks written
    so far by byte offset. The data file is seen through the overflow blocks
    it holds. *)
Record indexFile : Type := MkIndexFile {
  fsize : Z;
  fheader : list Z;
  fblocks : gmap Z block
}.

Record DB : Type := MkDB {
  info : dbInfo;
  index : indexFile;
  data : gmap Z block;
  freed : list Z            (* offsets handed to db.data.free(blockSize, off) *)
}.

(** What the file system and the data-file allocator answer during one call:
    the error of [index.extend], the offsets [db.data.allocate] returns in
    turn (an exhausted list is an allocation error), and the errors of the
    two final [write] calls. *)
Record IO : Type := MkIO {
  extendErr : option error;
  allocs : list Z;
  writeNewErr : option error;
  writeUpdatedErr : option error
}.

Section WithBlockSize.

(** [blockSize] is a constant of the package that the sources do not
    contain; the spec only says it is page-aligned. *)
Variable blockSize : Z.

(** [func blockOffset(idx uint32) int64]; with [idx < 2^32] and a 32-bit
    [blockSize] the int64 product does not wrap. *)
Definition blockOffset (idx : Z) : Z := Z.of_nat headerSize + blockSize * idx.

(** [func (db *DB) blockIndex(keyHash uint32) uint32]: the constant 1 is a
    uint32 here, and [db.level + 1] is computed in uint8. *)
Definition blockIndex (i : dbInfo) (keyHash : Z) : Z :=
  let idx := Z.land keyHash (wrap32 (shl32 1 (level i) - 1)) in
  if idx <? splitBlockIdx i then
    Z.land keyHash (wrap32 (shl32 1 (wrap8 (level i + 1)) - 1))
  else idx.

(** The claim's formula over unbounded integers. *)
Definition maskedIndex (level splitBlockIdx h : Z) : Z :=
  let idx := Z.land h (Z.shiftl 1 level - 1) in
  if idx <? splitBlockIdx then Z.land h (Z.shiftl 1 (level + 1) - 1) else idx.

(** Modelled from the spec: reading a block ([blockHandle.read], not among
    the sources). "Index: 512-byte header at offset 0, then BLOCK_SIZE-aligned
    index blocks"; a block inside the file that was never written reads as
    zeros, a read past the end of the file is an error. *)
Definition readIndexBlock (f : indexFile) (off : Z) : option block :=
  if decide (0 <= off /\ off + blockSize <= fsize f)
  then Some (default zeroBlock (fblocks f !! off))
  else None.

Definition readBlock (db : DB) (t : table) (off : Z) : option block :=
  match t with
  | IndexTable => readIndexBlock (index db) off
  | DataTable => data db !! off
  end.

(** Modelled from the spec: [blockHandle.write] stores the block at its
    offset in its file. *)
Definition writeBlock (b : blockHandle) (db : DB) : DB :=
  match file b with
  | IndexTable =>
      {| info := info db;
         index := {| fsize := fsize (index db); fheader := fheader (index db);
                     fblocks := <[offset b := blk b]> (fblocks (index db)) |};
         data := data db; freed := freed db |}
  | DataTable =>
      {| info := info db; index := index db;
         data := <[offset b := blk b]> (data db); freed := freed db |}
  end.

(** Modelled from the spec: "extend(n_blocks) -> off" appends to the file and
    returns the offset of the appended region, the old size. *)
Definition extend (f : indexFile) (n : Z) : Z * indexFile :=
  (fsize f, {| fsize := fsize f + n; fheader := fheader f; fblocks := fblocks f |}).

(** [func (db *DB) forEachBlock(startBlockIdx uint32, cb func(blockHandle) (bool, error)) error].
    The callback threads the state [S] it closes over. [fuel] bounds the
    number of blocks visited; [None] means the walk did not finish. *)
Fixpoint walk {S : Type} (fuel : nat) (db : DB) (t : table) (off : Z)
    (cb : blockHandle -> S -> bool * option error * S) (s : S)
    : option (option error * S) :=
  match fuel with
  | O => None
  | Datatypes.S fuel =>
      match readBlock db t off with
      | None => Some (Some (errIO "read"), s)
      | Some b =>
          let '(stop, err, s) := cb (MkHandle t off b) s in
          if stop || bool_decide (err <> None) then Some (err, s)
          else if next b =? 0 then Some (None, s)
          else walk fuel db DataTable (next b) cb s
      end
  end.

Definition forEachBlock {S : Type} (fuel : nat) (db : DB) (startBlockIdx : Z)
    (cb : blockHandle -> S -> bool * option error * S) (s : S)
    : option (option error * S) :=
  walk fuel db IndexTable (blockOffset startBlockIdx) cb s.

(** Modelled from the spec: [entryWriter] (not among the sources) collects
    the entries of one logical block: "an overflow block is allocated lazily
    from the data file's freelist when the tail block is full". [block] is the
    block being filled, [entryIdx] its next free slot, [prevBlocks] the full
    blocks before it, each linked to its successor. *)
Record entryWriter : Type := MkWriter {
  wblock : blockHandle;
  entryIdx : nat;
  prevBlocks : list blockHandle
}.

Definition newWriter (t : table) (off : Z) : entryWriter :=
  MkWriter (MkHandle t off zeroBlock) 0 [].

(** [func (db *DB) createOverflowBlock()], returning the handle of a fresh
    block of the data file or an error. *)
Definition createOverflowBlock (allocs : list Z) : option blockHandle * list Z :=
  match allocs with
  | [] => (None, [])
  | off :: rest => (Some (MkHandle DataTable off zeroBlock), rest)
  end.

(** Modelled from the spec: [entryWriter.insert]. *)
Definition insert (e : entry) (w : entryWriter) (allocs : list Z)
    : option error * entryWriter * list Z :=
  if (entryIdx w =? entriesPerBlock)%nat then
    match createOverflowBlock allocs with
    | (None, allocs) => (Some errFull, w, allocs)
    | (Some nextBlock, allocs) =>
        let full := MkHandle (file (wblock w)) (offset (wblock w))
                             (MkBlock (entries (blk (wblock w))) (offset nextBlock)) in
        let cur := MkHandle (file nextBlock) (offset nextBlock)
                            (MkBlock (<[0%nat := e]> (entries (blk nextBlock)))
                                     (next (blk nextBlock))) in
        (None, MkWriter cur 1 (prevBlocks w ++ [full]), allocs)
    end
  else
    let cur := MkHandle (file (wblock w)) (offset (wblock w))
                        (MkBlock (<[entryIdx w := e]> (entries (blk (wblock w))))
                                 (next (blk (wblock w)))) in
    (None, MkWriter cur (Datatypes.S (entryIdx w)) (prevBlocks w), allocs).

(** Modelled from the spec: [entryWriter.write] writes the full blocks, last
    first, then the block being filled. *)
Definition writeWriter (w : entryWriter) (db : DB) : DB :=
  writeBlock (wblock w) (foldr writeBlock db (prevBlocks w)).

(** The state the callback of [split] closes over. *)
Record splitState : Type := MkSplitState {
  updatedBlock : entryWriter;
  newBlock : entryWriter;
  overflowBlocks : list Z;
  pendingAllocs : list Z
}.

(** The [for j := 0; j < entriesPerBlock; j++] loop of the callback of
    [split], over the slots of the current block. [i] is the directory after
    the split index moved; the result tells whether an insert failed. *)
Fixpoint routeEntries (i : dbInfo) (updatedBlockIdx : Z) (slots : list entry)
    (s : splitState) : option error * splitState :=
  match slots with
  | [] => (None, s)
  | e :: rest =>
      if kvOffset e =? 0 then (None, s)
      else if blockIndex i (hash e) =? updatedBlockIdx then
        match insert e (updatedBlock s) (pendingAllocs s) with
        | (Some err, w, a) =>
            (Some err, MkSplitState w (newBlock s) (overflowBlocks s) a)
        | (None, w, a) =>
            routeEntries i updatedBlockIdx rest
              (MkSplitState w (newBlock s) (overflowBlocks s) a)
        end
      else
        match insert e (newBlock s) (pendingAllocs s) with
        | (Some err, w, a) =>
            (Some err, MkSplitState (updatedBlock s) w (overflowBlocks s) a)
        | (None, w, a) =>
            routeEntries i updatedBlockIdx rest
              (MkSplitState (updatedBlock s) w (overflowBlocks s) a)
        end
  end.

(** The callback [func(curb blockHandle) (bool, error)] of [split]. *)
Definition splitCallback (i : dbInfo) (updatedBlockIdx : Z)
    (curb : blockHandle) (s : splitState) : bool * option error * splitState :=
  match routeEntries i updatedBlockIdx (entries (blk curb)) s with
  | (Some err, s) => (true, Some err, s)
  | (None, s) =>
      let s := if next (blk curb) =? 0 then s
               else MkSplitState (updatedBlock s) (newBlock s)
                                 (overflowBlocks s ++ [next (blk curb)])
                                 (pendingAllocs s) in
      (false, None, s)
  end.

(** [db.splitBlockIdx++; if db.splitBlockIdx == 1<<db.level { db.level++; db.splitBlockIdx = 0 }] *)
Definition advance (i : dbInfo) : dbInfo :=
  let s := wrap32 (splitBlockIdx i + 1) in
  if s =? shl32 1 (level i) then
    {| level := wrap8 (level i + 1); count := count i; nBlocks := nBlocks i;
       splitBlockIdx := 0; freelistOff := freelistOff i; hashSeed := hashSeed i |}
  else
    {| level := level i; count := count i; nBlocks := nBlocks i;
       splitBlockIdx := s; freelistOff := freelistOff i; hashSeed := hashSeed i |}.

Definition setInfo (db : DB) (i : dbInfo) : DB :=
  {| info := i; index := index db; data := data db; freed := freed db |}.

(** [func (db *DB) split() error]. The two variants of db.go differ in one
    place: the second frees the overflow blocks of the old chain
    ([freeOverflow]), in the first that loop is commented out. [None] means
    the chain walk did not finish within [fuel]. *)
Definition split (freeOverflow : bool) (io : IO) (fuel : nat) (db : DB)
    : option (option error * DB) :=
  let updatedBlockIdx := splitBlockIdx (info db) in
  let updatedBlockOff := blockOffset updatedBlockIdx in
  let updated := newWriter IndexTable updatedBlockOff in
  match extendErr io with
  | Some err => Some (Some err, db)
  | None =>
      let '(newBlockOff, idx) := extend (index db) blockSize in
      let db := {| info := info db; index := idx; data := data db; freed := freed db |} in
      let new := newWriter IndexTable newBlockOff in
      let db := setInfo db (advance (info db)) in
      match forEachBlock fuel db updatedBlockIdx
              (splitCallback (info db) updatedBlockIdx)
              (MkSplitState updated new [] (allocs io)) with
      | None => None
      | Some (Some err, _) => Some (Some err, db)
      | Some (None, s) =>
          let db := if freeOverflow
                    then {| info := info db; index := index db; data := data db;
                            freed := freed db ++ overflowBlocks s |}
                    else db in
          match writeNewErr io with
          | Some err => Some (Some err, db)
          | None =>
              let db := writeWriter (newBlock s) db in
              match writeUpdatedErr io with
              | Some err => Some (Some err, db)
              | None =>
                  let db := writeWriter (updatedBlock s) db in
                  Some (None,
                        setInfo db
                          {| level := level (info db); count := count (info db);
                             nBlocks := wrap32 (nBlocks (info db) + 1);
                             splitBlockIdx := splitBlockIdx (info db);
                             freelistOff := freelistOff (info db);
                             hashSeed := hashSeed (info db) |})
              end
          end
      end
  end.

(** The slots of a block that a probe looks at: those before the first free
    slot ([if e.kvOffset == 0 { break }]). *)
Fixpoint liveEntries (slots : list entry) : list entry :=
  match slots with
  | [] => []
  | e :: rest => if kvOffset e =? 0 then [] else e :: liveEntries rest
  end.

(** The blocks [forEachBlock] visits from [off], with the file and offset
    each was read at, when their number is within [fuel]; a block that cannot
    be read ends the chain with [None]. *)
Fixpoint chain (fuel : nat) (db : DB) (t : table) (off : Z)
    : option (list blockHandle) :=
  match fuel with
  | O => None
  | Datatypes.S fuel =>
      match readBlock db t off with
      | None => None
      | Some b =>
          if next b =? 0 then Some [MkHandle t off b]
          else cons (MkHandle t off b) <$> chain fuel db DataTable (next b)
      end
  end.

(** The entries a probe sees in a list of blocks. *)
Definition handlesEntries (hs : list blockHandle) : list entry :=
  concat ((fun h => liveEntries (entries (blk h))) <$> hs).

(** [e] is found by a probe that starts at [blockIndex] of its hash. *)
Definition reachable (db : DB) (e : entry) : Prop :=
  exists fuel hs,
    chain fuel db IndexTable (blockOffset (blockIndex (info db) (hash e))) = Some hs /\
    e ∈ handlesEntries hs.

(** The DB that [Open] creates when there is no index file yet:
    [dbInfo{nBlocks: 1, ...}] with the random hash seed [seed] and the
    freelist offset [fl] that [writeHeader] stored, an index file of
    [headerSize + blockSize] bytes whose header is [hdr], an empty data
    file. *)
Definition freshDB (seed fl : Z) (hdr : list Z) : DB :=
  {| info := {| level := 0; count := 0; nBlocks := 1; splitBlockIdx := 0;
                freelistOff := fl; hashSeed := seed |};
     index := {| fsize := Z.of_nat headerSize + blockSize; fheader := hdr;
                 fblocks := ∅ |};
     data := ∅; freed := [] |}.

(** [n] calls of [split], each returning nil, lead from [db] to [db']. *)
Inductive splits : nat -> DB -> DB -> Prop :=
  | splits_O db : splits 0 db db
  | splits_S n db db1 db2 freeOverflow io fuel :
      splits n db db1 ->
      split freeOverflow io fuel db1 = Some (None, db2) ->
      splits (Datatypes.S n) db db2.

(** A block handle addresses a block inside its file. *)
Definition inFile (db : DB) (h : blockHandle) : Prop :=
  file h = IndexTable -> 0 <= offset h /\ offset h + blockSize <= fsize (index db).

(** The state of the DB when the chain walk of [split] starts: the index file
    is one block longer and the split index has moved. *)
Definition extended (db : DB) : DB :=
  setInfo {| info := info db; index := (extend (index db) blockSize).2;
             data := data db; freed := freed db |} (advance (info db)).

End WithBlockSize.

(** A slot that holds an entry. *)
Definition live (e : entry) : Prop := kvOffset e <> 0.

(** The blocks of a writer in chain order. *)
Definition wHandles (w : entryWriter) : list blockHandle :=
  prevBlocks w ++ [wblock w].

(** Where a block is stored. *)
Definition keyOfHandle (h : blockHandle) : table * Z := (file h, offset h).

(** The offsets of the overflow blocks a writer allocated. *)
Definition dataOffs (w : entryWriter) : list Z := offset <$> drop 1 (wHandles w).

(** Each block of the list points to the next one, which lies in the data
    file at a non-zero offset; the last block has no successor. *)
Inductive linked : list blockHandle -> Prop :=
  | linked_last h : next (blk h) = 0 -> linked [h]
  | linked_cons h h' hs :
      next (blk h) = offset h' -> offset h' <> 0 -> file h' = DataTable ->
      linked (h' :: hs) -> linked (h :: h' :: hs).

(** Invariant of an [entryWriter] whose first block is at [off] in [t]: the
    block being filled holds [entryIdx] entries followed by free slots, the
    blocks before it are full, and the blocks are linked. *)
Definition writerOk (w : entryWriter) (t : table) (off : Z) : Prop :=
  (entryIdx w <= entriesPerBlock)%nat /\
  (exists cur, length cur = entryIdx w /\ Forall live cur /\
     entries (blk (wblock w)) = cur ++ replicate (entriesPerBlock - entryIdx w) zeroEntry) /\
  Forall (fun h => Forall live (entries (blk h))) (prevBlocks w) /\
  linked (wHandles w) /\
  (exists h0 rest, wHandles w = h0 :: rest /\ file h0 = t /\ offset h0 = off).

#[global] Instance table_eq_dec : EqDecision table.
Proof. solve_decision. Defined.

(** Invariant of the callback state of [split] once the entries [seen] have
    been routed: both writers are well formed, the overflow offsets they hold
    together with the unused ones are the offsets the allocator supplied, and
    each routed entry sits in the writer its new block index selects. *)
Definition routeInv (i' : dbInfo) (u uoff noff : Z) (allocs0 : list Z)
    (s : splitState) (seen : list entry) : Prop :=
  writerOk (updatedBlock s) IndexTable uoff /\
  writerOk (newBlock s) IndexTable noff /\
  dataOffs (updatedBlock s) ++ dataOffs (newBlock s) ++ pendingAllocs s ≡ₚ allocs0 /\
  (forall e, e ∈ seen ->
     if decide (blockIndex i' (hash e) = u)
     then e ∈ handlesEntries (wHandles (updatedBlock s))
     else e ∈ handlesEntries (wHandles (newBlock s))).

(** The writers of [split] hold exactly the routed entries, in the order
    they were met: those whose new block index is [u] in the one, the others
    in the other. *)
Definition exactInv (i' : dbInfo) (u : Z) (s : splitState) (seen : list entry) : Prop :=
  handlesEntries (wHandles (updatedBlock s))
  = filter (fun e => blockIndex i' (hash e) = u) seen /\
  handlesEntries (wHandles (newBlock s))
  = filter (fun e => blockIndex i' (hash e) <> u) seen.

(** The number of entries the two writers can still take before the
    allocator runs dry, counting one block per unused offset. *)
Definition room (s : splitState) : nat :=
  (entriesPerBlock * length (pendingAllocs s)
   + (entriesPerBlock - entryIdx (updatedBlock s))
   + (entriesPerBlock - entryIdx (newBlock s)))%nat.

(** Invariant of the directory after [n] successful splits of a fresh DB. *)
Definition dirInv (n : nat) (i : dbInfo) : Prop :=
  nBlocks i = Z.of_nat n + 1 /\
  0 <= level i <= 31 /\
  0 <= splitBlockIdx i < 2 ^ level i /\
  nBlocks i = 2 ^ level i + splitBlockIdx i.

(** [db.nBlocks++] *)
Definition bumpBlocks (i : dbInfo) : dbInfo :=
  {| level := level i; count := count i; nBlocks := wrap32 (nBlocks i + 1);
     splitBlockIdx := splitBlockIdx i; freelistOff := freelistOff i;
     hashSeed := hashSeed i |}.

(** A file system on which everything succeeds, and one on which the write
    of the new block fails. *)
Definition ioOk (offs : list Z) : IO := MkIO None offs None None.
Definition ioWriteFails : IO := MkIO None [] (Some (errIO "write")) None.
Definition ioExtendFails : IO := MkIO (Some (errIO "extend")) [] None None.

(** The steps of [split] after the chain walk. *)
Definition splitTail (freeOverflow : bool) (io : IO) (dbx : DB) (s : splitState)
    : option (option error * DB) :=
  let dbf := if freeOverflow
             then {| info := info dbx; index := index dbx; data := data dbx;
                     freed := freed dbx ++ overflowBlocks s |}
             else dbx in
  match writeNewErr io with
  | Some err => Some (Some err, dbf)
  | None =>
      match writeUpdatedErr io with
      | Some err => Some (Some err, writeWriter (newBlock s) dbf)
      | None =>
          Some (None,
                setInfo (writeWriter (updatedBlock s) (writeWriter (newBlock s) dbf))
                        (bumpBlocks (info dbx)))
      end
  end.

(** What [split] relies on: the directory equation with room for one more
    block, an index file of exactly [nBlocks] blocks, and an allocator that
    hands out pairwise distinct non-zero offsets that no block chain uses.
    The level is a uint8 and the split index a uint32; with them the
    equation and the room for one more block bound the level by 31. *)
Definition splitReady (blockSize : Z) (db : DB) (io : IO) : Prop :=
  0 <= level (info db) <= 31 /\
  0 <= splitBlockIdx (info db) /\
  nBlocks (info db) = 2 ^ level (info db) + splitBlockIdx (info db) /\
  nBlocks (info db) + 1 < 2 ^ 32 /\
  fsize (index db) = blockOffset blockSize (nBlocks (info db)) /\
  NoDup (allocs io) /\ (forall x, x ∈ allocs io -> x <> 0) /\
  (forall i fuel hs h,
     chain blockSize fuel db IndexTable (blockOffset blockSize i) = Some hs ->
     h ∈ hs -> file h = DataTable -> offset h ∉ allocs io).

(** The conditions of [splitReady] one by one, and a DB and an allocator that
    meet all of them but one. *)
Inductive condition : Type :=
  | DirEquation | RoomForBlock | FileLength
  | AllocsDistinct | AllocsNonZero | AllocsUnused.

Definition holds (blockSize : Z) (db : DB) (io : IO) (c : condition) : Prop :=
  match c with
  | DirEquation =>
      0 <= level (info db) <= 31 /\ 0 <= splitBlockIdx (info db) /\
      nBlocks (info db) = 2 ^ level (info db) + splitBlockIdx (info db)
  | RoomForBlock => nBlocks (info db) + 1 < 2 ^ 32
  | FileLength => fsize (index db) = blockOffset blockSize (nBlocks (info db))
  | AllocsDistinct => NoDup (allocs io)
  | AllocsNonZero => forall x, x ∈ allocs io -> x <> 0
  | AllocsUnused =>
      forall i fuel hs h,
        chain blockSize fuel db IndexTable (blockOffset blockSize i) = Some hs ->
        h ∈ hs -> file h = DataTable -> offset h ∉ allocs io
  end.

Definition onlyFails (blockSize : Z) (db : DB) (io : IO) (c : condition) : Prop :=
  ~ holds blockSize db io c /\ forall c', c' <> c -> holds blockSize db io c'.

(** A fresh DB with 4096-byte blocks after one successful split. *)
Definition splitOnce : DB :=
  match split 4096 false (ioOk []) 1 (freshDB 4096 0 (-1) []) with
  | Some (None, db) => db
  | _ => freshDB 4096 0 (-1) []
  end.

(** A DB at level 0 whose single block holds two entries, with hashes 2 and 3. *)
Definition twoEntryDB : DB :=
  {| info := DbInfo 0 2 1 0 (-1) 0;
     index := {| fsize := 512 + 4096; fheader := [];
                 fblocks := {[ 512 := MkBlock (MkEntry 2 1 1 0 800 :: MkEntry 3 1 1 0 900
                                               :: replicate 20 zeroEntry) 0 ]} |};
     data := ∅; freed := [] |}.

(** A DB at level 0 whose block is full of entries with even hashes and has
    an overflow block at data offset 8192 with one more entry, of hash 46. *)
Definition overflowDB : DB :=
  {| info := DbInfo 0 23 1 0 (-1) 0;
     index := {| fsize := 512 + 4096; fheader := [];
                 fblocks := {[ 512 := MkBlock ((fun n => MkEntry (2 * Z.of_nat n) 1 1 0 (1000 + Z.of_nat n))
                                               <$> seq 0 22) 8192 ]} |};
     data := {[ 8192 := MkBlock (MkEntry 46 1 1 0 2000 :: replicate 21 zeroEntry) 0 ]};
     freed := [] |}.

(** The block of [twoEntryDB] in a DB that counts two blocks at level 0 and
    split index 0, with an index file of two blocks: [nBlocks] is not
    [(1<<level) + splitBlockIdx]. *)
Definition strayDB : DB :=
  {| info := DbInfo 0 2 2 0 (-1) 0;
     index := {| fsize := 512 + 2 * 4096; fheader := [];
                 fblocks := {[ 512 := MkBlock (MkEntry 2 1 1 0 800 :: MkEntry 3 1 1 0 900
                                               :: replicate 20 zeroEntry) 0 ]} |};
     data := ∅; freed := [] |}.

(** [twoEntryDB] with an index file that is one block longer than its one
    block. *)
Definition longFileDB : DB :=
  {| info := DbInfo 0 2 1 0 (-1) 0;
     index := {| fsize := 512 + 2 * 4096; fheader := [];
                 fblocks := {[ 512 := MkBlock (MkEntry 2 1 1 0 800 :: MkEntry 3 1 1 0 900
                                               :: replicate 20 zeroEntry) 0 ]} |};
     data := ∅; freed := [] |}.

(** A DB without entries that counts [2^32 - 1] blocks, at level 31 with
    split index [2^31 - 1], in an index file of that many blocks. *)
Definition lastBlockDB : DB :=
  {| info := DbInfo 31 0 4294967295 2147483647 (-1) 0;
     index := {| fsize := 512 + 4096 * 4294967295; fheader := []; fblocks := ∅ |};
     data := ∅; freed := [] |}.

(** A DB at level 0 whose chain has three blocks: the index block full of
    entries with even hashes, an overflow block at 8192 full of entries with
    odd hashes, and an overflow block at 16384 with hashes 100 and 101. *)
Definition crowdedDB : DB :=
  {| info := DbInfo 0 46 1 0 (-1) 0;
     index := {| fsize := 512 + 4096; fheader := [];
                 fblocks := {[ 512 := MkBlock ((fun n => MkEntry (2 * Z.of_nat n) 1 1 0 (1000 + Z.of_nat n))
                                               <$> seq 0 22) 8192 ]} |};
     data := {[ 8192 := MkBlock ((fun n => MkEntry (2 * Z.of_nat n + 1) 1 1 0 (2000 + Z.of_nat n))
                                 <$> seq 0 22) 16384;
                16384 := MkBlock (MkEntry 100 1 1 0 3000 :: MkEntry 101 1 1 0 3001
                                  :: replicate 20 zeroEntry) 0 ]};
     freed := [] |}.

(** A DB at level 1 with two buckets, each a full index block and an
    overflow block with one entry: bucket 0 holds the hashes [4n] and has
    its overflow block at 8192, bucket 1 holds the hashes [4n + 1] and has
    its overflow block at 16384. *)
Definition neighbourDB : DB :=
  {| info := DbInfo 1 46 2 0 (-1) 0;
     index := {| fsize := 512 + 2 * 4096; fheader := [];
                 fblocks := {[ 512 := MkBlock ((fun n => MkEntry (4 * Z.of_nat n) 1 1 0 (1000 + Z.of_nat n))
                                               <$> seq 0 22) 8192;
                               4608 := MkBlock ((fun n => MkEntry (4 * Z.of_nat n + 1) 1 1 0 (2000 + Z.of_nat n))
                                                <$> seq 0 22) 16384 ]} |};
     data := {[ 8192 := MkBlock (MkEntry 88 1 1 0 1022 :: replicate 21 zeroEntry) 0;
                16384 := MkBlock (MkEntry 89 1 1 0 2022 :: replicate 21 zeroEntry) 0 ]};
     freed := [] |}.

End Index.

(** ** db.go: reading the header when an existing DB is opened *)
Module OpenDB.
Import Header Index.

(** Modelled from the spec: [index.readUnmarshalableAt(h, headerSize, 0)] is
    not among the sources. "Index: 512-byte header at offset 0": it reads
    [headerSize] bytes at offset 0, fails on a shorter file, and hands the
    bytes to [h.UnmarshalBinary]. [inr None] is a panic. *)
Definition readUnmarshalableAt (f : indexFile) (h : header) : error + option header :=
  if decide (length (fheader f) < headerSize)%nat then inl (errIO "EOF")
  else inr (UnmarshalBinary h (take headerSize (fheader f))).

Definition setFreelistOff (i : dbInfo) (off : Z) : dbInfo :=
  {| level := level i; count := count i; nBlocks := nBlocks i;
     splitBlockIdx := splitBlockIdx i; freelistOff := off; hashSeed := hashSeed i |}.

(** [func (db *DB) readHeader(readFreeList bool) error] of the first variant
    in db.go (lines 300-316), where the signature comparison is commented
    out. [freelistErr] is what [db.data.fb.read] answers. *)
Definition readHeader_unitdb (readFreeList : bool) (freelistErr : option error)
    (db : DB) : outcome * DB :=
  match readUnmarshalableAt (index db) zeroHeader with
  | inl err => (Return (Some err), db)
  | inr None => (Panic "slice bounds out of range", db)
  | inr (Some h) =>
      let db := setInfo db (Header.info h) in
      match (if readFreeList then freelistErr else None) with
      | Some err => (Return (Some err), db)
      | None => (Return None, setInfo db (setFreelistOff (info db) (-1)))
      end
  end.

(** [func (db *DB) readHeader(readFreeList bool) error] of the second variant
    (lines 1034-1050): [if !bytes.Equal(h.signature[:], signature[:]) { return errCorrupted }]. *)
Definition readHeader_tracedb (readFreeList : bool) (freelistErr : option error)
    (db : DB) : outcome * DB :=
  match readUnmarshalableAt (index db) zeroHeader with
  | inl err => (Return (Some err), db)
  | inr None => (Panic "slice bounds out of range", db)
  | inr (Some h) =>
      if negb (bool_decide (signature h = signatureBytes)) then
        (Return (Some errCorrupted), db)
      else
        let db := setInfo db (Header.info h) in
        match (if readFreeList then freelistErr else None) with
        | Some err => (Return (Some err), db)
        | None => (Return None, setInfo db (setFreelistOff (info db) (-1)))
        end
  end.

(** [version = 1], the file format version ([version] is also the name of
    the header field). *)
Definition formatVersion : Z := 1.

(** [func Open(path string, opts *Options)], from the point
    where the lock file, the three files, the cache and the MAC exist: a new
    DB when index and data file are empty ([seed] is the random hash seed,
    [fl] the freelist offset [writeHeader] stores), [errCorrupted] when only
    the index file is empty, otherwise [db.readHeader(!needsRecovery)] on the
    initial [dbInfo{nBlocks: 1, freelistOff: -1}], whose error [Open] returns
    after closing the files. Recovery, [loadTrie] and the background tasks
    follow only when this part returned nil. *)
Definition Open (blockSize : Z)
    (readHeader : bool -> option error -> DB -> outcome * DB)
    (needsRecovery : bool) (freelistErr : option error) (seed fl : Z)
    (idx : indexFile) (dataSize : Z) (data : gmap Z block) : outcome * option DB :=
  if fsize idx =? 0 then
    if negb (dataSize =? 0) then (Return (Some errCorrupted), None)
    else
      match MarshalBinary
              (Mkheader signatureBytes formatVersion (info (freshDB blockSize seed fl []))) with
      | Some hdr => (Return None, Some (freshDB blockSize seed fl hdr))
      | None => (Panic "slice bounds out of range", None)
      end
  else
    let db := {| info := DbInfo 0 0 1 0 (-1) 0; index := idx; data := data;
                 freed := [] |} in
    match readHeader (negb needsRecovery) freelistErr db with
    | (Return None, db) => (Return None, Some db)
    | (r, _) => (r, None)
    end.

(** An index file whose header was written with the signature "XXXXXXX". *)
Definition foreignHeader : header :=
  {| signature := [88; 88; 88; 88; 88; 88; 88]; version := 1;
     Header.info := DbInfo 2 40 5 1 (-1) 7 |}.

Definition foreignIndex : indexFile :=
  {| fsize := 512 + 5 * 4096;
     fheader := default [] (MarshalBinary foreignHeader);
     fblocks := ∅ |}.

End OpenDB.

(** ** bpool/bpool.go *)
Module BPool.

(** [maxBufferSize = (int64(1) << 34) - 1] *)
Definition maxBufferSize : Z := 2 ^ 34 - 1.

(** [BufferPool]: the target size and the buffers waiting in the channel
    [buf], oldest first; the channel holds at most [maxPoolSize] buffers. *)
Record BufferPool : Type := MkPool { targetSize : Z; buf : list (list Z) }.

(** [func NewBufferPool(size int64) *BufferPool] *)
Definition NewBufferPool (size : Z) : BufferPool :=
  {| targetSize := if maxBufferSize <? size then maxBufferSize else size; buf := [] |}.

(** [func (pool *BufferPool) Get() (buf *Buffer)]: the oldest buffer of the
    channel, or a new [Buffer{}] when the channel is empty (after a pause when
    the process uses more memory than [targetSize]). *)
Definition Get (pool : BufferPool) : list Z * BufferPool :=
  match buf pool with
  | b :: rest => (b, {| targetSize := targetSize pool; buf := rest |})
  | [] => ([], pool)
  end.

(** [func (pool *BufferPool) Put(buf *Buffer)] *)
Definition Put (pool : BufferPool) (b : list Z) : BufferPool :=
  {| targetSize := targetSize pool; buf := (Batch.BufferPool_Put (buf pool) b).1 |}.

(** One tick of [drain] while the pool is not closed: a waiting buffer, if
    any, is taken out and dropped. *)
Definition drainTick (pool : BufferPool) : BufferPool :=
  {| targetSize := targetSize pool; buf := drop 1 (buf pool) |}.

(** The pools a program can hold. *)
Inductive reachable : BufferPool -> Prop :=
  | reachable_new size : reachable (NewBufferPool size)
  | reachable_Get pool : reachable pool -> reachable (Get pool).2
  | reachable_Put pool b : reachable pool -> reachable (Put pool b)
  | reachable_drain pool : reachable pool -> reachable (drainTick pool).

End BPool.


(** ** memdb/tinylog.go: the options of the log pool *)
Module TinyLog.

(** [time.Duration] counts nanoseconds. *)
Definition Millisecond : Z := 1000000.
Definition Second : Z := 1000000000.

Definition defaultBlockDuration : Z := 1 * Second.
Definition defaultWriteInterval : Z := 100 * Millisecond.
Definition defaultTimeout : Z := 2 * Second.
Definition defaultPoolCapacity : Z := 27.
Definition defaultLogCount : Z := 1.

(** [_LogOptions] *)
Record LogOptions : Type := MkLogOptions {
  writeInterval : Z;
  timeout : Z;
  blockDuration : Z;
  poolCapacity : Z;
  logCount : Z
}.

(** [func (src *_LogOptions) withDefaultOptions() *_LogOptions]; [None] is the
    nil receiver. *)
Definition withDefaultOptions (src : option LogOptions) : LogOptions :=
  let opts := match src with
              | Some o => o
              | None => MkLogOptions 0 0 0 0 0
              end in
  let opts := if poolCapacity opts <? 1
              then MkLogOptions (writeInterval opts) (timeout opts) (blockDuration opts)
                                1 (logCount opts)
              else opts in
  let opts := if writeInterval opts =? 0
              then MkLogOptions defaultWriteInterval (timeout opts) (blockDuration opts)
                                (poolCapacity opts) (logCount opts)
              else opts in
  let opts := if timeout opts =? 0
              then MkLogOptions (writeInterval opts) defaultTimeout (blockDuration opts)
                                (poolCapacity opts) (logCount opts)
              else opts in
  let opts := if blockDuration opts =? 0
              then MkLogOptions (writeInterval opts) (timeout opts) defaultBlockDuration
                                (poolCapacity opts) (logCount opts)
              else opts in
  let opts := if logCount opts <? 1
              then MkLogOptions (writeInterval opts) (timeout opts) (blockDuration opts)
                                (poolCapacity opts) defaultLogCount
              else opts in
  opts.

(** Options that [withDefaultOptions] has nothing to add to. *)
Definition complete (o : LogOptions) : Prop :=
  1 <= poolCapacity o /\ writeInterval o <> 0 /\ timeout o <> 0 /\
  blockDuration o <> 0 /\ 1 <= logCount o.

End TinyLog.


(** ** metrics/counter.go *)
Module Counter.

(** The two implementations of the [Counter] interface: [*_Counter] with its
    int64 count, and the read-only [CounterSnapshot]. *)
Inductive Counter : Type :=
  | StandardCounter (count : Z)
  | CounterSnapshot (c : Z).

(** [func NewCounter() Counter] *)
Definition NewCounter : Counter := StandardCounter 0.

(** [atomic.AddInt64(&c.count, delta)] *)
Definition AddInt64 (count delta : Z) : Z := Batch.wrapInt64 (count + delta).

(** [Count() int64] *)
Definition Count (c : Counter) : Z :=
  match c with
  | StandardCounter n => n
  | CounterSnapshot n => n
  end.

(** [Reset()], [Dec(i)], [Inc(i)]; [inr] is the panic of a snapshot. In [Dec]
    the amount is negated in int64 before it is added. *)
Definition Reset (c : Counter) : Counter + string :=
  match c with
  | StandardCounter _ => inl (StandardCounter 0)
  | CounterSnapshot _ => inr "Clear called on a CounterSnapshot"%string
  end.

Definition Dec (c : Counter) (i : Z) : Counter + string :=
  match c with
  | StandardCounter n => inl (StandardCounter (AddInt64 n (Batch.wrapInt64 (- i))))
  | CounterSnapshot _ => inr "Dec called on a CounterSnapshot"%string
  end.

Definition Inc (c : Counter) (i : Z) : Counter + string :=
  match c with
  | StandardCounter n => inl (StandardCounter (AddInt64 n i))
  | CounterSnapshot _ => inr "Inc called on a CounterSnapshot"%string
  end.

(** [Snapshot() Counter] *)
Definition Snapshot (c : Counter) : Counter :=
  match c with
  | StandardCounter n => CounterSnapshot n
  | CounterSnapshot n => CounterSnapshot n
  end.

(** The values of an int64. *)
Definition int64 (x : Z) : Prop := - 2 ^ 63 <= x < 2 ^ 63.

End Counter.


(** ** wal/wal.go *)
Module Wal.

(** [version = 1], the file format version. *)
Definition version : Z := 1.

(** [_LogInfo] as far as wal.go uses it. *)
Record LogInfo : Type := MkLogInfo { lversion : Z; ltimeID : Z; lcount : Z }.

(** The log store ([_FileStore], not among the sources) is represented by the
    calls it received, oldest first. *)
Inductive storeCall : Type :=
  | StorePut (log : LogInfo) (data : list Z)
  | StoreDel (timeID : Z)
  | StoreReset
  | StoreAll
  | StoreClose.

(** [WALInfo] and the fields of [WAL] that its methods touch; [closed] is the
    uint32 flag. *)
Record WAL : Type := MkWAL {
  logCountWritten : Z;
  logCountApplied : Z;
  entriesWritten : Z;
  entriesApplied : Z;
  recoveredTimeIDs : list Z;
  logStore : list storeCall;
  closed : Z
}.

Definition setStore (wal : WAL) (calls : list storeCall) : WAL :=
  {| logCountWritten := logCountWritten wal; logCountApplied := logCountApplied wal;
     entriesWritten := entriesWritten wal; entriesApplied := entriesApplied wal;
     recoveredTimeIDs := recoveredTimeIDs wal; logStore := calls;
     closed := closed wal |}.

(** [func (wal *WAL) setClosed() bool]:
    [atomic.CompareAndSwapUint32(&wal.closed, 0, 1)]; [None] is the nil
    receiver. *)
Definition setClosed (wal : option WAL) : bool * option WAL :=
  match wal with
  | None => (false, None)
  | Some w =>
      if closed w =? 0 then
        (true, Some {| logCountWritten := logCountWritten w;
                       logCountApplied := logCountApplied w;
                       entriesWritten := entriesWritten w;
                       entriesApplied := entriesApplied w;
                       recoveredTimeIDs := recoveredTimeIDs w;
                       logStore := logStore w; closed := 1 |})
      else (false, Some w)
  end.

(** [func (wal *WAL) isClosed() bool] and [func (wal *WAL) ok() error] *)
Definition isClosed (wal : WAL) : bool := negb (closed wal =? 0).

Definition ok (wal : WAL) : option string :=
  if isClosed wal then Some "wal is closed."%string else None.

(** [func (wal *WAL) Close() error]; waiting for the sync thread has no
    effect on a single caller. *)
Definition Close (wal : WAL) : option string * WAL :=
  match setClosed (Some wal) with
  | (true, Some w) => (None, setStore w (logStore w ++ [StoreClose]))
  | _ => (Some "wal is closed"%string, wal)
  end.

(** [func (wal *WAL) put(log _LogInfo, data *bpool.Buffer) error]; [putErr]
    is what [logStore.put] answers. *)
Definition put (putErr : option error) (wal : WAL) (log : LogInfo) (data : list Z)
    : option error * WAL :=
  let log := MkLogInfo version (ltimeID log) (lcount log) in
  (putErr,
   {| logCountWritten := Batch.wrapInt64 (logCountWritten wal + 1);
      logCountApplied := logCountApplied wal;
      entriesWritten := Batch.wrapInt64 (entriesWritten wal + lcount log);
      entriesApplied := entriesApplied wal;
      recoveredTimeIDs := recoveredTimeIDs wal;
      logStore := logStore wal ++ [StorePut log data];
      closed := closed wal |}).

(** [func (wal *WAL) SignalLogApplied(timeID int64) error] *)
Definition SignalLogApplied (wal : WAL) (timeID : Z) : option error * WAL :=
  (None,
   {| logCountWritten := logCountWritten wal;
      logCountApplied := Batch.wrapInt64 (logCountApplied wal + 1);
      entriesWritten := entriesWritten wal;
      entriesApplied := entriesApplied wal;
      recoveredTimeIDs := recoveredTimeIDs wal;
      logStore := logStore wal ++ [StoreDel timeID];
      closed := closed wal |}).

(** [func (wal *WAL) Reset()] *)
Definition Reset (wal : WAL) : WAL := setStore wal (logStore wal ++ [StoreReset]).

(** A WAL as [newWal] returns it when the log store opened and [opts.Reset]
    is unset; [all] is what [logStore.all()] answers. *)
Definition newWal (all : list Z) : WAL :=
  {| logCountWritten := 0; logCountApplied := 0; entriesWritten := 0;
     entriesApplied := 0; recoveredTimeIDs := all; logStore := [StoreAll];
     closed := 0 |}.

End Wal.


(** ** block_reader.go *)
Module BlockReader.

(** [_IndexEntry] as far as the reader uses it: seq uint64, topicSize uint16,
    msgOffset int64, and the cached message if there is one. *)
Record IndexEntry : Type := MkIndexEntry {
  seq : Z;
  topicSize : Z;
  msgOffset : Z;
  cache : option (list Z)
}.

Definition zeroIndexEntry : IndexEntry := MkIndexEntry 0 0 0 None.

(** The errors of the reader next to the errors of the package. *)
Inductive readError : Type :=
  | ReadErr (err : error)
  | errMsgIDDeleted
  | errEntryInvalid.

(** The loop of [readEntry] over the slots of the block:
    [if e.seq == seq { if e.msgOffset == -1 { return errMsgIDDeleted }; entryIdx = i; break }]. *)
Fixpoint findEntry (entries : list IndexEntry) (seq0 : Z) : readError + IndexEntry :=
  match entries with
  | [] => inl errEntryInvalid
  | e :: rest =>
      if seq e =? seq0 then
        if msgOffset e =? -1 then inl errMsgIDDeleted else inr e
      else findEntry rest seq0
  end.

(** [func (r *_BlockReader) readEntry(seq uint64) (_IndexEntry, error)].
    [readIndexBlock] stands for the method of that name at the offset
    [blockOffset(blockIndex(seq))]; it answers an error or the
    [entriesPerIndexBlock] slots of the block. *)
Definition readEntry (blockIndex blockOffset : Z -> Z)
    (readIndexBlock : Z -> error + list IndexEntry) (seq0 : Z)
    : readError + IndexEntry :=
  let bIdx := blockIndex seq0 in
  let off := blockOffset bIdx in
  match readIndexBlock off with
  | inl err => inl (ReadErr err)
  | inr entries => findEntry entries seq0
  end.

(** [e.topicSize+idSize] is computed in uint16. *)
Definition uint16 (x : Z) : Z := x mod 2 ^ 16.

(** [func (r *_BlockReader) readMessage(e _IndexEntry) ([]byte, []byte, error)].
    [idSize] and [e.mSize()] are not among the sources; [slice] stands for
    [r.dataFile.slice]. [None] is a bounds panic. *)
Definition readMessage (idSize : Z) (mSize : IndexEntry -> Z)
    (slice : Z -> Z -> error + list Z) (e : IndexEntry)
    : option (error + list Z * list Z) :=
  match cache e with
  | Some c =>
      id ← Batch.sliceZ c 0 idSize;
      payload ← Batch.sliceZ c (uint16 (topicSize e + idSize)) (Batch.Size c);
      Some (inr (id, payload))
  | None =>
      match slice (msgOffset e) (msgOffset e + mSize e) with
      | inl err => Some (inl err)
      | inr message =>
          id ← Batch.sliceZ message 0 idSize;
          payload ← Batch.sliceZ message (uint16 (topicSize e + idSize))
                                 (Batch.Size message);
          Some (inr (id, payload))
      end
  end.

(** [func (r *_BlockReader) readTopic(e _IndexEntry) ([]byte, error)]; on the
    file the two bounds are computed in int64. *)
Definition readTopic (idSize : Z) (slice : Z -> Z -> error + list Z) (e : IndexEntry)
    : option (error + list Z) :=
  match cache e with
  | Some c => inr <$> Batch.sliceZ c idSize (uint16 (topicSize e + idSize))
  | None => Some (slice (msgOffset e + idSize) (msgOffset e + topicSize e + idSize))
  end.

(** A data file held in memory: [slice(lo, hi)] is an error outside the file. *)
Definition fileSlice (file : list Z) (lo hi : Z) : error + list Z :=
  match Batch.sliceZ file lo hi with
  | Some bytes => inr bytes
  | None => inl (errIO "EOF")
  end.

(** Three slots: a deleted message with seq 4 and two slots with seq 7. *)
Definition sampleSlots : list IndexEntry :=
  [MkIndexEntry 4 1 (-1) None; MkIndexEntry 7 1 100 None; MkIndexEntry 7 2 200 None].

(** A reader that finds these slots in every block. *)
Definition sampleRead (off : Z) : error + list IndexEntry := inr sampleSlots.

(** An entry whose message of a 2-byte id, a 3-byte topic and a 2-byte
    payload is cached. *)
Definition cachedEntry : IndexEntry :=
  MkIndexEntry 9 3 64 (Some [1; 2; 10; 11; 12; 20; 21]).

End BlockReader.

(** ** db.go (second variant): [Get], [Has], [put] and [Delete] *)
Module KV.
Import Header Index.

(** [MaxKeys = math.MaxUint32] *)
Definition MaxKeys : Z := 2 ^ 32 - 1.

(** Go's conversions to uint16 and uint32. *)
Definition uint16 (x : Z) : Z := x mod 2 ^ 16.
Definition uint32 (x : Z) : Z := x mod 2 ^ 32.

(** Modelled from the spec: the data file ([dataTable], not among the
    sources). "`write_key_value(topic, id, value) → offset` writes
    `[id || topic || value]` contiguously. `read_*` slices by `(offset, size)`.
    `free(offset,size)` pushes to freelist." In this variant of db.go a record
    is a key and a value. The file is seen through the records written to it:
    [records] holds the bytes of each record under its offset, a read slices
    them by the sizes of the entry and fails when there is no record at the
    offset or the slice does not lie in it; [recFreed] lists the calls of
    [free]. *)
Record dataFile : Type := MkData {
  records : gmap Z (list Z);
  recFreed : list (Z * Z)
}.

Definition recordSlice (d : dataFile) (off from len : Z) : error + list Z :=
  match records d !! off with
  | Some bytes =>
      if (0 <=? from) && (0 <=? len) && (from + len <=? Z.of_nat (length bytes))
      then inr (take (Z.to_nat len) (drop (Z.to_nat from) bytes))
      else inl (errIO "read")
  | None => inl (errIO "read")
  end.

Definition readKey (d : dataFile) (sl : entry) : error + list Z :=
  recordSlice d (kvOffset sl) 0 (keySize sl).

Definition readKeyValue (d : dataFile) (sl : entry) : error + list Z * list Z :=
  match recordSlice d (kvOffset sl) 0 (keySize sl),
        recordSlice d (kvOffset sl) (keySize sl) (valueSize sl) with
  | inr key, inr value => inr (key, value)
  | inl err, _ => inl err
  | _, inl err => inl err
  end.

(** [answer] is what the allocator behind [writeKeyValue] says: an error, or
    the offset the record is written at. *)
Definition writeKeyValue (answer : error + Z) (d : dataFile) (key value : list Z)
    : error + Z * dataFile :=
  match answer with
  | inl err => inl err
  | inr off => inr (off, MkData (<[off := key ++ value]> (records d)) (recFreed d))
  end.

Definition free (d : dataFile) (size off : Z) : dataFile :=
  MkData (records d) (recFreed d ++ [(size, off)]).

(** What the file system answers during one [put]: the offsets
    [db.data.allocate(blockSize)] returns in turn and its error when it has
    none left, what [writeKeyValue] answers, and the errors of [b.write()]
    and [originalB.write()]. *)
Record putIO : Type := MkPutIO {
  overflowAllocs : list Z;
  allocErr : error;
  kvAnswer : error + Z;
  writeErr : option error;
  writeOriginalErr : option error
}.

(** How the loop over the slots of a block ends in [Has], [Delete] and
    [put]: at a free slot, at the slot of the key, with an error of the data
    file, or after the last slot. *)
Inductive scan : Type :=
  | AtFree (i : nat)
  | AtKey (i : nat)
  | ScanErr (i : nat) (err : error)
  | Passed.

(** The same for [Get], which reads the value with the key. *)
Inductive getScan : Type :=
  | GetFree
  | GetFound (value : list Z)
  | GetErr (err : error)
  | GetPassed.

(** The variables the callback of [put] closes over: [b], [originalB],
    [entryIdx], and the offsets the allocator has left. *)
Record putState : Type := MkPutState {
  pb : option blockHandle;
  originalB : option blockHandle;
  pentryIdx : nat;
  pallocs : list Z
}.

(** The variables the callback of [Delete] closes over: [b] and [entryIdx],
    [None] for -1. *)
Record deleteState : Type := MkDeleteState {
  delB : blockHandle;
  delEntryIdx : option nat
}.

Definition setNext (b : blockHandle) (off : Z) : blockHandle :=
  MkHandle (file b) (offset b) (MkBlock (entries (blk b)) off).

Definition setEntry (b : blockHandle) (i : nat) (e : entry) : blockHandle :=
  MkHandle (file b) (offset b) (MkBlock (<[i := e]> (entries (blk b))) (next (blk b))).

Definition setCount (db : DB) (c : Z) : DB :=
  setInfo db {| level := level (info db); count := c; nBlocks := nBlocks (info db);
                splitBlockIdx := splitBlockIdx (info db);
                freelistOff := freelistOff (info db); hashSeed := hashSeed (info db) |}.

Section Ops.

Variable blockSize : Z.

(** What db.go calls but the sources do not contain: [hash.WithSalt],
    [db.filter.Test], [entry.kvSize] and [blockHandle.del]. *)
Variable WithSalt : list Z -> Z -> Z.
Variable filterTest : Z -> bool.
Variable kvSize : entry -> Z.
Variable del : block -> nat -> block.

(** [func (db *DB) hash(data []byte) uint32] *)
Definition hashOf (db : DB) (data : list Z) : Z := WithSalt data (hashSeed (info db)).

(** [for i := 0; i < entriesPerBlock; i++] of [Has], [Delete] and [put], from
    slot [i]:
    [if sl.kvOffset == 0 {...} else if h == sl.hash && uint16(len(key)) == sl.keySize { slKey, err := db.data.readKey(sl) ... }]. *)
Fixpoint scanSlots (d : dataFile) (h : Z) (key : list Z) (slots : list entry) (i : nat)
    : scan :=
  match slots with
  | [] => Passed
  | sl :: rest =>
      if kvOffset sl =? 0 then AtFree i
      else if (h =? hash sl) && (uint16 (Z.of_nat (length key)) =? keySize sl) then
        match readKey d sl with
        | inl err => ScanErr i err
        | inr slKey =>
            if bool_decide (key = slKey) then AtKey i else scanSlots d h key rest (S i)
        end
      else scanSlots d h key rest (S i)
  end.

(** The loop of [Get]. *)
Fixpoint getSlots (d : dataFile) (h : Z) (key : list Z) (slots : list entry) : getScan :=
  match slots with
  | [] => GetPassed
  | sl :: rest =>
      if kvOffset sl =? 0 then GetFree
      else if (h =? hash sl) && (uint16 (Z.of_nat (length key)) =? keySize sl) then
        match readKeyValue d sl with
        | inl err => GetErr err
        | inr (slKey, value) =>
            if bool_decide (key = slKey) then GetFound value else getSlots d h key rest
        end
      else getSlots d h key rest
  end.

(** The callback of [Get]; the state is [retValue], [None] for nil. *)
Definition getCallback (d : dataFile) (h : Z) (key : list Z)
    (b : blockHandle) (retValue : option (list Z))
    : bool * option error * option (list Z) :=
  match getSlots d h key (entries (blk b)) with
  | GetFree => (next (blk b) =? 0, None, retValue)
  | GetFound value => (true, None, Some value)
  | GetErr err => (true, Some err, retValue)
  | GetPassed => (false, None, retValue)
  end.

(** [func (db *DB) Get(key []byte) ([]byte, error)]; [None] means the chain
    walk did not finish within [fuel]. *)
Definition Get (fuel : nat) (db : DB) (d : dataFile) (key : list Z)
    : option (error + option (list Z)) :=
  let h := hashOf db key in
  if negb (filterTest h) then Some (inr None)
  else
    match forEachBlock blockSize fuel db (blockIndex (info db) h) (getCallback d h key) None with
    | None => None
    | Some (Some err, _) => Some (inl err)
    | Some (None, retValue) => Some (inr retValue)
    end.

(** The callback of [Has]; the state is [found]. *)
Definition hasCallback (d : dataFile) (h : Z) (key : list Z)
    (b : blockHandle) (found : bool) : bool * option error * bool :=
  match scanSlots d h key (entries (blk b)) 0 with
  | AtFree _ => (next (blk b) =? 0, None, found)
  | AtKey _ => (true, None, true)
  | ScanErr _ err => (true, Some err, found)
  | Passed => (false, None, found)
  end.

(** [func (db *DB) Has(key []byte) (bool, error)] *)
Definition Has (fuel : nat) (db : DB) (d : dataFile) (key : list Z)
    : option (error + bool) :=
  let h := hashOf db key in
  if negb (filterTest h) then Some (inr false)
  else
    match forEachBlock blockSize fuel db (blockIndex (info db) h) (hasCallback d h key) false with
    | None => None
    | Some (Some err, _) => Some (inl err)
    | Some (None, found) => Some (inr found)
    end.

(** The callback of [put]. After the loop [entryIdx] is the last slot;
    [allocErr] is the error of an allocator that has nothing to give. *)
Definition putCallback (allocErr : error) (d : dataFile) (h : Z) (key : list Z)
    (curb : blockHandle) (s : putState) : bool * option error * putState :=
  match scanSlots d h key (entries (blk curb)) 0 with
  | AtFree i | AtKey i => (true, None, MkPutState (Some curb) (originalB s) i (pallocs s))
  | ScanErr i err => (true, Some err, MkPutState (Some curb) (originalB s) i (pallocs s))
  | Passed =>
      let last := (entriesPerBlock - 1)%nat in
      if next (blk curb) =? 0 then
        match createOverflowBlock (pallocs s) with
        | (None, allocs) =>
            (false, Some allocErr, MkPutState (Some curb) (originalB s) last allocs)
        | (Some nextBlock, allocs) =>
            let b := setNext curb (offset nextBlock) in
            (true, None, MkPutState (Some nextBlock) (Some b) 0 allocs)
        end
      else (false, None, MkPutState (Some curb) (originalB s) last (pallocs s))
  end.

(** [func (db *DB) put(hash uint32, key []byte, value []byte, expiresAt uint32) error].
    The deferred [db.data.free] of an overwritten record runs on every return
    after it was registered. *)
Definition put (io : putIO) (fuel : nat) (db : DB) (d : dataFile)
    (h : Z) (key value : list Z) (expiresAt : Z)
    : option (outcome * DB * dataFile) :=
  match forEachBlock blockSize fuel db (blockIndex (info db) h)
          (putCallback (allocErr io) d h key)
          (MkPutState None None 0 (overflowAllocs io)) with
  | None => None
  | Some (Some err, _) => Some (Return (Some err), db, d)
  | Some (None, s) =>
      match pb s with
      | None => Some (Panic "nil pointer dereference", db, d)
      | Some b =>
          let old := entries (blk b) !!! pentryIdx s in
          let fresh := kvOffset old =? 0 in
          if fresh && (count (info db) =? MaxKeys) then Some (Return (Some errFull), db, d)
          else
            let db := if fresh then setCount db (uint32 (count (info db) + 1)) else db in
            let release (d : dataFile) :=
              if fresh then d else free d (kvSize old) (kvOffset old) in
            match writeKeyValue (kvAnswer io) d key value with
            | inl err => Some (Return (Some err), db, release d)
            | inr (kvOff, d) =>
                let b := setEntry b (pentryIdx s)
                           (MkEntry h (uint16 (Z.of_nat (length key)))
                                    (uint32 (Z.of_nat (length value))) expiresAt kvOff) in
                match writeErr io with
                | Some err => Some (Return (Some err), db, release d)
                | None =>
                    let db := writeBlock b db in
                    match originalB s with
                    | Some ob =>
                        match writeOriginalErr io with
                        | Some err => Some (Return (Some err), db, release d)
                        | None => Some (Return None, writeBlock ob db, release d)
                        end
                    | None => Some (Return None, db, release d)
                    end
                end
            end
      end
  end.

(** The callback of [Delete]. *)
Definition deleteCallback (d : dataFile) (h : Z) (key : list Z)
    (curb : blockHandle) (s : deleteState) : bool * option error * deleteState :=
  match scanSlots d h key (entries (blk curb)) 0 with
  | AtFree _ => (next (blk curb) =? 0, None, MkDeleteState curb (delEntryIdx s))
  | AtKey i => (true, None, MkDeleteState curb (Some i))
  | ScanErr _ err => (true, Some err, MkDeleteState curb (delEntryIdx s))
  | Passed => (false, None, MkDeleteState curb (delEntryIdx s))
  end.

(** [func (db *DB) Delete(key []byte) error]. [writeError] and [syncError]
    are what [b.write()] and [db.sync()] answer; the zero [blockHandle] the
    walk starts with is never looked at. *)
Definition Delete (writeError syncError : option error) (syncWrites : bool)
    (fuel : nat) (db : DB) (d : dataFile) (key : list Z)
    : option (option error * DB * dataFile) :=
  let h := hashOf db key in
  if negb (filterTest h) then Some (None, db, d)
  else
    match forEachBlock blockSize fuel db (blockIndex (info db) h) (deleteCallback d h key)
            (MkDeleteState (MkHandle IndexTable 0 zeroBlock) None) with
    | None => None
    | Some (err, s) =>
        match delEntryIdx s, err with
        | Some entryIdx, None =>
            let b := delB s in
            let sl := entries (blk b) !!! entryIdx in
            let b := MkHandle (file b) (offset b) (del (blk b) entryIdx) in
            match writeError with
            | Some err => Some (Some err, db, d)
            | None =>
                let db := writeBlock b db in
                let d := free d (kvSize sl) (kvOffset sl) in
                let db := setCount db (uint32 (count (info db) - 1)) in
                Some (if syncWrites then syncError else None, db, d)
            end
        | _, _ => Some (err, db, d)
        end
    end.

End Ops.

(** What [forEachBlock] does with the blocks of a chain: it calls [cb] on
    one after the other until [cb] asks to stop or fails. *)
Fixpoint runBlocks {S : Type} (cb : blockHandle -> S -> bool * option error * S)
    (hs : list blockHandle) (s : S) : option error * S :=
  match hs with
  | [] => (None, s)
  | h :: rest =>
      let '(stop, err, s') := cb h s in
      if stop || bool_decide (err <> None) then (err, s') else runBlocks cb rest s'
  end.

(** The live entries of a bucket that could be taken for [key]: same hash and
    same key size. *)
Definition candidate (h : Z) (key : list Z) (sl : entry) : bool :=
  (h =? hash sl) && (uint16 (Z.of_nat (length key)) =? keySize sl).

(** A linear search for [key] through a list of entries: the first candidate
    whose record cannot be read gives the error, the first whose record has
    the key gives the value. *)
Fixpoint search (d : dataFile) (h : Z) (key : list Z) (es : list entry)
    : error + option (list Z) :=
  match es with
  | [] => inr None
  | sl :: rest =>
      if candidate h key sl then
        match readKeyValue d sl with
        | inl err => inl err
        | inr (slKey, value) =>
            if bool_decide (key = slKey) then inr (Some value) else search d h key rest
        end
      else search d h key rest
  end.

(** A slot that the loops of [put], [Has] and [Delete] step over when they
    look for [key]: it is taken, and when it is a candidate its record is
    readable and holds another key. *)
Definition passes (d : dataFile) (h : Z) (key : list Z) (sl : entry) : Prop :=
  kvOffset sl <> 0 /\
  (candidate h key sl = true -> exists k, readKey d sl = inr k /\ k <> key).

(** The record of an entry can be read, key and value. *)
Definition complete (d : dataFile) (sl : entry) : Prop :=
  exists kv, readKeyValue d sl = inr kv.

(** The free slots of a block come after the taken ones. *)
Definition packed (slots : list entry) : Prop :=
  Forall (fun e => kvOffset e = 0) (drop (length (liveEntries slots)) slots).

(** The entry [put] writes for [key] and [value] once the record is at [off]. *)
Definition newEntry (h : Z) (key value : list Z) (expiresAt off : Z) : entry :=
  MkEntry h (uint16 (Z.of_nat (length key))) (uint32 (Z.of_nat (length value)))
          expiresAt off.

(** What a [put] that returns nil does to the chain [hs] of its bucket,
    giving [hs']: either it puts the entry [e] into slot [j] of a block, the
    first slot that is free or holds the key, all slots before being stepped
    over; or every slot of the chain is stepped over and a new block with [e]
    in slot 0 is linked behind the last. [old] is the entry the slot held. *)
Definition putEffect (d : dataFile) (h : Z) (key : list Z) (e : entry)
    (hs hs' : list blockHandle) (fresh : bool) (old : entry) : Prop :=
  (exists pre b post j,
     hs = pre ++ b :: post /\ hs' = pre ++ setEntry b j e :: post /\
     Forall (fun x => Forall (passes d h key) (entries (blk x))) pre /\
     entries (blk b) !! j = Some old /\
     Forall (passes d h key) (take j (entries (blk b))) /\
     if fresh then kvOffset old = 0
     else kvOffset old <> 0 /\ candidate h key old = true /\
          readKey d old = inr key) \/
  (exists pre bl off',
     fresh = true /\ old = zeroEntry /\ hs = pre ++ [bl] /\
     Forall (fun x => Forall (passes d h key) (entries (blk x))) hs /\
     off' <> 0 /\ ((DataTable, off') ∉ keyOfHandle <$> hs) /\
     hs' = pre ++ [setNext bl off'; setEntry (MkHandle DataTable off' zeroBlock) 0 e]).

(** A hash function and a filter for examples: every key hashes to its
    length, the filter lets everything through. *)
Definition lengthHash (data : list Z) (seed : Z) : Z := Z.of_nat (length data).
Definition passAll (h : Z) : bool := true.
(** A filter that knows the hash 3 and no other. *)
Definition knowsThree (h : Z) : bool := h =? 3.
Definition sumSize (e : entry) : Z := keySize e + valueSize e.
Definition clearSlot (b : block) (i : nat) : block :=
  MkBlock (<[i := zeroEntry]> (entries b)) (next b).

Definition putOk (offs : list Z) (kvOff : Z) : putIO :=
  MkPutIO offs (errIO "allocate") (inr kvOff) None None.

Definition emptyData : dataFile := MkData ∅ [].

(** A fresh DB with 4096-byte blocks after [put] stored the key [1;2;3] with
    the value [9;9] at offset 700 of the data file. *)
Definition onePut : DB * dataFile :=
  match put 4096 sumSize (putOk [] 700) 1 (freshDB 4096 0 (-1) []) emptyData
            3 [1; 2; 3] [9; 9] 0 with
  | Some (_, db, d) => (db, d)
  | None => (freshDB 4096 0 (-1) [], emptyData)
  end.

(** The chain of bucket 0 of [onePut]: the index block at offset 512 with
    the entry of that key in slot 0. *)
Definition onePutChain : list blockHandle :=
  [MkHandle IndexTable 512 (MkBlock (MkEntry 3 3 2 0 700 :: replicate 21 zeroEntry) 0)].

End KV.

(** * Theorems *)

(** ** [uniq]: last writer wins, order kept *)
Module BatchUniq.
Import Batch.

Lemma lastOccurrences_keys (l : list batchIndex) (k : Z) :
  k ∈ key <$> lastOccurrences l <-> k ∈ key <$> l.
Proof.
  induction l as [|x l IH]; simpl; [done|].
  case_bool_decide as Hin; simpl; rewrite !elem_of_cons, ?IH.
  - split; [tauto|]. intros [->|?]; tauto.
  - tauto.
Qed.

Lemma lastOccurrences_NoDup (l : list batchIndex) :
  NoDup (key <$> lastOccurrences l).
Proof.
  induction l as [|x l IH]; simpl; [constructor|].
  case_bool_decide as Hin; simpl; [done|].
  constructor; [|done]. by rewrite lastOccurrences_keys.
Qed.

Lemma lastOccurrences_sublist (l : list batchIndex) :
  lastOccurrences l `sublist_of` l.
Proof.
  induction l as [|x l IH]; simpl; [done|].
  case_bool_decide; [by apply sublist_cons | by apply sublist_skip].
Qed.

(** An entry is retained exactly at a position that no later entry with the
    same key follows. *)
Lemma lastOccurrences_elem (l : list batchIndex) (x : batchIndex) :
  x ∈ lastOccurrences l <->
  exists l1 l2, l = l1 ++ x :: l2 /\ key x ∉ key <$> l2.
Proof.
  induction l as [|y l IH]; simpl.
  - split; [by intros ?%elem_of_nil|]. intros (l1 & l2 & Heq & _).
    by destruct l1.
  - case_bool_decide as Hin.
    + rewrite IH. split.
      * intros (l1 & l2 & -> & Hk). by exists (y :: l1), l2.
      * intros (l1 & l2 & Heq & Hk). destruct l1 as [|z l1]; simplify_eq/=.
        -- done.
        -- by exists l1, l2.
    + rewrite elem_of_cons, IH. split.
      * intros [->|(l1 & l2 & -> & Hk)].
        -- by exists [], l.
        -- by exists (y :: l1), l2.
      * intros (l1 & l2 & Heq & Hk). destruct l1 as [|z l1]; simplify_eq/=.
        -- by left.
        -- right. by exists l1, l2.
Qed.

Lemma scanInv_lookup index n m i K k :
  scanInv index n m i K ->
  is_Some (m !! k) <-> k ∈ key <$> drop n index.
Proof.
  intros (_ & _ & _ & Hm & HK).
  rewrite <- lastOccurrences_keys, <- HK. split.
  - intros [v Hv]. apply Hm in Hv as [Hv <-].
    apply list_elem_of_fmap_2, list_elem_of_fmap. exists (idx v). split; [done|].
    rewrite elem_of_reverse. by eapply list_elem_of_lookup_2.
  - intros (x & -> & (p & -> & Hp)%list_elem_of_fmap)%list_elem_of_fmap.
    rewrite elem_of_reverse in Hp. apply list_elem_of_lookup in Hp as [j Hj].
    exists (Indices p j). apply Hm. by simpl.
Qed.

Lemma uniqScan_inv index n :
  (n <= length index)%nat ->
  forall m i K, scanInv index n m i K ->
  exists K', scanInv index 0 (uniqScan index n m i).1 (uniqScan index n m i).2 K'.
Proof.
  induction n as [|n IH]; intros Hn m i K HI; simpl.
  { by exists K. }
  assert (Hx : index !! n = Some (index !!! n)).
  { apply list_lookup_lookup_total_lt. lia. }
  pose proof (drop_S _ _ _ Hx) as Hdrop.
  pose proof (scanInv_lookup _ _ _ _ _ (key (index !!! n)) HI) as Hlk.
  destruct HI as (Hi & Hsz & Hlt & Hm & HK).
  destruct (m !! key (index !!! n)) as [v|] eqn:Hmk.
  - apply (IH ltac:(lia) m i K). unfold scanInv. split_and!; try done.
    rewrite Hdrop. simpl. rewrite bool_decide_eq_true_2; [done|].
    apply Hlk. by eexists.
  - apply (IH ltac:(lia) _ _ (K ++ [n])). unfold scanInv. split_and!.
    + rewrite length_app. simpl. lia.
    + rewrite map_size_insert_None by done. rewrite length_app. simpl. lia.
    + intros q [?| ->%list_elem_of_singleton]%elem_of_app; [by apply Hlt|lia].
    + intros k v. split.
      * intros H. destruct (decide (k = key (index !!! n))) as [->|Hne].
        -- rewrite lookup_insert_eq in H. simplify_eq/=. split; [|done].
           rewrite lookup_app_r by lia. by rewrite Nat.sub_diag.
        -- rewrite lookup_insert_ne in H by done. apply Hm in H as [H ?].
           split; [|done]. rewrite lookup_app_l; [done|]. by eapply lookup_lt_Some.
      * intros [HKv Hkv]. apply lookup_snoc_Some in HKv as [[Hl HKv]|[Hl Hv]].
        -- assert (m !! k = Some v) as Hv by (by apply Hm).
           rewrite lookup_insert_ne; [done|]. congruence.
        -- destruct v as [vi vn]; simpl in *. subst. apply lookup_insert_eq.
    + rewrite reverse_snoc, Hdrop, fmap_cons. cbn [lastOccurrences].
      rewrite bool_decide_eq_false_2; [by rewrite HK|].
      intros Hin. apply Hlk in Hin as [? ?]. congruence.
Qed.

Lemma uniqFill_spec index len order :
  forall acc,
  length acc = len ->
  (forall e, e ∈ order -> (newidx e.2 < len)%nat /\ is_Some (index !! idx e.2)) ->
  exists R, uniqFill index len order acc = Some R /\ length R = len /\
    (forall p, (forall e, e ∈ order -> fillPos len e <> p) -> R !! p = acc !! p) /\
    ((forall e1 e2, e1 ∈ order -> e2 ∈ order ->
        newidx e1.2 = newidx e2.2 -> idx e1.2 = idx e2.2) ->
     forall e, e ∈ order -> R !! fillPos len e = index !! idx e.2).
Proof.
  induction order as [|[k i] order IH]; intros acc Hlen Hok; simpl.
  { exists acc. repeat split; [done|]. by intros _ e ?%elem_of_nil. }
  destruct (Hok (k, i)) as [Hlt [x Hx]]; [left|]. simpl in *.
  rewrite decide_True by lia. rewrite Hx.
  set (pos := Z.to_nat (Z.of_nat len - Z.of_nat (newidx i) - 1)).
  assert (Hpos : pos = fillPos len (k, i)) by (unfold pos, fillPos; simpl; lia).
  destruct (IH (<[pos := x]> acc)) as (R & HR & HlenR & Hframe & Hhit).
  { by rewrite length_insert. }
  { intros e He. apply Hok. by right. }
  exists R. repeat split; [done..| |].
  - intros p Hp. rewrite Hframe.
    + apply list_lookup_insert_ne. rewrite Hpos. apply Hp. by left.
    + intros e He. apply Hp. by right.
  - intros Hcons e [->|He]%elem_of_cons.
    + destruct (decide (Exists (fun e' : Z * indices => newidx e'.2 = newidx i) order))
        as [(e' & He' & Hn)%Exists_exists|Hno].
      * assert (idx e'.2 = idx i) as Hidx.
        { apply (Hcons e' (k, i)); [by right|by left|done]. }
        cbn [snd]. rewrite <- Hidx.
        replace (fillPos len (k, i)) with (fillPos len e')
          by (unfold fillPos; simpl; lia).
        apply Hhit; [|done]. intros e1 e2 ? ?. apply Hcons; by right.
      * rewrite Hframe.
        -- rewrite <- Hpos. simpl. rewrite Hx.
           apply list_lookup_insert_eq. unfold pos. lia.
        -- intros e' He' Heq. apply Hno, Exists_exists. exists e'. split; [done|].
           assert (newidx e'.2 < len)%nat by (apply Hok; by right).
           unfold fillPos in Heq. simpl in Heq. lia.
    + apply Hhit; [|done]. intros e1 e2 ? ?. apply Hcons; by right.
Qed.

Lemma scanInv_init index : scanInv index (length index) ∅ 0%nat [].
Proof.
  unfold scanInv. split_and!; try done.
  - by intros q ?%elem_of_nil.
  - intros k v. rewrite lookup_empty. split; [done|]. by intros [? _].
  - by rewrite drop_all.
Qed.

(** Whatever order the runtime enumerates the map in, the second loop writes
    every slot exactly once and the result is the same. *)
Lemma uniqWith_any_order index (order : gmap Z indices -> list (Z * indices)) :
  (forall m, order m ≡ₚ map_to_list m) ->
  uniqWith false index order = Some (lastOccurrences index).
Proof.
  intros Hperm. unfold uniqWith.
  destruct (uniqScan_inv index (length index) (le_n _) _ _ _ (scanInv_init index))
    as (K & _ & Hsz & Hlt & Hm & HK).
  set (m := (uniqScan index (length index) ∅ 0%nat).1) in *.
  assert (Hin : forall e, e ∈ order m -> K !! newidx e.2 = Some (idx e.2) /\
                                  key (index !!! idx e.2) = e.1).
  { intros [k v] He. rewrite Hperm in He. apply elem_of_map_to_list in He.
    by apply Hm. }
  destruct (uniqFill_spec index (base.size m) (order m) (replicate (base.size m) zeroBatchIndex))
    as (R & -> & HlenR & _ & Hhit).
  { apply length_replicate. }
  { intros e [He _]%Hin. split.
    - rewrite Hsz. by eapply lookup_lt_Some.
    - apply lookup_lt_is_Some, Hlt. by eapply list_elem_of_lookup_2. }
  f_equal. rewrite drop_0 in HK. rewrite <- HK. apply list_eq. intros p.
  destruct (decide (p < length K)%nat) as [Hp|Hp].
  - rewrite list_lookup_fmap, reverse_lookup by done.
    destruct (lookup_lt_is_Some_2 K (length K - S p)) as [q Hq]; [lia|].
    rewrite Hq. simpl.
    assert (He : (key (index !!! q), Indices q (length K - S p)) ∈ order m).
    { rewrite Hperm. apply elem_of_map_to_list, Hm. by simpl. }
    specialize (Hhit ltac:(intros e1 e2 [H1 _]%Hin [H2 _]%Hin Heq; congruence) _ He).
    unfold fillPos in Hhit. simpl in Hhit.
    replace (base.size m - (length K - S p) - 1)%nat with p in Hhit by lia.
    rewrite Hhit. apply list_lookup_lookup_total_lt, Hlt.
    by eapply list_elem_of_lookup_2.
  - rewrite !lookup_ge_None_2; [done| |lia].
    rewrite length_fmap, length_reverse. lia.
Qed.

(** C1. In whatever order the runtime enumerates the Go map, [uniq] never
    panics. With [AllowDuplicates] unset, [pendingWrites] is exactly the list
    of last occurrences of the index: it holds one entry per dedup key (the
    keys are pairwise distinct and are the keys of the index), an entry is
    retained exactly where no later entry carries its key, and the retained
    entries keep the relative order they have in the index. With
    [AllowDuplicates] set, [pendingWrites] is the index itself, in insertion
    order. *)
Theorem uniq_keeps_last_occurrence_in_order
    (index : list batchIndex) (order : gmap Z indices -> list (Z * indices)) :
  (forall m, order m ≡ₚ map_to_list m) ->
  uniqWith true index order = Some index /\
  exists pendingWrites,
    uniqWith false index order = Some pendingWrites /\
    pendingWrites = lastOccurrences index /\
    NoDup (key <$> pendingWrites) /\
    (forall k, k ∈ key <$> pendingWrites <-> k ∈ key <$> index) /\
    (forall x, x ∈ pendingWrites <->
       exists before after, index = before ++ x :: after /\ key x ∉ key <$> after) /\
    pendingWrites `sublist_of` index.
Proof.
  intros Horder. split; [done|]. exists (lastOccurrences index). split_and!.
  - by apply uniqWith_any_order.
  - done.
  - apply lastOccurrences_NoDup.
  - apply lastOccurrences_keys.
  - apply lastOccurrences_elem.
  - apply lastOccurrences_sublist.
Qed.

Lemma uniq_keeps_last_occurrence_in_order_witness :
  (forall m : gmap Z indices, reverse (map_to_list m) ≡ₚ map_to_list m) /\
  uniqWith false
    [BatchIndex false 7 0; BatchIndex false 9 10; BatchIndex false 7 20]
    (fun m => reverse (map_to_list m))
  = Some (lastOccurrences
            [BatchIndex false 7 0; BatchIndex false 9 10; BatchIndex false 7 20]).
Proof.
  assert (H : forall m : gmap Z indices, reverse (map_to_list m) ≡ₚ map_to_list m)
    by (intros m; apply reverse_Permutation).
  split; [exact H|].
  destruct (uniq_keeps_last_occurrence_in_order
              [BatchIndex false 7 0; BatchIndex false 9 10; BatchIndex false 7 20]
              (fun m => reverse (map_to_list m)) H)
    as (_ & pw & Hpw & -> & _).
  exact Hpw.
Defined.


Example uniq_example :
  uniq false [BatchIndex false 7 0; BatchIndex false 9 10; BatchIndex false 7 20;
              BatchIndex true 3 30; BatchIndex false 9 40]
  = Some [BatchIndex false 7 20; BatchIndex true 3 30; BatchIndex false 9 40].
Proof. vm_compute. reflexivity. Qed.

End BatchUniq.

(** ** The header codec *)
Module HeaderCodec.
Import Binary Header.

Lemma lor_shiftl_add (a b n : Z) :
  0 <= n -> 0 <= a < 2 ^ n -> Z.lor a (Z.shiftl b n) = a + b * 2 ^ n.
Proof.
  intros Hn Ha. rewrite Z.shiftl_mul_pow2 by done.
  rewrite <- Z.lxor_lor, <- Z.add_nocarry_lxor; [done| |].
  all: apply Z.bits_inj'; intros i Hi; rewrite Z.land_spec, Z.bits_0.
  all: destruct (Z.lt_ge_cases i n).
  all: try (rewrite Z.mul_pow2_bits_low by lia; apply andb_false_r).
  all: destruct (decide (a = 0)) as [->|]; [by rewrite Z.bits_0|].
  all: rewrite (Z.bits_above_log2 a i); [done|lia|].
  all: apply Z.log2_lt_pow2; [lia|]; eapply Z.lt_le_trans; [apply Ha|].
  all: apply Z.pow_le_mono_r; lia.
Qed.

Lemma byte_range v : 0 <= byte v < 256.
Proof. unfold byte. apply Z.mod_pos_bound. lia. Qed.

Lemma Uint32_PutUint32 (v : Z) (rest : list Z) :
  0 <= v < 2 ^ 32 -> Uint32 (PutUint32 v ++ rest) = Some v.
Proof.
  intros Hv. unfold PutUint32. cbn [app Uint32]. f_equal.
  pose proof (byte_range v). pose proof (byte_range (Z.shiftr v 8)).
  pose proof (byte_range (Z.shiftr v 16)). pose proof (byte_range (Z.shiftr v 24)).
  rewrite (lor_shiftl_add _ _ 8) by lia.
  rewrite (lor_shiftl_add _ _ 16) by lia.
  rewrite (lor_shiftl_add _ _ 24) by lia.
  unfold byte. rewrite !Z.shiftr_div_pow2 by lia.
  change (2 ^ 8) with 256. change (2 ^ 16) with 65536.
  change (2 ^ 24) with 16777216. change (2 ^ 32) with 4294967296 in Hv.
  Z.to_euclidean_division_equations. lia.
Qed.

Lemma Uint64_PutUint64 (v : Z) (rest : list Z) :
  0 <= v < 2 ^ 64 -> Uint64 (PutUint64 v ++ rest) = Some v.
Proof.
  intros Hv. unfold PutUint64. cbn [app Uint64]. f_equal.
  pose proof (byte_range v). pose proof (byte_range (Z.shiftr v 8)).
  pose proof (byte_range (Z.shiftr v 16)). pose proof (byte_range (Z.shiftr v 24)).
  pose proof (byte_range (Z.shiftr v 32)). pose proof (byte_range (Z.shiftr v 40)).
  pose proof (byte_range (Z.shiftr v 48)). pose proof (byte_range (Z.shiftr v 56)).
  rewrite (lor_shiftl_add _ _ 8) by lia.
  rewrite (lor_shiftl_add _ _ 16) by lia.
  rewrite (lor_shiftl_add _ _ 24) by lia.
  rewrite (lor_shiftl_add _ _ 32) by lia.
  rewrite (lor_shiftl_add _ _ 40) by lia.
  rewrite (lor_shiftl_add _ _ 48) by lia.
  rewrite (lor_shiftl_add _ _ 56) by lia.
  unfold byte. rewrite !Z.shiftr_div_pow2 by lia.
  change (2 ^ 8) with 256. change (2 ^ 16) with 65536.
  change (2 ^ 24) with 16777216. change (2 ^ 32) with 4294967296.
  change (2 ^ 40) with 1099511627776. change (2 ^ 48) with 281474976710656.
  change (2 ^ 56) with 72057594037927936.
  change (2 ^ 64) with 18446744073709551616 in Hv.
  Z.to_euclidean_division_equations. lia.
Qed.

Lemma int64_uint64_roundtrip (x : Z) :
  - 2 ^ 63 <= x < 2 ^ 63 -> int64_of_uint64 (uint64_of_int64 x) = x.
Proof.
  intros Hx. unfold int64_of_uint64, uint64_of_int64.
  change (2 ^ 63) with 9223372036854775808 in *.
  change (2 ^ 64) with 18446744073709551616 in *.
  case_match; [apply Z.ltb_lt in H|apply Z.ltb_ge in H];
    Z.to_euclidean_division_equations; lia.
Qed.

Lemma uint64_of_int64_range (x : Z) : 0 <= uint64_of_int64 x < 2 ^ 64.
Proof. unfold uint64_of_int64. apply Z.mod_pos_bound. lia. Qed.


Lemma MarshalBinary_layout (h : header) :
  length (signature h) = 7%nat -> MarshalBinary h = Some (layout h).
Proof.
  destruct h as [sig v [l c n sp f hs]]. cbn [signature]. intros Hlen.
  do 7 (destruct sig as [|? sig]; [done|]). destruct sig; [|done].
  cbv -[byte Z.shiftr uint64_of_int64]. reflexivity.
Qed.

Lemma length_layout (h : header) :
  length (signature h) = 7%nat -> length (layout h) = 512%nat.
Proof.
  intros Hlen. unfold layout. rewrite !length_app, Hlen. reflexivity.
Qed.

Lemma UnmarshalBinary_layout (h0 h : header) :
  length (signature h0) = 7%nat -> validHeader h ->
  UnmarshalBinary h0 (layout h) = Some h.
Proof.
  intros Hlen0 (Hlen & Hsig & Hv & Hl & Hc & Hn & Hsp & Hf & Hhs).
  destruct h as [sig v [l c n sp f hs]]. destruct h0 as [sig0 v0 i0].
  cbn [signature version info level count nBlocks splitBlockIdx freelistOff hashSeed] in *.
  do 7 (destruct sig as [|? sig]; [done|]). destruct sig; [|done].
  do 7 (destruct sig0 as [|? sig0]; [done|]). destruct sig0; [|done].
  cbv -[byte Z.shiftr uint64_of_int64 int64_of_uint64 Uint32 Uint64].
  pose proof (Uint32_PutUint32 v [] Hv) as Ev.
  pose proof (Uint32_PutUint32 c [] Hc) as Ec.
  pose proof (Uint32_PutUint32 n [] Hn) as En.
  pose proof (Uint32_PutUint32 sp [] Hsp) as Esp.
  pose proof (Uint32_PutUint32 hs [] Hhs) as Ehs.
  pose proof (Uint64_PutUint64 _ [] (uint64_of_int64_range f)) as Ef.
  unfold PutUint32, PutUint64 in *. cbn [app] in *.
  rewrite Ev, Ec, En, Esp, Ef, Ehs.
  by rewrite int64_uint64_roundtrip.
Qed.

(** C8. For every header value, marshalling yields the 512-byte buffer of the
    stated layout, unmarshalling that buffer gives the header back, and
    marshalling again yields byte for byte the same buffer:
    marshal(h) = marshal(unmarshal(marshal(h))). *)
Theorem header_marshal_roundtrip (h : header) :
  validHeader h ->
  exists buf h',
    MarshalBinary h = Some buf /\ length buf = 512%nat /\
    UnmarshalBinary zeroHeader buf = Some h' /\ h' = h /\
    MarshalBinary h' = Some buf.
Proof.
  intros Hh. pose proof Hh as (Hlen & _).
  exists (layout h), h. split_and!.
  - by apply MarshalBinary_layout.
  - by apply length_layout.
  - by apply UnmarshalBinary_layout.
  - done.
  - by apply MarshalBinary_layout.
Qed.

Lemma header_marshal_roundtrip_witness :
  validHeader sampleHeader /\
  exists buf h',
    MarshalBinary sampleHeader = Some buf /\ length buf = 512%nat /\
    UnmarshalBinary zeroHeader buf = Some h' /\ h' = sampleHeader /\
    MarshalBinary h' = Some buf.
Proof.
  assert (Hv : validHeader sampleHeader).
  { unfold validHeader, sampleHeader, signatureBytes. simpl.
    split_and!; try lia; try reflexivity. repeat constructor; lia. }
  split; [exact Hv | exact (header_marshal_roundtrip sampleHeader Hv)].
Defined.

End HeaderCodec.

(** ** [Write], [Commit] and [Abort] *)
Module BatchPipeline.
Import Batch.

(** A tombstone whose seq the presence filter does not know ends the loop with
    a nil error, whatever follows it in [pendingWrites]. *)
Lemma writeLoop_stops_at_unknown_tombstone env fn buf index rest i db dataLen
    entryData data e :
  sliceZ buf (offset index) (offset index + 4) ≫= Binary.Uint32 = Some dataLen ->
  sliceZ buf (offset index + 4) (offset index + entrySize env + 4) = Some entryData ->
  sliceZ buf (offset index + 4) (offset index + dataLen) = Some data ->
  unmarshalEntry env entryData = inr e ->
  delFlag index = true -> seq e <> 0 -> seq e ∉ filter db ->
  writeLoop env fn buf (index :: rest) i db = (Return None, db).
Proof.
  intros Hlen Hentry Hdata He Hdel Hseq Hfilter. cbn [writeLoop].
  rewrite Hlen, Hentry, Hdata, He, Hdel.
  apply Z.eqb_neq in Hseq. rewrite Hseq. cbn [negb andb].
  by rewrite bool_decide_eq_false_2.
Qed.

(** C2. On the batch [deleteThenPut] with an empty presence filter, [Write]
    computes two pending writes, returns nil, and leaves the memtable, the
    trie and the time window untouched: the put of seq 6 is skipped because
    the tombstone before it was not in the filter. With seq 5 in the filter
    the same batch deletes seq 5 and stores seq 6. *)
Theorem Write_skips_entries_after_unknown_tombstone :
  let '(r, b, db) := Write (sampleEnv None) deleteThenPut (emptyDB ∅) in
  r = Return None /\
  pendingWrites b = [BatchIndex true 100 0; BatchIndex false 200 7] /\
  mem db = ∅ /\ trieAdds db = [] /\ timeWindow db = [] /\ deletes db = [] /\
  let '(r', _, db') := Write (sampleEnv None) deleteThenPut (emptyDB {[ 5 ]}) in
  r' = Return None /\
  deletes db' = [(9, 5)] /\
  mem db' = {[ (0, 6) := [6; 9; 0; 42] ]} /\
  trieAdds db' = [(9, [MkPart 1 0], 1)] /\
  timeWindow db' = [(9, WinEntry 6 0)].
Proof. vm_compute. repeat split. Qed.

(** A batch that [Abort], or [Commit] of an empty batch, has detached from
    its DB: [Commit] of [deleteThenPut], which has no pending writes, returns
    nil and detaches it; the same call on the batch it leaves panics in
    [Abort], at [b.db.bufPool.Put]. *)
Lemma Commit_of_aborted_batch_panics :
  let '(r, b, db) := Commit (sampleEnv None) deleteThenPut (emptyDB ∅) in
  r = Return None /\ managed b = false /\ pendingWrites b = [] /\
  attached b = false /\
  (Commit (sampleEnv None) b db).1.1 = Panic "nil pointer dereference".
Proof. vm_compute. repeat split. Qed.

(** C9, as the code has it. A non-managed batch that is still attached to its DB, with
    no pending writes or an empty buffer: [Commit] returns nil, nothing
    reaches the WAL and nothing is logged, the entry count and size are
    zero, index and pending writes are empty, the batch is detached from the
    DB, and the buffer went through the pool's [Put] (reset, and kept by the
    pool when it has room). *)
Theorem Commit_of_empty_batch_aborts (env : Env) (b : Batch) (db : DB) :
  managed b = false ->
  attached b = true ->
  pendingWrites b = [] \/ Size (buffer b) = 0 ->
  exists b' db',
    Commit env b db = (Return None, b', db') /\
    walCommits db' = walCommits db /\ logged db' = logged db /\
    entryCount b' = 0 /\ size b' = 0 /\ index b' = [] /\ pendingWrites b' = [] /\
    attached b' = false /\ commitComplete b' = commitComplete b /\
    (bufPool db', buffer b') = BufferPool_Put (bufPool db) (buffer b) /\
    buffer b' = [] /\
    ((length (bufPool db) < maxPoolSize)%nat -> bufPool db' = bufPool db ++ [[]]).
Proof.
  intros Hm Ha Hempty. unfold Commit, Abort. rewrite Hm.
  assert ((length (pendingWrites b) =? 0)%nat || (Size (buffer b) =? 0) = true) as ->.
  { destruct Hempty as [-> | ->]; [done|]. apply orb_true_r. }
  unfold BufferPool_Put. cbn [Reset buffer managed attached]. rewrite Ha. cbn [negb].
  case_decide; eexists _, _; (split; [reflexivity|]); cbn; split_and!; done.
Qed.

Lemma Commit_of_empty_batch_aborts_witness :
  managed deleteThenPut = false /\ attached deleteThenPut = true /\
  (pendingWrites deleteThenPut = [] \/ Size (buffer deleteThenPut) = 0) /\
  exists b' db',
    Commit (sampleEnv None) deleteThenPut (emptyDB ∅) = (Return None, b', db') /\
    walCommits db' = walCommits (emptyDB ∅) /\ logged db' = logged (emptyDB ∅) /\
    entryCount b' = 0 /\ size b' = 0 /\ index b' = [] /\ pendingWrites b' = [] /\
    attached b' = false /\ commitComplete b' = commitComplete deleteThenPut /\
    (bufPool db', buffer b')
      = BufferPool_Put (bufPool (emptyDB ∅)) (buffer deleteThenPut) /\
    buffer b' = [] /\
    ((length (bufPool (emptyDB ∅)) < maxPoolSize)%nat ->
     bufPool db' = bufPool (emptyDB ∅) ++ [[]]).
Proof.
  split; [reflexivity|]. split; [reflexivity|]. split; [left; reflexivity|].
  apply (Commit_of_empty_batch_aborts (sampleEnv None) deleteThenPut (emptyDB ∅)).
  - reflexivity.
  - reflexivity.
  - left. reflexivity.
Defined.


(** C3. A failing WAL commit: [db.commit] reports an I/O error for the
    non-managed batch [writtenBatch] with two pending writes and fifteen
    buffered bytes, and [Commit] returns nil all the same. The caller sees no
    error, the failure is only logged, and [commitComplete] is closed, the
    signal that the batch is fully written to the write ahead log. *)
Theorem Commit_returns_nil_on_failed_wal_commit :
  managed writtenBatch = false /\
  (1 <= length (pendingWrites writtenBatch))%nat /\
  Size (buffer writtenBatch) <> 0 /\
  commitComplete writtenBatch = ChanOpen /\
  commitErr (sampleEnv (Some (errIO "wal full"))) (Len writtenBatch)
            (buffer writtenBatch) = Some (errIO "wal full") /\
  let '(r, b', db') :=
    Commit (sampleEnv (Some (errIO "wal full"))) writtenBatch (emptyDB ∅) in
  r = Return None /\ commitComplete b' = ChanClosed /\
  logged db' = ["Error committing batch"%string].
Proof. vm_compute. repeat split; [lia|discriminate]. Qed.

(** The general form: for a non-managed batch with at least one pending write
    and a non-empty buffer, [Commit] hands the buffer to [db.commit] once;
    with [commitComplete] open it returns nil and closes the channel whether
    [db.commit] succeeded or not, and a failure of [db.commit] is only
    logged. *)
Lemma Commit_logs_wal_error_and_returns_nil (env : Env) (b : Batch) (db : DB) :
  managed b = false ->
  (1 <= length (pendingWrites b))%nat ->
  Size (buffer b) <> 0 ->
  let '(r, b', db') := Commit env b db in
  (forall e, r <> Return (Some e)) /\
  walCommits db' = walCommits db ++ [(Len b, buffer b)] /\
  (forall e, commitErr env (Len b) (buffer b) = Some e ->
     logged db' = logged db ++ ["Error committing batch"%string]) /\
  (commitErr env (Len b) (buffer b) = None -> logged db' = logged db) /\
  (commitComplete b = ChanOpen ->
     r = Return None /\ commitComplete b' = ChanClosed /\
     pendingWrites b' = pendingWrites b /\ buffer b' = buffer b).
Proof.
  intros Hm Hpw Hbuf. unfold Commit. rewrite Hm.
  assert ((length (pendingWrites b) =? 0)%nat || (Size (buffer b) =? 0) = false) as ->.
  { apply orb_false_intro; [apply Nat.eqb_neq; lia | by apply Z.eqb_neq]. }
  destruct (commitErr env (Len b) (buffer b)) eqn:He;
    destruct (commitComplete b) eqn:Hc; cbn; rewrite ?He; split_and!; done.
Qed.

Lemma Commit_logs_wal_error_and_returns_nil_witness :
  managed writtenBatch = false /\
  (1 <= length (pendingWrites writtenBatch))%nat /\
  Size (buffer writtenBatch) <> 0 /\
  let '(r, b', db') :=
    Commit (sampleEnv (Some (errIO "wal full"))) writtenBatch (emptyDB ∅) in
  (forall e, r <> Return (Some e)) /\
  walCommits db' = walCommits (emptyDB ∅) ++ [(Len writtenBatch, buffer writtenBatch)] /\
  (forall e, commitErr (sampleEnv (Some (errIO "wal full"))) (Len writtenBatch)
                       (buffer writtenBatch) = Some e ->
     logged db' = logged (emptyDB ∅) ++ ["Error committing batch"%string]) /\
  (commitErr (sampleEnv (Some (errIO "wal full"))) (Len writtenBatch)
             (buffer writtenBatch) = None -> logged db' = logged (emptyDB ∅)) /\
  (commitComplete writtenBatch = ChanOpen ->
     r = Return None /\ commitComplete b' = ChanClosed /\
     pendingWrites b' = pendingWrites writtenBatch /\ buffer b' = buffer writtenBatch).
Proof.
  assert (H1 : managed writtenBatch = false) by reflexivity.
  assert (H2 : (1 <= length (pendingWrites writtenBatch))%nat) by (simpl; lia).
  assert (H3 : Size (buffer writtenBatch) <> 0) by (vm_compute; discriminate).
  split; [exact H1|]. split; [exact H2|]. split; [exact H3|].
  exact (Commit_logs_wal_error_and_returns_nil
           (sampleEnv (Some (errIO "wal full"))) writtenBatch (emptyDB ∅) H1 H2 H3).
Defined.

End BatchPipeline.

(** ** The topic trie *)
Module TrieOrphans.
Import Trie.

Lemma isEmpty_false (p : part) :
  isEmpty p = false <-> ss p <> [] \/ children p <> ∅.
Proof.
  unfold isEmpty. rewrite andb_false_iff, !bool_decide_eq_false.
  rewrite length_zero_iff_nil, map_size_empty_iff. tauto.
Qed.

Lemma isEmpty_true (p : part) :
  isEmpty p = true <-> ss p = [] /\ children p = ∅.
Proof.
  unfold isEmpty. rewrite andb_true_iff, !bool_decide_eq_true.
  by rewrite length_zero_iff_nil, map_size_empty_iff.
Qed.

Lemma good_children p kk c :
  good p -> children p !! kk = Some c -> k c = kk /\ isEmpty c = false /\ good c.
Proof. intros Hg. inversion Hg as [? H]. apply H. Qed.

Lemma addAt_good parts d seq :
  forall curr, good curr ->
  good (addAt parts d seq curr) /\ k (addAt parts d seq curr) = k curr /\
  isEmpty (addAt parts d seq curr) = false.
Proof.
  induction parts as [|p parts IH]; intros curr Hg; simpl.
  - split_and!; [|done|].
    + constructor. simpl. intros kk c. by apply good_children.
    + apply isEmpty_false. left. simpl. by destruct (ss curr).
  - set (child := match children curr !! keyOf p with
                  | Some c => c | None => MkNode (keyOf p) 0 [] ∅ end).
    assert (Hchild : good child /\ k child = keyOf p).
    { unfold child. destruct (children curr !! keyOf p) as [c|] eqn:Hc.
      - by destruct (good_children _ _ _ Hg Hc) as (? & _ & ?).
      - split; [|done]. constructor. simpl. intros kk c.
        by rewrite lookup_empty. }
    destruct Hchild as [Hgc Hkc].
    destruct (IH child Hgc) as (Hg' & Hk' & He').
    split_and!; [|done|].
    + constructor. simpl. intros kk c.
      destruct (decide (kk = keyOf p)) as [->|Hne].
      * rewrite lookup_insert_eq. intros [= <-]. by rewrite Hk'.
      * rewrite lookup_insert_ne by done. by apply good_children.
    + apply isEmpty_false. right. simpl. apply insert_non_empty.
Qed.

Lemma removeAt_good parts seq :
  forall curr curr' removed orphaned,
  good curr ->
  removeAt parts seq curr = Some (curr', removed, orphaned) ->
  good curr' /\ k curr' = k curr /\ orphaned = isEmpty curr'.
Proof.
  induction parts as [|p parts IH]; intros curr curr' removed orphaned Hg; simpl.
  - destruct (ssidRemove (ss curr) seq) as [ss' r]. intros [= <- <- <-].
    split_and!; [|done..]. constructor. simpl. intros kk c. by apply good_children.
  - destruct (children curr !! keyOf p) as [child|] eqn:Hc; [|done].
    destruct (good_children _ _ _ Hg Hc) as (Hkc & _ & Hgc).
    destruct (removeAt parts seq child) as [[[child' r] o]|] eqn:Hrm; [|done].
    destruct (IH _ _ _ _ Hgc Hrm) as (Hgc' & Hkc' & ->).
    destruct (isEmpty child') eqn:Hempty; intros [= <- <- <-].
    + split_and!; [|done..]. constructor. simpl. intros kk c Hl.
      apply lookup_delete_Some in Hl as [_ Hl]. by apply good_children with curr.
    + split_and!; [|done|].
      * constructor. simpl. intros kk c.
        destruct (decide (kk = keyOf p)) as [->|Hne].
        -- rewrite lookup_insert_eq. intros [= <-]. split_and!; [congruence|done..].
        -- rewrite lookup_insert_ne by done. by apply good_children.
      * symmetry. apply isEmpty_false. right. simpl. apply insert_non_empty.
Qed.

Lemma built_good (t : Trie) : built t -> good (root t).
Proof.
  induction 1 as [|t parts d seq _ IH|t parts seq _ IH].
  - constructor. simpl. intros kk c. by rewrite lookup_empty.
  - simpl. by apply addAt_good.
  - unfold Remove. destruct (removeAt parts seq (root t)) as [[[r' rm] o]|] eqn:Hrm.
    + simpl. by destruct (removeAt_good _ _ _ _ _ _ IH Hrm).
    + done.
Qed.

Lemma good_descend (path : list key) :
  forall from node,
  good from -> descend from path = Some node -> path <> [] -> isEmpty node = false.
Proof.
  induction path as [|kk path IH]; intros from node Hg Hd Hne; [done|].
  simpl in Hd. destruct (children from !! kk) as [c|] eqn:Hc; [|done].
  destruct (good_children _ _ _ Hg Hc) as (_ & He & Hgc).
  destruct path as [|kk' path].
  - simpl in Hd. by simplify_eq.
  - by apply (IH c node).
Qed.


Lemma good_descend_good (path : list key) :
  forall from node, good from -> descend from path = Some node -> good node.
Proof.
  induction path as [|kk path IH]; intros from node Hg Hd; simpl in Hd.
  - by simplify_eq.
  - destruct (children from !! kk) as [c|] eqn:Hc; [|done].
    destruct (good_children _ _ _ Hg Hc) as (_ & _ & Hgc). by apply (IH c).
Qed.

(** C7. For a trie built by any sequence of [Add] and [Remove]: after a
    further [Remove], every node reachable from the root other than the root
    has a non-empty seq set or a non-empty children map. At every step of the
    removal path, the child is gone from its parent's map exactly when its
    seq set and children are both empty and otherwise stays there in its new
    state; and [orphan] is called on the parent in turn exactly when the
    parent itself is left empty, so emptiness moves up the path. *)
Theorem Remove_detaches_exactly_the_empty_nodes
    (t : Trie) (parts : list Part) (seq : Z) :
  built t ->
  (forall path node,
     path <> [] -> descend (root (Remove t parts seq).1) path = Some node ->
     ss node <> [] \/ children node <> ∅) /\
  (forall path curr p rest child child' removed orphaned,
     descend (root t) path = Some curr ->
     children curr !! keyOf p = Some child ->
     removeAt rest seq child = Some (child', removed, orphaned) ->
     exists curr' orphaned',
       removeAt (p :: rest) seq curr = Some (curr', removed, orphaned') /\
       (orphaned = true <-> ss child' = [] /\ children child' = ∅) /\
       (children curr' !! keyOf p = None <-> ss child' = [] /\ children child' = ∅) /\
       (children curr' !! keyOf p = Some child' <->
          ss child' <> [] \/ children child' <> ∅) /\
       (orphaned' = true <-> ss curr' = [] /\ children curr' = ∅)).
Proof.
  intros Hb. split.
  - intros path node Hne Hd. apply isEmpty_false.
    apply (good_descend path _ _ (built_good _ (built_Remove t parts seq Hb)) Hd Hne).
  - intros path curr p rest child child' removed orphaned Hd Hc Hrm.
    pose proof (good_descend_good _ _ _ (built_good _ Hb) Hd) as Hg.
    destruct (good_children _ _ _ Hg Hc) as (Hkc & _ & Hgc).
    destruct (removeAt_good _ _ _ _ _ _ Hgc Hrm) as (_ & Hkc' & ->).
    cbn [removeAt]. rewrite Hc, Hrm.
    destruct (isEmpty child') eqn:He; eexists _, _; (split; [reflexivity|]); cbn.
    + apply isEmpty_true in He as He'. split_and!.
      * done.
      * split; [done|]. intros _. rewrite Hkc', Hkc. apply lookup_delete_eq.
      * rewrite Hkc', Hkc, lookup_delete_eq. split; [done|].
        intros [?|?]; tauto.
      * apply isEmpty_true.
    + apply isEmpty_false in He as He'. rewrite lookup_insert_eq. split_and!.
      * split; [done|]. intros [? ?]. destruct He'; done.
      * split; [done|]. intros [? ?]. destruct He'; done.
      * done.
      * split; [done|]. intros [_ Hch]. simpl in Hch.
        by apply insert_non_empty in Hch.
Qed.

Lemma Remove_detaches_exactly_the_empty_nodes_witness :
  built sampleTrie /\
  (forall path node,
     path <> [] ->
     descend (root (Remove sampleTrie [MkPart 1 0; MkPart 2 0] 7).1) path = Some node ->
     ss node <> [] \/ children node <> ∅).
Proof.
  assert (Hb : built sampleTrie) by (do 2 apply built_Add; apply built_new).
  split; [exact Hb|].
  exact (proj1 (Remove_detaches_exactly_the_empty_nodes
                  sampleTrie [MkPart 1 0; MkPart 2 0] 7 Hb)).
Defined.

(** Removing the only seq below a.b.c empties c, then b, then a: the root is
    left without children. With seq 8 stored at a, only b is detached. *)
Example Remove_propagates_to_the_root :
  children (root (Remove (Add NewTrie [MkPart 1 0; MkPart 2 0; MkPart 3 0] 3 7).1
                         [MkPart 1 0; MkPart 2 0; MkPart 3 0] 7).1) = ∅ /\
  (descend (root (Remove sampleTrie [MkPart 1 0; MkPart 2 0] 7).1) [Key 1 0])
    = Some (MkNode (Key 1 0) 1 [8] ∅).
Proof. vm_compute. split; reflexivity. Qed.

End TrieOrphans.

(** ** The directory: [blockIndex] and the counters of [split] *)
Module Directory.
Import Header Index.

Lemma mask32_ones (s : Z) :
  0 <= s -> wrap32 (shl32 1 s - 1) = Z.ones (Z.min s 32).
Proof.
  intros Hs. unfold shl32, wrap32. rewrite Z.shiftl_1_l, Z.ones_equiv.
  destruct (Z.lt_ge_cases s 32) as [Hlt|Hge].
  - rewrite Z.min_l by lia.
    assert (0 < 2 ^ s < 2 ^ 32).
    { split; [apply Z.pow_pos_nonneg; lia|apply Z.pow_lt_mono_r; lia]. }
    rewrite (Z.mod_small (2 ^ s)) by lia. rewrite Z.mod_small by lia. lia.
  - rewrite Z.min_r by lia.
    replace (2 ^ s) with (2 ^ (s - 32) * 2 ^ 32)
      by (rewrite <- Z.pow_add_r by lia; f_equal; lia).
    rewrite Z.mod_mul by lia. reflexivity.
Qed.

Lemma blockIndex_mod (i : dbInfo) (h : Z) :
  0 <= level i < 256 ->
  blockIndex i h =
    if h mod 2 ^ Z.min (level i) 32 <? splitBlockIdx i
    then h mod 2 ^ Z.min (wrap8 (level i + 1)) 32
    else h mod 2 ^ Z.min (level i) 32.
Proof.
  intros Hl. unfold blockIndex.
  assert (0 <= wrap8 (level i + 1)) by (unfold wrap8; apply Z.mod_pos_bound; lia).
  rewrite !mask32_ones, !Z.land_ones by lia. reflexivity.
Qed.

(** C5, as the code has it. For every uint32 hash [h] and every directory state whose
    uint8 level is below 255, [blockIndex] is the formula of the claim
    evaluated over the unbounded integers: [idx = h & ((1<<level)-1)],
    replaced by [h & ((1<<(level+1))-1)] exactly when [idx < splitBlockIdx].
    At level 255 the sum [level + 1] is 0 in uint8 and the replacement is 0:
    the index is 0 when [h < splitBlockIdx] and [h] otherwise. *)
Theorem blockIndex_is_masked_index (i : dbInfo) (h : Z) :
  0 <= h < 2 ^ 32 -> 0 <= level i < 256 ->
  blockIndex i h =
    if level i =? 255 then (if h <? splitBlockIdx i then 0 else h)
    else maskedIndex (level i) (splitBlockIdx i) h.
Proof.
  intros Hh Hl. rewrite blockIndex_mod by done.
  assert (Hbig : forall l, 0 <= l -> h mod 2 ^ Z.min l 32 = h mod 2 ^ l).
  { intros l Hl0. destruct (Z.lt_ge_cases l 32).
    - by rewrite Z.min_l by lia.
    - rewrite Z.min_r by lia. rewrite !Z.mod_small; [done| |done].
      split; [lia|]. eapply Z.lt_le_trans; [apply Hh|].
      apply Z.pow_le_mono_r; lia. }
  destruct (Z.eqb_spec (level i) 255) as [H255|Hn255].
  - rewrite H255. change (wrap8 (255 + 1)) with 0.
    change (Z.min 255 32) with 32. change (Z.min 0 32) with 0.
    rewrite (Z.mod_small h (2 ^ 32)) by done.
    change (2 ^ 0) with 1. by rewrite Z.mod_1_r.
  - unfold maskedIndex.
    rewrite !Z.shiftl_1_l, !Z.sub_1_r, <- !Z.ones_equiv, !Z.land_ones by lia.
    assert (wrap8 (level i + 1) = level i + 1) as ->.
    { unfold wrap8. apply Z.mod_small. change (2 ^ 8) with 256. lia. }
    rewrite !Hbig by lia. reflexivity.
Qed.

Lemma blockIndex_is_masked_index_witness :
  0 <= 1001 < 2 ^ 32 /\
  0 <= level (DbInfo 3 0 10 2 (-1) 0) < 256 /\
  blockIndex (DbInfo 3 0 10 2 (-1) 0) 1001 = 9 /\
  maskedIndex 3 2 1001 = 9 /\
  blockIndex (DbInfo 3 0 10 2 (-1) 0) 1001 = maskedIndex 3 2 1001.
Proof.
  assert (Hh : 0 <= 1001 < 2 ^ 32) by lia.
  assert (Hl : 0 <= level (DbInfo 3 0 10 2 (-1) 0) < 256) by (simpl; lia).
  split; [exact Hh|]. split; [exact Hl|]. split; [reflexivity|].
  split; [reflexivity|].
  exact (blockIndex_is_masked_index (DbInfo 3 0 10 2 (-1) 0) 1001 Hh Hl).
Defined.

(** At level 255, a level [readHeader] installs as it finds it, the uint8
    sum [level + 1] is 0 and the replacement mask is empty: hash 1 with
    split index 2 goes to block 0, where the formula over the integers
    says 1. *)
Example blockIndex_level_255 :
  blockIndex (DbInfo 255 0 0 2 (-1) 0) 1 = 0 /\ maskedIndex 255 2 1 = 1.
Proof. split; reflexivity. Qed.


Section Splits.
Variable blockSize : Z.
Hypothesis blockSize_pos : 0 < blockSize.

Lemma info_writeBlock b db : info (writeBlock b db) = info db.
Proof. unfold writeBlock. by destruct (file b). Qed.

Lemma fsize_writeBlock b db : fsize (index (writeBlock b db)) = fsize (index db).
Proof. unfold writeBlock. by destruct (file b). Qed.

Lemma info_writeWriter w db : info (writeWriter w db) = info db.
Proof.
  unfold writeWriter. rewrite info_writeBlock.
  induction (prevBlocks w) as [|b l IH]; [done|]. simpl. by rewrite info_writeBlock.
Qed.

Lemma fsize_writeWriter w db :
  fsize (index (writeWriter w db)) = fsize (index db).
Proof.
  unfold writeWriter. rewrite fsize_writeBlock.
  induction (prevBlocks w) as [|b l IH]; [done|]. simpl. by rewrite fsize_writeBlock.
Qed.

(** What a call of [split] that returns nil does to the counters and to the
    size of the index file. *)
Lemma split_ok_info freeOverflow io fuel db db' :
  split blockSize freeOverflow io fuel db = Some (None, db') ->
  info db' = bumpBlocks (advance (info db)) /\
  fsize (index db') = fsize (index db) + blockSize.
Proof.
  unfold split. destruct (extendErr io); [done|]. cbn [extend].
  destruct (forEachBlock _ _ _ _ _ _) as [[[err|] st]|]; [done| |done].
  destruct (writeNewErr io); [done|]. destruct (writeUpdatedErr io); [done|].
  intros [= <-]. cbn [info setInfo index].
  rewrite !info_writeWriter, !fsize_writeWriter.
  by destruct freeOverflow.
Qed.

Lemma dirInv_step (n : nat) (i : dbInfo) :
  dirInv n i -> Z.of_nat (S n) < 2 ^ 32 - 1 ->
  dirInv (S n) (bumpBlocks (advance i)).
Proof.
  intros (Hn & Hl & Hs & Heq) Hbound.
  assert (Hpow : 0 < 2 ^ level i <= 2 ^ 31).
  { split; [apply Z.pow_pos_nonneg; lia|apply Z.pow_le_mono_r; lia]. }
  change (2 ^ 31) with 2147483648 in Hpow. change (2 ^ 32) with 4294967296 in Hbound.
  unfold advance, bumpBlocks, shl32, wrap32. rewrite Z.shiftl_1_l.
  change (2 ^ 32) with 4294967296.
  rewrite (Z.mod_small (splitBlockIdx i + 1)) by lia.
  rewrite (Z.mod_small (2 ^ level i)) by lia.
  destruct (Z.eqb_spec (splitBlockIdx i + 1) (2 ^ level i)) as [Hwrap|Hno];
    unfold dirInv; cbn [level nBlocks splitBlockIdx].
  - assert (Hnext : 2 ^ (level i + 1) = 2 * 2 ^ level i)
      by (rewrite Z.pow_add_r by lia; lia).
    assert (level i + 1 <= 31).
    { destruct (Z.le_gt_cases (level i + 1) 31) as [|Hgt]; [done|].
      assert (2 ^ 32 <= 2 ^ (level i + 1)) by (apply Z.pow_le_mono_r; lia).
      change (2 ^ 32) with 4294967296 in *. lia. }
    unfold wrap8. change (2 ^ 8) with 256.
    rewrite (Z.mod_small (level i + 1)) by lia.
    rewrite Z.mod_small by lia. rewrite Hnext. split_and!; lia.
  - rewrite Z.mod_small by lia. split_and!; lia.
Qed.

Lemma splits_dirInv seed fl hdr (n : nat) (db : DB) :
  splits blockSize n (freshDB blockSize seed fl hdr) db ->
  Z.of_nat n < 2 ^ 32 - 1 ->
  dirInv n (info db) /\
  fsize (index db) = blockOffset blockSize (nBlocks (info db)).
Proof.
  remember (freshDB blockSize seed fl hdr) as db0 eqn:Hdb0.
  induction 1 as [db|n db db1 db2 fo io fuel Hsplits IH Hsplit]; intros Hbound.
  - subst db. split.
    + unfold dirInv. simpl. split_and!; lia.
    + unfold blockOffset. simpl. lia.
  - destruct (IH Hdb0) as [Hinv Hsize]; [lia|].
    destruct (split_ok_info _ _ _ _ _ Hsplit) as [-> Hfs].
    pose proof (dirInv_step _ _ Hinv Hbound) as Hinv'.
    split; [done|]. rewrite Hfs, Hsize.
    destruct Hinv as (Hn & _), Hinv' as (Hn' & _). rewrite Hn', Hn.
    unfold blockOffset. lia.
Qed.

Lemma blockIndex_below (i : dbInfo) (n : nat) (h : Z) :
  dirInv n i -> 0 <= blockIndex i h < nBlocks i.
Proof.
  intros (Hn & Hl & Hs & Heq). rewrite blockIndex_mod by lia.
  assert (wrap8 (level i + 1) = level i + 1) as ->.
  { unfold wrap8. apply Z.mod_small. change (2 ^ 8) with 256. lia. }
  rewrite Z.min_l by lia.
  assert (Hpow : 0 < 2 ^ level i) by (apply Z.pow_pos_nonneg; lia).
  pose proof (Z.mod_pos_bound h (2 ^ level i) Hpow) as Hlow.
  destruct (Z.ltb_spec (h mod 2 ^ level i) (splitBlockIdx i)) as [Hlt|Hge]; [|lia].
  destruct (Z.le_gt_cases (level i + 1) 32) as [Hle|Hgt]; [|lia].
  rewrite Z.min_l by lia.
  assert (Hnext : 2 ^ (level i + 1) = 2 ^ level i * 2)
    by (rewrite Z.pow_add_r by lia; lia).
  rewrite Hnext, Z.rem_mul_r by lia.
  pose proof (Z.mod_pos_bound (h / 2 ^ level i) 2 ltac:(lia)). nia.
Qed.

End Splits.


(** A split whose final block write fails has already moved the split index
    (here it wrapped and raised the level) but has not counted the new block:
    the state it leaves has [nBlocks = 1] against [(1<<level) + splitBlockIdx = 2],
    and hash 1 is sent to block 1. *)
Lemma failed_split_leaves_nBlocks_behind :
  exists db',
    split 4096 false ioWriteFails 1 (freshDB 4096 0 (-1) [])
      = Some (Some (errIO "write"), db') /\
    level (info db') = 1 /\ splitBlockIdx (info db') = 0 /\ nBlocks (info db') = 1 /\
    nBlocks (info db') <>
      Z.shiftl 1 (level (info db')) + splitBlockIdx (info db') /\
    blockIndex (info db') 1 = 1 /\
    ~ blockIndex (info db') 1 < nBlocks (info db').
Proof.
  eexists. split; [vm_compute; reflexivity|]. vm_compute.
  split_and!; try reflexivity; discriminate.
Qed.

(** C10, as the code has it. In every DB state reached from a freshly created
    DB by fewer than 2^32 - 1 calls of [split] that each returned nil,
    [nBlocks = (1<<level) + splitBlockIdx] holds, [nBlocks] counts the splits,
    and for every hash [blockIndex] is below [nBlocks] and the probe starts at
    a block inside the index file. *)
Theorem successful_splits_keep_blockIndex_below_nBlocks
    (blockSize seed fl : Z) (hdr : list Z) (n : nat) (db : DB) :
  0 < blockSize ->
  splits blockSize n (freshDB blockSize seed fl hdr) db ->
  Z.of_nat n < 2 ^ 32 - 1 ->
  nBlocks (info db) = Z.shiftl 1 (level (info db)) + splitBlockIdx (info db) /\
  nBlocks (info db) = Z.of_nat n + 1 /\
  forall h,
    0 <= blockIndex (info db) h < nBlocks (info db) /\
    is_Some (readIndexBlock blockSize (index db)
               (blockOffset blockSize (blockIndex (info db) h))).
Proof.
  intros Hbs Hsplits Hbound.
  destruct (splits_dirInv blockSize seed fl hdr n db Hsplits Hbound) as [Hinv Hsize].
  pose proof Hinv as (Hn & Hl & Hs & Heq).
  split_and!; [by rewrite Z.shiftl_1_l|done|].
  intros h. pose proof (blockIndex_below _ _ h Hinv) as Hidx. split; [done|].
  unfold readIndexBlock. rewrite decide_True; [by eexists|].
  rewrite Hsize. unfold blockOffset. split; nia.
Qed.

Lemma successful_splits_keep_blockIndex_below_nBlocks_witness :
  0 < 4096 /\
  splits 4096 1 (freshDB 4096 0 (-1) []) splitOnce /\
  Z.of_nat 1 < 2 ^ 32 - 1 /\
  nBlocks (info splitOnce)
    = Z.shiftl 1 (level (info splitOnce)) + splitBlockIdx (info splitOnce) /\
  nBlocks (info splitOnce) = Z.of_nat 1 + 1 /\
  forall h,
    0 <= blockIndex (info splitOnce) h < nBlocks (info splitOnce) /\
    is_Some (readIndexBlock 4096 (index splitOnce)
               (blockOffset 4096 (blockIndex (info splitOnce) h))).
Proof.
  assert (H1 : 0 < 4096) by lia.
  assert (H2 : splits 4096 1 (freshDB 4096 0 (-1) []) splitOnce).
  { apply (splits_S 4096 0 _ (freshDB 4096 0 (-1) []) splitOnce false (ioOk []) 1).
    - apply splits_O.
    - vm_compute. reflexivity. }
  assert (H3 : Z.of_nat 1 < 2 ^ 32 - 1) by (vm_compute; reflexivity).
  split; [exact H1|]. split; [exact H2|]. split; [exact H3|].
  exact (successful_splits_keep_blockIndex_below_nBlocks
           4096 0 (-1) [] 1 splitOnce H1 H2 H3).
Defined.

End Directory.

(** ** The signature check of [readHeader] *)
Module Signature.
Import Header Index OpenDB.

(** The second variant never accepts a stored header whose signature differs
    from the expected one: it returns [errCorrupted], and so does [Open]. *)
Lemma readHeader_tracedb_rejects (h : header) (db : DB)
    (readFreeList : bool) (freelistErr : option error) :
  validHeader h -> signature h <> signatureBytes ->
  MarshalBinary h = Some (fheader (index db)) ->
  readHeader_tracedb readFreeList freelistErr db = (Return (Some errCorrupted), db).
Proof.
  intros Hv Hsig Hm. unfold readHeader_tracedb, readUnmarshalableAt.
  pose proof Hv as (Hlen7 & _).
  rewrite (HeaderCodec.MarshalBinary_layout h Hlen7) in Hm. injection Hm as Hm.
  pose proof (HeaderCodec.length_layout h Hlen7) as Hlen. rewrite Hm in Hlen.
  assert (headerSize = 512%nat) as Hhs by reflexivity.
  rewrite decide_False by (rewrite Hlen, Hhs; lia).
  rewrite Hhs, <- Hlen, firstn_all, <- Hm.
  rewrite (HeaderCodec.UnmarshalBinary_layout zeroHeader h eq_refl Hv).
  by rewrite bool_decide_eq_false_2.
Qed.

(** The first variant installs the [dbInfo] of any stored header, whatever
    its signature. *)
Lemma readHeader_unitdb_ignores_signature (h : header) (db : DB) :
  validHeader h ->
  MarshalBinary h = Some (fheader (index db)) ->
  readHeader_unitdb false None db
    = (Return None, setInfo db (setFreelistOff (Header.info h) (-1))).
Proof.
  intros Hv Hm. unfold readHeader_unitdb, readUnmarshalableAt.
  pose proof Hv as (Hlen7 & _).
  rewrite (HeaderCodec.MarshalBinary_layout h Hlen7) in Hm. injection Hm as Hm.
  pose proof (HeaderCodec.length_layout h Hlen7) as Hlen. rewrite Hm in Hlen.
  assert (headerSize = 512%nat) as Hhs by reflexivity.
  rewrite decide_False by (rewrite Hlen, Hhs; lia).
  rewrite Hhs, <- Hlen, firstn_all, <- Hm.
  by rewrite (HeaderCodec.UnmarshalBinary_layout zeroHeader h eq_refl Hv).
Qed.

(** C4. An index file whose header carries the signature "XXXXXXX": the first
    variant of [readHeader] returns nil and installs the stored [dbInfo], and
    [Open] goes on with it; the second variant returns [errCorrupted] on the
    same file. *)
Theorem readHeader_unitdb_accepts_foreign_signature :
  signature foreignHeader <> signatureBytes /\
  MarshalBinary foreignHeader = Some (fheader foreignIndex) /\
  (forall db,
     Open 4096 readHeader_unitdb false None 0 0 foreignIndex 512 ∅ = (Return None, Some db) ->
     info db = DbInfo 2 40 5 1 (-1) 7) /\
  (exists db,
     Open 4096 readHeader_unitdb false None 0 0 foreignIndex 512 ∅ = (Return None, Some db)) /\
  Open 4096 readHeader_tracedb false None 0 0 foreignIndex 512 ∅
    = (Return (Some errCorrupted), None).
Proof.
  split; [discriminate|]. split; [reflexivity|].
  assert (Hopen : Open 4096 readHeader_unitdb false None 0 0 foreignIndex 512 ∅
                  = (Return None,
                     Some {| info := DbInfo 2 40 5 1 (-1) 7; index := foreignIndex;
                             data := ∅; freed := [] |})).
  { vm_compute. reflexivity. }
  split_and!.
  - intros db. rewrite Hopen. by intros [= <-].
  - eexists. exact Hopen.
  - vm_compute. reflexivity.
Qed.

End Signature.

(** ** [split] keeps every entry reachable *)
Module SplitReachability.
Import Header Index.

Lemma liveEntries_live (l : list entry) : Forall live l -> liveEntries l = l.
Proof.
  induction 1 as [|e l He _ IH]; simpl; [done|].
  apply Z.eqb_neq in He. by rewrite He, IH.
Qed.

Lemma liveEntries_app_zero (l : list entry) n :
  Forall live l -> liveEntries (l ++ replicate n zeroEntry) = l.
Proof.
  induction 1 as [|e l He _ IH]; simpl.
  - by destruct n.
  - apply Z.eqb_neq in He. by rewrite He, IH.
Qed.

Lemma handlesEntries_app hs1 hs2 :
  handlesEntries (hs1 ++ hs2) = handlesEntries hs1 ++ handlesEntries hs2.
Proof. unfold handlesEntries. by rewrite fmap_app, concat_app. Qed.

Lemma linked_snoc_extend l h (h' : blockHandle) :
  linked (l ++ [h]) -> offset h' <> 0 -> file h' = DataTable ->
  next (blk h') = 0 ->
  linked (l ++ [MkHandle (file h) (offset h) (MkBlock (entries (blk h)) (offset h')); h']).
Proof.
  intros Hl Hne Hf Hn. induction l as [|x l IH]; simpl in *.
  - apply linked_cons; [done|done|done|by apply linked_last].
  - inversion Hl as [|? y ? Hnx Hoff Hfile Hrest Heq]; subst.
    { by destruct l. }
    destruct l as [|z l]; simpl in *; simplify_eq.
    + apply linked_cons; [done|done|done|by apply IH].
    + apply linked_cons; [done|done|done|by apply IH].
Qed.

Lemma newWriter_ok t off : writerOk (newWriter t off) t off.
Proof.
  unfold writerOk, newWriter, wHandles. simpl. split_and!.
  - lia.
  - exists []. by split_and!.
  - constructor.
  - by apply linked_last.
  - by eexists _, _.
Qed.

Lemma linked_snoc_replace l h (h' : blockHandle) :
  linked (l ++ [h]) -> file h' = file h -> offset h' = offset h ->
  next (blk h') = next (blk h) -> linked (l ++ [h']).
Proof.
  intros Hl Hf Ho Hn. induction l as [|x l IH]; simpl in *.
  - inversion Hl; subst. apply linked_last. congruence.
  - inversion Hl as [|? y ? Hnx Hoff Hfile Hrest Heq]; subst.
    { by destruct l. }
    destruct l as [|z l]; simpl in *; simplify_eq.
    + apply linked_cons; [congruence|congruence|congruence|by apply IH].
    + apply linked_cons; [done|done|done|by apply IH].
Qed.

Lemma wHandles_head_snoc (prev : list blockHandle) (h h' x : blockHandle) t off :
  (exists h0 rest, prev ++ [h] = h0 :: rest /\ file h0 = t /\ offset h0 = off) ->
  file h' = file h -> offset h' = offset h ->
  exists h0 rest, (prev ++ [h']) ++ [x] = h0 :: rest /\ file h0 = t /\ offset h0 = off.
Proof.
  intros (h0 & rest & Heq & Hf & Ho) Hf' Ho'. destruct prev as [|p prev]; simpl in *.
  - simplify_eq. eexists _, _. split; [done|]. split; congruence.
  - simplify_eq. by eexists _, _.
Qed.

Lemma insert_ok e w a t off w' a' :
  writerOk w t off -> live e -> (forall x, x ∈ a -> x <> 0) ->
  insert e w a = (None, w', a') ->
  writerOk w' t off /\
  handlesEntries (wHandles w') = handlesEntries (wHandles w) ++ [e] /\
  dataOffs w' ++ a' = dataOffs w ++ a.
Proof.
  intros (Hidx & (cur & Hlen & Hlive & Hent) & Hprev & Hlinked & Hhead) He Ha.
  unfold insert. destruct (Nat.eqb_spec (entryIdx w) entriesPerBlock) as [Hfull|Hroom].
  - destruct a as [|x a]; [done|]. simpl. intros [= <- <-].
    rewrite Hfull, Nat.sub_diag, app_nil_r in Hent.
    assert (Hx : x <> 0) by (apply Ha; left).
    unfold writerOk, dataOffs, wHandles in *. cbn [entryIdx prevBlocks wblock] in *.
    split_and!.
    + unfold entriesPerBlock. lia.
    + exists [e]. split_and!. { done. } { by repeat constructor. } reflexivity.
    + apply Forall_app. split; [done|]. constructor; [|constructor]. simpl. by rewrite Hent.
    + rewrite <- app_assoc. simpl. by apply (linked_snoc_extend _ _ (MkHandle DataTable x _)).
    + destruct Hhead as (h0 & rest & Heq & Hf & Ho).
      destruct (prevBlocks w) as [|p prev]; simpl in *; simplify_eq; by eexists _, _.
    + rewrite !handlesEntries_app. unfold handlesEntries at 2 3 5. simpl.
      rewrite !app_nil_r, Hent, liveEntries_live by done.
      apply Z.eqb_neq in He. by rewrite He.
    + destruct (prevBlocks w) as [|p prev]; simpl; [done|].
      rewrite !drop_0, !fmap_app, <- !app_assoc. done.
  - intros [= <- <-].
    assert (Hlt : (entryIdx w < entriesPerBlock)%nat) by lia.
    assert (Hent' : <[entryIdx w := e]> (entries (blk (wblock w)))
              = (cur ++ [e]) ++ replicate (entriesPerBlock - S (entryIdx w)) zeroEntry).
    { rewrite Hent. replace (entriesPerBlock - entryIdx w)%nat
        with (S (entriesPerBlock - S (entryIdx w))) by lia.
      simpl. rewrite <- Hlen, insert_app_r_alt, Nat.sub_diag by lia. simpl.
      by rewrite <- app_assoc. }
    unfold writerOk, dataOffs, wHandles in *. cbn [entryIdx prevBlocks wblock blk entries] in *.
    split_and!.
    + lia.
    + exists (cur ++ [e]). split_and!; [rewrite length_app; simpl; lia| |done].
      apply Forall_app. split; [done|]. by repeat constructor.
    + done.
    + by apply (linked_snoc_replace _ (wblock w)).
    + destruct Hhead as (h0 & rest & Heq & Hf & Ho).
      destruct (prevBlocks w) as [|p prev]; simpl in *; simplify_eq; by eexists _, _.
    + rewrite !handlesEntries_app. unfold handlesEntries at 2 4. simpl.
      rewrite !app_nil_r, Hent', Hent, !liveEntries_app_zero; [by rewrite app_assoc|done|].
      apply Forall_app. split; [done|]. by repeat constructor.
    + f_equal. destruct (prevBlocks w) as [|p prev]; simpl; [done|].
      by rewrite !drop_0, !fmap_app.
Qed.

Section Route.
Variables (i' : dbInfo) (u uoff noff : Z) (allocs0 : list Z).
Hypothesis allocs_nonzero : forall x, x ∈ allocs0 -> x <> 0.

Lemma routeInv_pending s seen x :
  routeInv i' u uoff noff allocs0 s seen -> x ∈ pendingAllocs s -> x <> 0.
Proof.
  intros (_ & _ & Hperm & _) Hx. apply allocs_nonzero. rewrite <- Hperm.
  rewrite !elem_of_app. auto.
Qed.

Lemma routeEntries_inv slots :
  forall s seen s',
  routeInv i' u uoff noff allocs0 s seen ->
  routeEntries i' u slots s = (None, s') ->
  routeInv i' u uoff noff allocs0 s' (seen ++ liveEntries slots).
Proof.
  induction slots as [|e slots IH]; intros s seen s' Hinv; simpl.
  { intros [= <-]. by rewrite app_nil_r. }
  destruct (Z.eqb_spec (kvOffset e) 0) as [Hz|Hlive].
  { intros [= <-]. by rewrite app_nil_r. }
  pose proof Hinv as (Hup & Hnew & Hperm & Hseen).
  rewrite (cons_middle e seen), (assoc_L (++)).
  destruct (Z.eqb_spec (blockIndex i' (hash e)) u) as [Hu|Hn].
  - destruct (insert e (updatedBlock s) (pendingAllocs s)) as [[[err|] w] a] eqn:Hins;
      [done|].
    destruct (insert_ok _ _ _ _ _ _ _ Hup Hlive
                (fun x => routeInv_pending _ _ x Hinv) Hins) as (Hw & Hent & Hoffs).
    apply IH. unfold routeInv. cbn [updatedBlock newBlock pendingAllocs].
    split_and!; [done|done| |].
    + rewrite (Permutation_app_swap_app (dataOffs w)), Hoffs.
      by rewrite (Permutation_app_swap_app (dataOffs (newBlock s))).
    + intros e0 [He0| ->%list_elem_of_singleton]%elem_of_app.
      * specialize (Hseen e0 He0). case_decide; [|done].
        rewrite Hent, elem_of_app. by left.
      * rewrite decide_True by done. rewrite Hent, elem_of_app. right. by left.
  - destruct (insert e (newBlock s) (pendingAllocs s)) as [[[err|] w] a] eqn:Hins;
      [done|].
    destruct (insert_ok _ _ _ _ _ _ _ Hnew Hlive
                (fun x => routeInv_pending _ _ x Hinv) Hins) as (Hw & Hent & Hoffs).
    apply IH. unfold routeInv. cbn [updatedBlock newBlock pendingAllocs].
    split_and!; [done|done| |].
    + by rewrite Hoffs.
    + intros e0 [He0| ->%list_elem_of_singleton]%elem_of_app.
      * specialize (Hseen e0 He0). case_decide; [done|].
        rewrite Hent, elem_of_app. by left.
      * rewrite decide_False by done. rewrite Hent, elem_of_app. right. by left.
Qed.

Lemma handlesEntries_cons h hs :
  handlesEntries (h :: hs) = liveEntries (entries (blk h)) ++ handlesEntries hs.
Proof. reflexivity. Qed.

Lemma walk_split_inv blockSize fuel db :
  forall t off s seen s',
  routeInv i' u uoff noff allocs0 s seen ->
  walk blockSize fuel db t off (splitCallback i' u) s = Some (None, s') ->
  exists hs, chain blockSize fuel db t off = Some hs /\
             routeInv i' u uoff noff allocs0 s' (seen ++ handlesEntries hs).
Proof.
  induction fuel as [|fuel IH]; intros t off s seen s' Hinv; simpl; [done|].
  destruct (readBlock blockSize db t off) as [b|]; [|done].
  unfold splitCallback. cbn [blk].
  destruct (routeEntries i' u (entries b) s) as [[err|] s1] eqn:Hroute; [done|].
  pose proof (routeEntries_inv _ _ _ _ Hinv Hroute) as Hinv1. cbn.
  destruct (Z.eqb_spec (next b) 0) as [Hz|Hnz].
  - intros [= <-]. eexists. split; [done|].
    by rewrite handlesEntries_cons, app_nil_r.
  - intros Hwalk. apply (IH _ _ _ (seen ++ liveEntries (entries b))) in Hwalk
      as (hs & -> & Hinv'); [|done].
    eexists. split; [done|]. by rewrite handlesEntries_cons, (assoc_L (++)).
Qed.

End Route.

Lemma insert_total e w a :
  (entryIdx w <= entriesPerBlock)%nat ->
  (entryIdx w = entriesPerBlock -> a <> []) ->
  exists w' a',
    insert e w a = (None, w', a') /\
    (entryIdx w' <= entriesPerBlock)%nat /\
    (entriesPerBlock * length a' + (entriesPerBlock - entryIdx w')
     = entriesPerBlock * length a + (entriesPerBlock - entryIdx w) - 1)%nat.
Proof.
  intros Hidx Ha. unfold insert.
  destruct (Nat.eqb_spec (entryIdx w) entriesPerBlock) as [Hfull|Hroom].
  - destruct a as [|x a]; [by destruct Ha|]. simpl. eexists _, _.
    split; [done|]. unfold entriesPerBlock in *. simpl. lia.
  - eexists _, _. split; [done|]. unfold entriesPerBlock in *. simpl. lia.
Qed.

Lemma routeEntries_succeeds i' u slots :
  forall s,
  (entryIdx (updatedBlock s) <= entriesPerBlock)%nat ->
  (entryIdx (newBlock s) <= entriesPerBlock)%nat ->
  (length (liveEntries slots) + entriesPerBlock <= room s)%nat ->
  exists s', routeEntries i' u slots s = (None, s') /\
    (entryIdx (updatedBlock s') <= entriesPerBlock)%nat /\
    (entryIdx (newBlock s') <= entriesPerBlock)%nat /\
    (room s' + length (liveEntries slots) = room s)%nat.
Proof.
  induction slots as [|e slots IH]; intros s Hup Hnew Hroom;
    cbn [routeEntries liveEntries] in *.
  { eexists. split; [done|]. split_and!; [done..|]. cbn [length]. lia. }
  destruct (kvOffset e =? 0).
  { eexists. split; [done|]. split_and!; [done..|]. cbn [length]. lia. }
  cbn [length] in *. unfold room in Hroom.
  destruct (blockIndex i' (hash e) =? u).
  - destruct (insert_total e (updatedBlock s) (pendingAllocs s) Hup)
      as (w & a & -> & Hw & Ha).
    { intros Hfull Hnil. rewrite Hfull, Hnil in Hroom. cbn [length] in Hroom. lia. }
    destruct (IH (MkSplitState w (newBlock s) (overflowBlocks s) a))
      as (s' & -> & ? & ? & Hroom'); [done|done| |].
    { unfold room. cbn [updatedBlock newBlock pendingAllocs]. lia. }
    eexists. split; [done|]. split_and!; [done..|].
    unfold room in *. cbn [updatedBlock newBlock pendingAllocs] in *. lia.
  - destruct (insert_total e (newBlock s) (pendingAllocs s) Hnew)
      as (w & a & -> & Hw & Ha).
    { intros Hfull Hnil. rewrite Hfull, Hnil in Hroom. cbn [length] in Hroom. lia. }
    destruct (IH (MkSplitState (updatedBlock s) w (overflowBlocks s) a))
      as (s' & -> & ? & ? & Hroom'); [done|done| |].
    { unfold room. cbn [updatedBlock newBlock pendingAllocs]. lia. }
    eexists. split; [done|]. split_and!; [done..|].
    unfold room in *. cbn [updatedBlock newBlock pendingAllocs] in *. lia.
Qed.

Lemma walk_split_succeeds blockSize i' u fuel db :
  forall t off s hs,
  chain blockSize fuel db t off = Some hs ->
  (entryIdx (updatedBlock s) <= entriesPerBlock)%nat ->
  (entryIdx (newBlock s) <= entriesPerBlock)%nat ->
  (length (handlesEntries hs) + entriesPerBlock <= room s)%nat ->
  exists s', walk blockSize fuel db t off (splitCallback i' u) s = Some (None, s').
Proof.
  induction fuel as [|fuel IH]; intros t off s hs; simpl; [done|].
  destruct (readBlock blockSize db t off) as [b|]; [|done].
  unfold splitCallback. cbn [blk].
  destruct (Z.eqb_spec (next b) 0) as [Hz|Hnz].
  - intros [= <-] Hup Hnew. rewrite handlesEntries_cons, length_app. cbn [blk].
    intros Hlen.
    destruct (routeEntries_succeeds i' u (entries b) s) as (s' & -> & _); [done|done|lia|].
    cbn. by eexists.
  - destruct (chain blockSize fuel db DataTable (next b)) as [rest|] eqn:Hchain; [|done].
    simpl. intros [= <-] Hup Hnew. rewrite handlesEntries_cons, length_app. cbn [blk].
    intros Hlen.
    destruct (routeEntries_succeeds i' u (entries b) s)
      as (s1 & -> & Hup1 & Hnew1 & Hroom1); [done|done|lia|].
    cbn. eapply IH; [done|done|done|]. unfold room in *. simpl in *. lia.
Qed.

Section Files.
Variable blockSize : Z.

Lemma readBlock_writeBlock_eq h db :
  inFile blockSize db h ->
  readBlock blockSize (writeBlock h db) (file h) (offset h) = Some (blk h).
Proof.
  unfold inFile, readBlock, writeBlock, readIndexBlock. intros Hin.
  destruct (file h); simpl.
  - rewrite decide_True by auto. by rewrite lookup_insert_eq.
  - by rewrite lookup_insert_eq.
Qed.

Lemma readBlock_writeBlock_ne h db t o :
  (t, o) <> keyOfHandle h ->
  readBlock blockSize (writeBlock h db) t o = readBlock blockSize db t o.
Proof.
  unfold keyOfHandle, readBlock, writeBlock, readIndexBlock. intros Hne.
  destruct (file h) eqn:Hf, t; simpl; try done.
  - rewrite lookup_insert_ne; [done|]. congruence.
  - rewrite lookup_insert_ne; [done|]. congruence.
Qed.

Lemma inFile_writeBlock h h' db :
  inFile blockSize db h -> inFile blockSize (writeBlock h' db) h.
Proof. unfold inFile. by rewrite Directory.fsize_writeBlock. Qed.

Lemma readBlock_writes_notin hs db t o :
  (t, o) ∉ keyOfHandle <$> hs ->
  readBlock blockSize (foldr writeBlock db hs) t o = readBlock blockSize db t o.
Proof.
  induction hs as [|h hs IH]; simpl; [done|]. intros Hnot.
  apply not_elem_of_cons in Hnot as [Hne Hnot].
  rewrite readBlock_writeBlock_ne by done. by apply IH.
Qed.

Lemma inFile_writes hs h db :
  inFile blockSize db h -> inFile blockSize (foldr writeBlock db hs) h.
Proof.
  intros Hin. induction hs as [|h' hs IH]; simpl; [done|]. by apply inFile_writeBlock.
Qed.

Lemma readBlock_writes_in hs db h :
  NoDup (keyOfHandle <$> hs) -> h ∈ hs -> inFile blockSize db h ->
  readBlock blockSize (foldr writeBlock db hs) (file h) (offset h) = Some (blk h).
Proof.
  induction hs as [|h' hs IH]; simpl; [by intros _ ?%elem_of_nil|].
  intros [Hnotin Hnd]%NoDup_cons [->|Hin]%elem_of_cons Hfile.
  - apply readBlock_writeBlock_eq. by apply inFile_writes.
  - rewrite readBlock_writeBlock_ne; [by apply IH|].
    intros Heq. apply Hnotin. rewrite <- Heq.
    by apply (list_elem_of_fmap_2 keyOfHandle) in Hin.
Qed.

Lemma writeWriter_foldr w db :
  writeWriter w db = foldr writeBlock db (wblock w :: prevBlocks w).
Proof. reflexivity. Qed.

Lemma writer_perm w : wblock w :: prevBlocks w ≡ₚ wHandles w.
Proof. unfold wHandles. by rewrite Permutation_app_comm. Qed.

End Files.

Section Chains.
Variable blockSize : Z.

Lemma chain_shape fuel db :
  forall t off hs,
  chain blockSize fuel db t off = Some hs ->
  (exists h0 rest, hs = h0 :: rest /\ file h0 = t /\ offset h0 = off /\
                   Forall (fun h => file h = DataTable) rest) /\
  (forall h, h ∈ hs -> readBlock blockSize db (file h) (offset h) = Some (blk h)).
Proof.
  induction fuel as [|fuel IH]; intros t off hs; simpl; [done|].
  destruct (readBlock blockSize db t off) as [b|] eqn:Hread; [|done].
  destruct (next b =? 0).
  - intros [= <-]. split.
    + eexists _, _. by split_and!.
    + by intros h ->%list_elem_of_singleton.
  - destruct (chain blockSize fuel db DataTable (next b)) as [rest|] eqn:Hchain; [|done].
    simpl. intros [= <-].
    destruct (IH _ _ _ Hchain) as ((h0 & rest' & -> & Hf & Ho & Hrest) & Hreads). split.
    + eexists _, _. split_and!; [done..|]. by constructor.
    + intros h [->|Hin]%elem_of_cons; [done|]. by apply Hreads.
Qed.

Lemma chain_ext fuel db db' :
  forall t off hs,
  chain blockSize fuel db t off = Some hs ->
  (forall h, h ∈ hs ->
     readBlock blockSize db' (file h) (offset h) = readBlock blockSize db (file h) (offset h)) ->
  chain blockSize fuel db' t off = Some hs.
Proof.
  induction fuel as [|fuel IH]; intros t off hs; simpl; [done|].
  destruct (readBlock blockSize db t off) as [b|] eqn:Hread; [|done].
  destruct (next b =? 0) eqn:Hnext.
  - intros [= <-] Hsame. specialize (Hsame _ ltac:(left)). simpl in Hsame.
    by rewrite Hsame, Hread, Hnext.
  - destruct (chain blockSize fuel db DataTable (next b)) as [rest|] eqn:Hchain; [|done].
    simpl. intros [= <-] Hsame.
    pose proof (Hsame _ ltac:(left)) as Hhead. simpl in Hhead.
    rewrite Hhead, Hread, Hnext.
    rewrite (IH _ _ _ Hchain); [done|]. intros h Hin. apply Hsame. by right.
Qed.

Lemma chain_det f1 db :
  forall f2 t off hs1 hs2,
  chain blockSize f1 db t off = Some hs1 ->
  chain blockSize f2 db t off = Some hs2 -> hs1 = hs2.
Proof.
  induction f1 as [|f1 IH]; intros [|f2] t off hs1 hs2; simpl; try done.
  destruct (readBlock blockSize db t off) as [b|]; [|done].
  destruct (next b =? 0); [congruence|].
  destruct (chain blockSize f1 db DataTable (next b)) as [r1|] eqn:H1; [|done].
  destruct (chain blockSize f2 db DataTable (next b)) as [r2|] eqn:H2; [|done].
  simpl. intros [= <-] [= <-]. f_equal. by eapply IH.
Qed.

Lemma chain_linked db hs :
  linked hs ->
  (forall h, h ∈ hs -> readBlock blockSize db (file h) (offset h) = Some (blk h)) ->
  forall h0 rest, hs = h0 :: rest ->
  chain blockSize (length hs) db (file h0) (offset h0) = Some hs.
Proof.
  induction 1 as [h Hn|h h' hs Hn Hoff Hfile Hlinked IH]; intros Hreads h0 rest Heq;
    simplify_eq.
  - simpl. rewrite (Hreads h0) by left. rewrite Hn. simpl. by destruct h0.
  - change (length (h0 :: h' :: hs)) with (S (length (h' :: hs))). cbn [chain].
    rewrite (Hreads h0) by left. apply Z.eqb_neq in Hoff as Hoff'.
    rewrite Hn, Hoff', <- Hfile.
    rewrite (IH (fun h Hin => Hreads h (list_elem_of_further _ _ _ Hin)) h' hs eq_refl).
    simpl. by destruct h0.
Qed.

Lemma linked_tail_data hs :
  linked hs -> Forall (fun h => file h = DataTable) (drop 1 hs).
Proof.
  induction 1 as [h Hn|h h' hs Hn Hoff Hfile Hlinked IH]; simpl; [done|].
  rewrite ?drop_0. constructor; [done|]. by destruct hs.
Qed.

Lemma writer_keys w t off :
  writerOk w t off ->
  keyOfHandle <$> wHandles w = (t, off) :: ((fun o => (DataTable, o)) <$> dataOffs w).
Proof.
  intros (_ & _ & _ & Hlinked & (h0 & rest & Heq & Hf & Ho)).
  pose proof (linked_tail_data _ Hlinked) as Hdata.
  unfold dataOffs. rewrite Heq in *. simpl in *. rewrite ?drop_0 in *.
  unfold keyOfHandle at 1. rewrite Hf, Ho. f_equal.
  rewrite <- list_fmap_compose. apply Forall_fmap_ext_1.
  eapply Forall_impl; [exact Hdata|]. intros h Hh. unfold keyOfHandle. simpl.
  by rewrite Hh.
Qed.

End Chains.

Lemma advance_cases (i : dbInfo) :
  0 <= level i <= 31 -> 0 <= splitBlockIdx i < 2 ^ level i ->
  (splitBlockIdx i + 1 = 2 ^ level i /\
   level (advance i) = level i + 1 /\ splitBlockIdx (advance i) = 0) \/
  (splitBlockIdx i + 1 < 2 ^ level i /\
   level (advance i) = level i /\ splitBlockIdx (advance i) = splitBlockIdx i + 1).
Proof.
  intros Hl Hs.
  assert (Hpow : 0 < 2 ^ level i <= 2 ^ 31).
  { split; [apply Z.pow_pos_nonneg; lia|apply Z.pow_le_mono_r; lia]. }
  change (2 ^ 31) with 2147483648 in Hpow.
  unfold advance, shl32, wrap32, wrap8. rewrite Z.shiftl_1_l.
  change (2 ^ 32) with 4294967296. change (2 ^ 8) with 256.
  rewrite (Z.mod_small (splitBlockIdx i + 1)) by lia.
  rewrite (Z.mod_small (2 ^ level i)) by lia.
  destruct (Z.eqb_spec (splitBlockIdx i + 1) (2 ^ level i)); simpl.
  - left. rewrite Z.mod_small by lia. done.
  - right. split_and!; [lia|done..].
Qed.

Lemma blockIndex_advance_in (i : dbInfo) (h : Z) :
  0 <= level i <= 31 -> 0 <= splitBlockIdx i < 2 ^ level i ->
  0 <= blockIndex i h < 2 ^ level i + splitBlockIdx i /\
  (blockIndex i h <> splitBlockIdx i -> blockIndex (advance i) h = blockIndex i h) /\
  (blockIndex i h = splitBlockIdx i ->
   blockIndex (advance i) h = splitBlockIdx i \/
   blockIndex (advance i) h = splitBlockIdx i + 2 ^ level i).
Proof.
  intros Hl Hs.
  assert (Hpow : 0 < 2 ^ level i) by (apply Z.pow_pos_nonneg; lia).
  assert (Hnext : 2 ^ (level i + 1) = 2 ^ level i * 2)
    by (rewrite Z.pow_add_r by lia; lia).
  assert (Hw : wrap8 (level i + 1) = level i + 1).
  { unfold wrap8. apply Z.mod_small. change (2 ^ 8) with 256. lia. }
  pose proof (Z.mod_pos_bound h (2 ^ level i) Hpow) as Hm.
  pose proof (Z.mod_pos_bound (h / 2 ^ level i) 2 ltac:(lia)) as Hbit.
  assert (HM : h mod 2 ^ (level i + 1)
               = h mod 2 ^ level i + 2 ^ level i * ((h / 2 ^ level i) mod 2)).
  { rewrite Hnext. apply Z.rem_mul_r; lia. }
  rewrite (Directory.blockIndex_mod i) by lia. rewrite Hw, !Z.min_l by lia.
  destruct (advance_cases i Hl Hs) as [(Hwrap & Hl' & Hs')|(Hno & Hl' & Hs')];
    rewrite (Directory.blockIndex_mod (advance i)) by lia; rewrite Hl', Hs'.
  - rewrite (Z.min_l (level i + 1)) by lia.
    assert ((h mod 2 ^ (level i + 1) <? 0) = false) as -> by (apply Z.ltb_ge; nia).
    destruct (Z.ltb_spec (h mod 2 ^ level i) (splitBlockIdx i));
      split_and!; try nia; intros; try nia.
    destruct (Z.eq_dec ((h / 2 ^ level i) mod 2) 0); [left|right]; nia.
  - rewrite Hw, !Z.min_l by lia.
    destruct (Z.ltb_spec (h mod 2 ^ level i) (splitBlockIdx i));
      destruct (Z.ltb_spec (h mod 2 ^ level i) (splitBlockIdx i + 1));
      split_and!; try nia; intros; try nia.
    destruct (Z.eq_dec ((h / 2 ^ level i) mod 2) 0); [left|right]; nia.
Qed.

(** A split index at or beyond [1<<level] selects the mask of [level + 1]
    bits for every hash, before and after it moves. *)
Lemma blockIndex_advance_out (i : dbInfo) (h : Z) :
  0 <= level i <= 31 -> 2 ^ level i <= splitBlockIdx i ->
  splitBlockIdx i + 1 < 2 ^ 32 ->
  0 <= blockIndex i h < 2 ^ level i + splitBlockIdx i /\
  blockIndex (advance i) h = blockIndex i h.
Proof.
  intros Hl Hs Hb.
  assert (Hpow : 0 < 2 ^ level i <= 2 ^ 31).
  { split; [apply Z.pow_pos_nonneg; lia|apply Z.pow_le_mono_r; lia]. }
  assert (Hnext : 2 ^ (level i + 1) = 2 ^ level i * 2)
    by (rewrite Z.pow_add_r by lia; lia).
  assert (Hw : wrap8 (level i + 1) = level i + 1).
  { unfold wrap8. apply Z.mod_small. change (2 ^ 8) with 256. lia. }
  assert (Hadv : level (advance i) = level i /\
                 splitBlockIdx (advance i) = splitBlockIdx i + 1).
  { unfold advance, shl32, wrap32. rewrite Z.shiftl_1_l.
    change (2 ^ 31) with 2147483648 in Hpow. change (2 ^ 32) with 4294967296 in *.
    rewrite (Z.mod_small (splitBlockIdx i + 1)) by lia.
    rewrite (Z.mod_small (2 ^ level i)) by lia.
    destruct (Z.eqb_spec (splitBlockIdx i + 1) (2 ^ level i)); [lia|done]. }
  destruct Hadv as [Hl' Hs'].
  pose proof (Z.mod_pos_bound h (2 ^ level i) ltac:(lia)) as Hm.
  pose proof (Z.mod_pos_bound h (2 ^ (level i + 1)) ltac:(lia)) as Hm'.
  rewrite (Directory.blockIndex_mod (advance i)) by lia.
  rewrite (Directory.blockIndex_mod i) by lia.
  rewrite Hl', Hs', Hw, !Z.min_l by lia.
  assert ((h mod 2 ^ level i <? splitBlockIdx i) = true) as -> by (apply Z.ltb_lt; lia).
  assert ((h mod 2 ^ level i <? splitBlockIdx i + 1) = true) as ->
    by (apply Z.ltb_lt; lia).
  split; [lia|done].
Qed.

Lemma blockIndex_advance (i : dbInfo) (h : Z) :
  0 <= level i <= 31 -> 0 <= splitBlockIdx i ->
  splitBlockIdx i + 1 < 2 ^ 32 ->
  0 <= blockIndex i h < 2 ^ level i + splitBlockIdx i /\
  (blockIndex i h <> splitBlockIdx i -> blockIndex (advance i) h = blockIndex i h) /\
  (blockIndex i h = splitBlockIdx i ->
   blockIndex (advance i) h = splitBlockIdx i \/
   blockIndex (advance i) h = splitBlockIdx i + 2 ^ level i).
Proof.
  intros Hl Hs Hb.
  destruct (Z.lt_ge_cases (splitBlockIdx i) (2 ^ level i)) as [Hin|Hout].
  - by apply blockIndex_advance_in.
  - destruct (blockIndex_advance_out i h Hl Hout Hb) as [Hr Heq].
    split_and!; [lia..| |].
    + done.
    + intros Hu. left. by rewrite Heq.
Qed.

(** [advance] on a directory whose split index can still grow. *)
Lemma advance_next (i : dbInfo) :
  0 <= level i <= 31 -> 0 <= splitBlockIdx i -> splitBlockIdx i + 1 < 2 ^ 32 ->
  if decide (splitBlockIdx i + 1 = 2 ^ level i)
  then level (advance i) = level i + 1 /\ splitBlockIdx (advance i) = 0
  else level (advance i) = level i /\ splitBlockIdx (advance i) = splitBlockIdx i + 1.
Proof.
  intros Hl Hs Hb.
  assert (Hpow : 0 < 2 ^ level i <= 2 ^ 31).
  { split; [apply Z.pow_pos_nonneg; lia|apply Z.pow_le_mono_r; lia]. }
  change (2 ^ 31) with 2147483648 in Hpow.
  unfold advance, shl32, wrap32, wrap8. rewrite Z.shiftl_1_l.
  change (2 ^ 32) with 4294967296 in *. change (2 ^ 8) with 256.
  rewrite (Z.mod_small (splitBlockIdx i + 1)) by lia.
  rewrite (Z.mod_small (2 ^ level i)) by lia.
  destruct (Z.eqb_spec (splitBlockIdx i + 1) (2 ^ level i)); simpl.
  - rewrite decide_True by done. rewrite Z.mod_small by lia. done.
  - by rewrite decide_False by done.
Qed.

Section SplitReach.
Variable blockSize : Z.
Hypothesis blockSize_pos : 0 < blockSize.

Lemma readBlock_setInfo db i t o :
  readBlock blockSize (setInfo db i) t o = readBlock blockSize db t o.
Proof. by destruct t. Qed.

Lemma blockIndex_bumpBlocks i h : blockIndex (bumpBlocks i) h = blockIndex i h.
Proof. reflexivity. Qed.

Lemma blockOffset_inj a b :
  blockOffset blockSize a = blockOffset blockSize b -> a = b.
Proof. unfold blockOffset. nia. Qed.

Lemma readBlock_extended db h :
  inFile blockSize db h ->
  readBlock blockSize (extended blockSize db) (file h) (offset h)
  = readBlock blockSize db (file h) (offset h).
Proof.
  unfold inFile, extended, readBlock, readIndexBlock. destruct (file h); simpl; [|done].
  intros Hin. destruct Hin as [? ?]; [done|].
  rewrite !decide_True by lia. done.
Qed.

(** The blocks a writer holds are what a probe reads once they are written
    and nothing else overwrote them. *)
Lemma chain_of_writer db w off :
  writerOk w IndexTable off ->
  (forall h, h ∈ wHandles w ->
     readBlock blockSize db (file h) (offset h) = Some (blk h)) ->
  chain blockSize (length (wHandles w)) db IndexTable off = Some (wHandles w).
Proof.
  intros Hok Hreads. pose proof Hok as (_ & _ & _ & Hlinked & (h0 & rest & Heq & Hf & Ho)).
  rewrite <- Hf, <- Ho. by eapply chain_linked.
Qed.

Lemma split_eq (freeOverflow : bool) (io : IO) (fuel : nat) (db : DB) :
  split blockSize freeOverflow io fuel db =
  match extendErr io with
  | Some err => Some (Some err, db)
  | None =>
      match walk blockSize fuel (extended blockSize db) IndexTable
              (blockOffset blockSize (splitBlockIdx (info db)))
              (splitCallback (advance (info db)) (splitBlockIdx (info db)))
              (MkSplitState
                 (newWriter IndexTable (blockOffset blockSize (splitBlockIdx (info db))))
                 (newWriter IndexTable (fsize (index db))) [] (allocs io)) with
      | None => None
      | Some (Some err, _) => Some (Some err, extended blockSize db)
      | Some (None, s) => splitTail freeOverflow io (extended blockSize db) s
      end
  end.
Proof.
  unfold split, splitTail, forEachBlock, extended. destruct (extendErr io); [done|].
  cbn [extend snd info setInfo].
  destruct (walk _ _ _ _ _ _ _) as [[[err|] st]|]; try done.
  destruct freeOverflow, (writeNewErr io), (writeUpdatedErr io); try done.
  all: unfold bumpBlocks, setInfo; cbn [info index data freed].
  all: rewrite !Directory.info_writeWriter; reflexivity.
Qed.

Lemma split_reach_core (freeOverflow : bool) (io : IO) (fuel : nat) (db db' : DB) :
  splitReady blockSize db io ->
  split blockSize freeOverflow io fuel db = Some (None, db') ->
  exists up new,
    writerOk up IndexTable (blockOffset blockSize (splitBlockIdx (info db))) /\
    writerOk new IndexTable (blockOffset blockSize (nBlocks (info db))) /\
    (forall h, h ∈ wHandles up ->
       readBlock blockSize db' (file h) (offset h) = Some (blk h)) /\
    (forall h, h ∈ wHandles new ->
       readBlock blockSize db' (file h) (offset h) = Some (blk h)) /\
    (forall t o,
       (t, o) <> (IndexTable, blockOffset blockSize (splitBlockIdx (info db))) ->
       (t, o) <> (IndexTable, blockOffset blockSize (nBlocks (info db))) ->
       (t = DataTable -> o ∉ allocs io) ->
       readBlock blockSize db' t o = readBlock blockSize (extended blockSize db) t o) /\
    (exists hs,
       chain blockSize fuel (extended blockSize db) IndexTable
         (blockOffset blockSize (splitBlockIdx (info db))) = Some hs /\
       forall e, e ∈ handlesEntries hs ->
         if decide (blockIndex (advance (info db)) (hash e) = splitBlockIdx (info db))
         then e ∈ handlesEntries (wHandles up)
         else e ∈ handlesEntries (wHandles new)).
Proof.
  intros (Hl & Hs & Hn & Hbound & Hsize & Hnd & Hnz & Hunused).
  rewrite split_eq. destruct (extendErr io); [done|].
  set (u := splitBlockIdx (info db)).
  destruct (walk _ _ _ _ _ _ _) as [[[err|] st]|] eqn:Hwalk; [done| |done].
  unfold splitTail.
  eapply (walk_split_inv (advance (info db)) u (blockOffset blockSize u)
            (fsize (index db)) (allocs io) Hnz) with (seen := []) in Hwalk
    as (hs & Hchain & Hup & Hnew & Hperm & Hseen).
  2:{ unfold routeInv. cbn. split_and!; [apply newWriter_ok..|done|].
      by intros e ?%elem_of_nil. }
  destruct (writeNewErr io); [done|]. destruct (writeUpdatedErr io); [done|].
  set (dbf := if freeOverflow then _ else _).
  intros [= <-].
  assert (Hdbf : forall t o, readBlock blockSize dbf t o
                             = readBlock blockSize (extended blockSize db) t o).
  { intros t o. unfold dbf. by destruct freeOverflow, t. }
  assert (Hfs : fsize (index dbf) = fsize (index db) + blockSize).
  { unfold dbf. by destruct freeOverflow. }
  rewrite Hsize in Hnew.
  pose proof (writer_keys _ _ _ Hup) as Kup.
  pose proof (writer_keys _ _ _ Hnew) as Knew.
  assert (HndAll : NoDup (dataOffs (updatedBlock st) ++ dataOffs (newBlock st)
                          ++ pendingAllocs st)) by (by rewrite Hperm).
  apply NoDup_app in HndAll as (HndUp & HdisjUp & HndRest).
  apply NoDup_app in HndRest as (HndNew & _ & _).
  assert (Hu : 0 <= u < nBlocks (info db)).
  { unfold u. assert (0 < 2 ^ level (info db)) by (apply Z.pow_pos_nonneg; lia). lia. }
  assert (HndKup : NoDup (keyOfHandle <$> wHandles (updatedBlock st))).
  { rewrite Kup. constructor.
    - intros (o & ? & _)%list_elem_of_fmap. done.
    - apply (NoDup_fmap_2 _). done. }
  assert (HndKnew : NoDup (keyOfHandle <$> wHandles (newBlock st))).
  { rewrite Knew. constructor.
    - intros (o & ? & _)%list_elem_of_fmap. done.
    - apply (NoDup_fmap_2 _). done. }
  assert (HinUp : forall h X, h ∈ wHandles (updatedBlock st) ->
            fsize (index X) = fsize (index db) + blockSize -> inFile blockSize X h).
  { intros h X Hin HX Hfile.
    apply (list_elem_of_fmap_2 keyOfHandle) in Hin. rewrite Kup in Hin.
    apply elem_of_cons in Hin as [Heq|(o & Heq & _)%list_elem_of_fmap];
      unfold keyOfHandle in Heq; [|congruence].
    injection Heq as _ ->. rewrite HX, Hsize. unfold blockOffset. nia. }
  assert (HinNew : forall h X, h ∈ wHandles (newBlock st) ->
            fsize (index X) = fsize (index db) + blockSize -> inFile blockSize X h).
  { intros h X Hin HX Hfile.
    apply (list_elem_of_fmap_2 keyOfHandle) in Hin. rewrite Knew in Hin.
    apply elem_of_cons in Hin as [Heq|(o & Heq & _)%list_elem_of_fmap];
      unfold keyOfHandle in Heq; [|congruence].
    injection Heq as _ ->. rewrite HX, Hsize. unfold blockOffset. nia. }
  exists (updatedBlock st), (newBlock st). split_and!; [done|done| | | |].
  - intros h Hin. rewrite readBlock_setInfo, writeWriter_foldr.
    apply readBlock_writes_in.
    + by rewrite writer_perm.
    + by rewrite writer_perm.
    + apply HinUp; [done|]. by rewrite Directory.fsize_writeWriter.
  - intros h Hin. rewrite readBlock_setInfo, writeWriter_foldr.
    rewrite readBlock_writes_notin.
    + rewrite writeWriter_foldr. apply readBlock_writes_in.
      * by rewrite writer_perm.
      * by rewrite writer_perm.
      * by apply HinNew.
    + rewrite writer_perm, Kup.
      apply (list_elem_of_fmap_2 keyOfHandle) in Hin. rewrite Knew in Hin.
      unfold keyOfHandle in Hin at 1.
      intros [Heq|(o & Heq & Ho)%list_elem_of_fmap]%elem_of_cons.
      * rewrite Heq in Hin.
        apply elem_of_cons in Hin as [Hin|(o' & ? & _)%list_elem_of_fmap]; [|done].
        injection Hin as Hin%blockOffset_inj. lia.
      * rewrite Heq in Hin.
        apply elem_of_cons in Hin as [?|(o' & [= <-] & Ho')%list_elem_of_fmap]; [done|].
        eapply HdisjUp; [done|]. apply elem_of_app. by left.
  - intros t o Hnu Hnn Hdata.
    assert (Hsub : forall x, x ∈ dataOffs (updatedBlock st) ++ dataOffs (newBlock st)
                     -> x ∈ allocs io).
    { intros x Hx. rewrite <- Hperm, (assoc_L (++)), elem_of_app. by left. }
    rewrite readBlock_setInfo, !writeWriter_foldr, !readBlock_writes_notin; [apply Hdbf| |].
    + rewrite writer_perm, Knew.
      intros [?|(o' & [= -> ->] & Ho')%list_elem_of_fmap]%elem_of_cons; [done|].
      apply Hdata; [done|]. apply Hsub, elem_of_app. by right.
    + rewrite writer_perm, Kup.
      intros [?|(o' & [= -> ->] & Ho')%list_elem_of_fmap]%elem_of_cons; [done|].
      apply Hdata; [done|]. apply Hsub, elem_of_app. by left.
  - exists hs. split; [done|]. apply Hseen.
Qed.

End SplitReach.

Section SplitTheorem.
Variable blockSize : Z.
Hypothesis blockSize_pos : 0 < blockSize.

Lemma readBlock_inFile db h b :
  readBlock blockSize db (file h) (offset h) = Some b -> inFile blockSize db h.
Proof.
  unfold readBlock, readIndexBlock, inFile. intros Hread Hf. rewrite Hf in Hread.
  by case_decide.
Qed.

Lemma chain_extended fuel db t off hs :
  chain blockSize fuel db t off = Some hs ->
  chain blockSize fuel (extended blockSize db) t off = Some hs.
Proof.
  intros Hchain. apply (chain_ext _ _ _ _ _ _ _ Hchain). intros h Hin.
  apply (readBlock_extended blockSize blockSize_pos).
  eapply readBlock_inFile, (proj2 (chain_shape _ _ _ _ _ _ Hchain)), Hin.
Qed.

Lemma split_succeeds (freeOverflow : bool) (io : IO) (fuel : nat) (db : DB) hs :
  chain blockSize fuel db IndexTable
    (blockOffset blockSize (splitBlockIdx (info db))) = Some hs ->
  (length (handlesEntries hs) <= entriesPerBlock * (length (allocs io) + 1))%nat ->
  extendErr io = None -> writeNewErr io = None -> writeUpdatedErr io = None ->
  exists db', split blockSize freeOverflow io fuel db = Some (None, db').
Proof.
  intros Hchain Hlen He Hn Hu. rewrite split_eq, He.
  apply chain_extended in Hchain.
  edestruct (walk_split_succeeds blockSize (advance (info db)) (splitBlockIdx (info db)))
    as (s' & ->); [exact Hchain| | | |].
  - unfold entriesPerBlock. simpl. lia.
  - unfold entriesPerBlock. simpl. lia.
  - unfold room, entriesPerBlock in *. simpl in *. lia.
  - unfold splitTail. rewrite Hn, Hu. by eexists.
Qed.

Lemma split_keeps_reachable (freeOverflow : bool) (io : IO) (fuel : nat)
    (db db' : DB) (e : entry) :
  splitReady blockSize db io ->
  split blockSize freeOverflow io fuel db = Some (None, db') ->
  reachable blockSize db e -> reachable blockSize db' e.
Proof.
  intros Hready Hsplit (fuel1 & hs1 & Hchain1 & He).
  destruct (split_reach_core blockSize blockSize_pos _ _ _ _ _ Hready Hsplit)
    as (up & new & Hup & Hnew & Rup & Rnew & Rframe & (hs & Hchain & Hrouted)).
  destruct (Directory.split_ok_info _ _ _ _ _ _ Hsplit) as [Hinfo _].
  pose proof Hready as (Hl & Hs & Hn & Hbound & Hsize & Hnd & Hnz & Hunused).
  assert (Hpow : 0 < 2 ^ level (info db)) by (apply Z.pow_pos_nonneg; lia).
  destruct (blockIndex_advance (info db) (hash e) Hl Hs ltac:(lia))
    as (Hrange & Hother & Hsame).
  unfold reachable. rewrite Hinfo, blockIndex_bumpBlocks.
  destruct (decide (blockIndex (info db) (hash e) = splitBlockIdx (info db))) as [Hu|Hnu].
  - rewrite Hu in Hchain1. apply chain_extended in Hchain1.
    rewrite (chain_det _ _ _ _ _ _ _ _ Hchain1 Hchain) in He.
    specialize (Hrouted e He). specialize (Hsame Hu). case_decide as Hnew'.
    + rewrite Hnew'. eexists _, _. split; [|exact Hrouted].
      by apply chain_of_writer.
    + destruct Hsame as [?| ->]; [done|].
      replace (splitBlockIdx (info db) + 2 ^ level (info db)) with (nBlocks (info db))
        by lia.
      eexists _, _. split; [|exact Hrouted]. by apply chain_of_writer.
  - rewrite (Hother Hnu). exists fuel1, hs1. split; [|done].
    apply (chain_ext _ _ _ _ _ _ _ Hchain1). intros h Hin.
    destruct (chain_shape _ _ _ _ _ _ Hchain1) as ((h0 & rest & -> & Hf & Ho & Hrest) & Hreads).
    pose proof (readBlock_inFile _ _ _ (Hreads h Hin)) as HinFile.
    rewrite <- (readBlock_extended blockSize blockSize_pos db h HinFile).
    apply Rframe.
    + apply elem_of_cons in Hin as [->|Hin].
      * rewrite Hf, Ho. intros [= Heq%(blockOffset_inj blockSize blockSize_pos)]. done.
      * rewrite Forall_forall in Hrest. by rewrite (Hrest h Hin).
    + apply elem_of_cons in Hin as [->|Hin].
      * rewrite Hf, Ho. intros [= Heq%(blockOffset_inj blockSize blockSize_pos)]. lia.
      * rewrite Forall_forall in Hrest. by rewrite (Hrest h Hin).
    + intros Hdata. by eapply Hunused.
Qed.

End SplitTheorem.

(** An entry that the chain at [blockIndex] of its hash does not hold is not
    found by any probe. *)
Lemma not_reachable (blockSize : Z) (db : DB) (e : entry) (fuel : nat)
    (hs : list blockHandle) :
  chain blockSize fuel db IndexTable
    (blockOffset blockSize (blockIndex (info db) (hash e))) = Some hs ->
  e ∉ handlesEntries hs -> ~ reachable blockSize db e.
Proof.
  intros Hchain Hnot (fuel' & hs' & Hchain' & Hin).
  by rewrite (chain_det _ _ _ _ _ _ _ _ Hchain' Hchain) in Hin.
Qed.

(** [splitReady] is the conjunction of its conditions. *)
Lemma splitReady_holds (blockSize : Z) (db : DB) (io : IO) :
  splitReady blockSize db io <-> forall c, holds blockSize db io c.
Proof.
  split.
  - intros (Hl & Hs & Hn & Hbound & Hsize & Hnd & Hnz & Hunused) c.
    destruct c; simpl; auto.
  - intros H. unfold splitReady.
    destruct (H DirEquation) as (Hl & Hs & Hn).
    split_and!; [apply Hl..|done|done|apply (H RoomForBlock)|apply (H FileLength)
                |apply (H AllocsDistinct)|apply (H AllocsNonZero)
                |apply (H AllocsUnused)].
Qed.

(** A chain reads its overflow blocks from the data file: an offset at which
    the data file holds no block is used by no chain. *)
Lemma unused_by_data (blockSize : Z) (db : DB) (io : IO) :
  Forall (fun x => data db !! x = None) (allocs io) ->
  holds blockSize db io AllocsUnused.
Proof.
  intros Hfree i fuel hs h Hchain Hin Hdata Hoff.
  destruct (chain_shape _ _ _ _ _ _ Hchain) as [_ Hreads].
  specialize (Hreads h Hin). rewrite Hdata in Hreads. simpl in Hreads.
  rewrite Forall_forall in Hfree. by rewrite (Hfree _ Hoff) in Hreads.
Qed.

Ltac run_split := eexists; split; [vm_compute; reflexivity|].
Ltac is_reachable n :=
  exists n; eexists; split;
  [vm_compute; reflexivity|apply (bool_decide_unpack _); vm_compute; exact I].
Ltac is_not_reachable n :=
  eapply (not_reachable _ _ _ n);
  [vm_compute; reflexivity|apply (bool_decide_unpack _); vm_compute; exact I].
Ltac holds_by_computation :=
  lazymatch goal with
  | |- holds _ _ _ AllocsUnused =>
      apply unused_by_data; repeat constructor
  | |- holds _ _ _ AllocsDistinct => apply (bool_decide_unpack _); vm_compute; exact I
  | |- holds _ _ _ AllocsNonZero =>
      unfold holds; apply Forall_forall; repeat constructor; done
  | |- holds _ _ _ _ => vm_compute; repeat split; congruence
  end.

(** Calls of [split] that do not do what the claim says of every call. A
    call whose [index.extend] fails returns the error and leaves the split
    index, the level and the block count as they were. Calls that return nil
    lose an entry or the block count when one of the conditions of
    [splitReady] does not hold while the others do:
    on [strayDB], where [nBlocks] is not [(1<<level) + splitBlockIdx], the
    entry of hash 3 moves to block 2 and is looked for in block 1;
    on [lastBlockDB], with [2^32 - 1] blocks, the block count wraps to 0;
    on [longFileDB], whose index file is a block too long, the entry of
    hash 3 again moves to block 2;
    on [overflowDB] with an allocator that hands out offset 0, the 23rd
    entry is written behind a link that reads as the end of the chain;
    on [crowdedDB] with an allocator that hands out 12288 twice, the
    overflow block of the new bucket is overwritten by that of the old one;
    on [neighbourDB] with an allocator that hands out the offset of the
    overflow block of bucket 1, that block is overwritten. *)
Lemma split_calls_that_break_the_claim :
  (split 4096 false ioExtendFails 1 (freshDB 4096 0 (-1) [])
     = Some (Some (errIO "extend"), freshDB 4096 0 (-1) []) /\
   splitBlockIdx (info (freshDB 4096 0 (-1) [])) = 0 /\
   nBlocks (info (freshDB 4096 0 (-1) [])) = 1) /\
  (onlyFails 4096 strayDB (ioOk []) DirEquation /\
   exists db',
     split 4096 false (ioOk []) 1 strayDB = Some (None, db') /\
     reachable 4096 strayDB (MkEntry 3 1 1 0 900) /\
     ~ reachable 4096 db' (MkEntry 3 1 1 0 900)) /\
  (onlyFails 4096 lastBlockDB (ioOk []) RoomForBlock /\
   exists db',
     split 4096 false (ioOk []) 1 lastBlockDB = Some (None, db') /\
     nBlocks (info lastBlockDB) = 2 ^ 32 - 1 /\
     nBlocks (info db') = 0) /\
  (onlyFails 4096 longFileDB (ioOk []) FileLength /\
   exists db',
     split 4096 false (ioOk []) 1 longFileDB = Some (None, db') /\
     reachable 4096 longFileDB (MkEntry 3 1 1 0 900) /\
     ~ reachable 4096 db' (MkEntry 3 1 1 0 900)) /\
  (onlyFails 4096 overflowDB (ioOk [0]) AllocsNonZero /\
   exists db',
     split 4096 false (ioOk [0]) 2 overflowDB = Some (None, db') /\
     reachable 4096 overflowDB (MkEntry 46 1 1 0 2000) /\
     ~ reachable 4096 db' (MkEntry 46 1 1 0 2000)) /\
  (onlyFails 4096 crowdedDB (ioOk [12288; 12288]) AllocsDistinct /\
   exists db',
     split 4096 false (ioOk [12288; 12288]) 3 crowdedDB = Some (None, db') /\
     reachable 4096 crowdedDB (MkEntry 101 1 1 0 3001) /\
     ~ reachable 4096 db' (MkEntry 101 1 1 0 3001)) /\
  (onlyFails 4096 neighbourDB (ioOk [16384]) AllocsUnused /\
   exists db',
     split 4096 false (ioOk [16384]) 2 neighbourDB = Some (None, db') /\
     reachable 4096 neighbourDB (MkEntry 89 1 1 0 2022) /\
     ~ reachable 4096 db' (MkEntry 89 1 1 0 2022)).
Proof.
  split; [vm_compute; repeat split|].
  split; [split|split; [split|split; [split|split; [split|split; [split|split]]]]].
  - split.
    + intros (_ & _ & H). vm_compute in H. discriminate.
    + intros c Hc. destruct c; try done; holds_by_computation.
  - run_split. split; [is_reachable 1%nat|is_not_reachable 1%nat].
  - split.
    + intros H. vm_compute in H. discriminate.
    + intros c Hc. destruct c; try done; holds_by_computation.
  - run_split. vm_compute. repeat split.
  - split.
    + intros H. vm_compute in H. discriminate.
    + intros c Hc. destruct c; try done; holds_by_computation.
  - run_split. split; [is_reachable 1%nat|is_not_reachable 1%nat].
  - split.
    + intros H. apply (H 0); [left|done].
    + intros c Hc. destruct c; try done; holds_by_computation.
  - run_split. split; [is_reachable 2%nat|is_not_reachable 1%nat].
  - split.
    + intros H. simpl in H. apply NoDup_cons in H as [H _]. apply H. left.
    + intros c Hc. destruct c; try done; holds_by_computation.
  - run_split. split; [is_reachable 3%nat|is_not_reachable 2%nat].
  - split.
    + intros H.
      eapply (H 1 2%nat _ (MkHandle DataTable 16384 _));
        [vm_compute; reflexivity|right; left|reflexivity|left].
    + intros c Hc. destruct c; try done; holds_by_computation.
  - run_split. split; [is_reachable 2%nat|is_not_reachable 2%nat].
Qed.

(** C6, as the code has it. On a DB that satisfies [splitReady] (the directory equation
    [nBlocks = 2^level + splitBlockIdx] with [nBlocks + 1 < 2^32], an index
    file of exactly [nBlocks] blocks, an allocator that hands out pairwise
    distinct non-zero offsets no block chain uses): a call of [split]
    returns nil when the file system reports no error, the chain of the
    block being split is read within the fuel, and its entries fit into the
    index block plus one overflow block per offset the allocator can
    supply. Every call that returns nil advances [splitBlockIdx] by one (when
    it reaches [1<<level], the level goes up by one and [splitBlockIdx] is 0
    again), raises [nBlocks] by one, and every entry that a probe from
    [blockIndex] of its hash found before the call is found by such a probe
    after it, as the same record. Every call whose [index.extend] fails
    returns that error and leaves the DB as it was. *)
Theorem successful_split_advances_and_keeps_entries_reachable
    (blockSize : Z) (freeOverflow : bool) (io : IO) (fuel : nat) (db : DB) :
  0 < blockSize ->
  splitReady blockSize db io ->
  (forall hs,
     chain blockSize fuel db IndexTable
       (blockOffset blockSize (splitBlockIdx (info db))) = Some hs ->
     (length (handlesEntries hs) <= entriesPerBlock * (length (allocs io) + 1))%nat ->
     extendErr io = None -> writeNewErr io = None -> writeUpdatedErr io = None ->
     exists db', split blockSize freeOverflow io fuel db = Some (None, db')) /\
  (forall db',
     split blockSize freeOverflow io fuel db = Some (None, db') ->
     (if decide (splitBlockIdx (info db) + 1 = Z.shiftl 1 (level (info db)))
      then level (info db') = level (info db) + 1 /\ splitBlockIdx (info db') = 0
      else level (info db') = level (info db) /\
           splitBlockIdx (info db') = splitBlockIdx (info db) + 1) /\
     nBlocks (info db') = nBlocks (info db) + 1 /\
     forall e, reachable blockSize db e -> reachable blockSize db' e) /\
  (forall err,
     extendErr io = Some err ->
     split blockSize freeOverflow io fuel db = Some (Some err, db)).
Proof.
  intros Hbs Hready. split_and!.
  - intros hs. by apply (split_succeeds blockSize Hbs).
  - intros db' Hsplit.
    pose proof Hready as (Hl & Hs & Hn & Hbound & _).
    assert (Hpow : 0 < 2 ^ level (info db)) by (apply Z.pow_pos_nonneg; lia).
    destruct (Directory.split_ok_info _ _ _ _ _ _ Hsplit) as [Hinfo _].
    split_and!.
    + rewrite Hinfo, Z.shiftl_1_l. cbn [bumpBlocks level splitBlockIdx].
      apply advance_next; lia.
    + rewrite Hinfo. cbn [bumpBlocks nBlocks].
      assert (nBlocks (advance (info db)) = nBlocks (info db)) as ->.
      { unfold advance. by case_match. }
      unfold wrap32. apply Z.mod_small. lia.
    + intros e. by apply (split_keeps_reachable blockSize Hbs freeOverflow io fuel).
  - intros err Herr. unfold split. by rewrite Herr.
Qed.

Lemma overflowDB_ready : splitReady 4096 overflowDB (ioOk [12288]).
Proof.
  unfold splitReady. simpl. split_and!; try lia; try reflexivity.
  - apply NoDup_singleton.
  - by intros x ->%list_elem_of_singleton.
  - intros i fuel hs h Hchain Hin Hdata.
    destruct fuel as [|fuel]; [done|]. cbn [chain] in Hchain.
    unfold readBlock, readIndexBlock in Hchain. case_decide as Hr; [|done].
    assert (i = 0) as ->.
    { unfold blockOffset in Hr. change (Z.of_nat headerSize) with 512 in Hr.
      change (fsize (index overflowDB)) with (512 + 4096) in Hr. lia. }
    change (fblocks (index overflowDB) !! blockOffset 4096 0)
      with (fblocks (index overflowDB) !! 512) in Hchain.
    unfold overflowDB in Hchain. cbn [fblocks index] in Hchain.
    rewrite lookup_singleton_eq in Hchain. cbn [default next] in Hchain.
    change (8192 =? 0) with false in Hchain. cbn [fmap] in Hchain.
    destruct fuel as [|fuel]; [done|]. cbn [chain readBlock data] in Hchain.
    rewrite lookup_singleton_eq in Hchain. cbn in Hchain.
    injection Hchain as <-.
    apply elem_of_cons in Hin as [->|Hin]; [done|].
    apply list_elem_of_singleton in Hin as ->. cbn.
    by intros ?%list_elem_of_singleton.
Qed.

Lemma successful_split_advances_and_keeps_entries_reachable_witness :
  0 < 4096 /\ splitReady 4096 overflowDB (ioOk [12288]) /\
  (forall hs,
     chain 4096 2 overflowDB IndexTable
       (blockOffset 4096 (splitBlockIdx (info overflowDB))) = Some hs ->
     (length (handlesEntries hs)
      <= entriesPerBlock * (length (allocs (ioOk [12288%Z])) + 1))%nat ->
     extendErr (ioOk [12288]) = None -> writeNewErr (ioOk [12288]) = None ->
     writeUpdatedErr (ioOk [12288]) = None ->
     exists db', split 4096 true (ioOk [12288]) 2 overflowDB = Some (None, db')) /\
  (forall db',
     split 4096 true (ioOk [12288]) 2 overflowDB = Some (None, db') ->
     (if decide (splitBlockIdx (info overflowDB) + 1
                 = Z.shiftl 1 (level (info overflowDB)))
      then level (info db') = level (info overflowDB) + 1 /\
           splitBlockIdx (info db') = 0
      else level (info db') = level (info overflowDB) /\
           splitBlockIdx (info db') = splitBlockIdx (info overflowDB) + 1) /\
     nBlocks (info db') = nBlocks (info overflowDB) + 1 /\
     forall e, reachable 4096 overflowDB e -> reachable 4096 db' e) /\
  (forall err,
     extendErr (ioOk [12288]) = Some err ->
     split 4096 true (ioOk [12288]) 2 overflowDB = Some (Some err, overflowDB)).
Proof.
  assert (H1 : 0 < 4096) by lia.
  split; [exact H1|]. split; [exact overflowDB_ready|].
  exact (successful_split_advances_and_keeps_entries_reachable
           4096 true (ioOk [12288]) 2 overflowDB H1 overflowDB_ready).
Defined.

(** Splitting [twoEntryDB] sends hash 2 to block 0 and hash 3 to the new
    block 1. Splitting [overflowDB], whose 23 hashes are all even, refills
    block 0 and puts the 23rd entry into a fresh overflow block at the offset
    12288 the allocator supplied; the old overflow block at 8192 is freed in
    the variant that frees, and block 1 stays empty. *)
Example split_examples :
  (exists db',
     split 4096 false (ioOk []) 1 twoEntryDB = Some (None, db') /\
     info db' = DbInfo 1 2 2 0 (-1) 0 /\
     handlesEntries <$> chain 4096 1 db' IndexTable (blockOffset 4096 0)
       = Some [MkEntry 2 1 1 0 800] /\
     handlesEntries <$> chain 4096 1 db' IndexTable (blockOffset 4096 1)
       = Some [MkEntry 3 1 1 0 900]) /\
  (exists db',
     split 4096 true (ioOk [12288]) 2 overflowDB = Some (None, db') /\
     freed db' = [8192] /\
     (fun hs => (offset <$> hs, length (handlesEntries hs)))
       <$> chain 4096 2 db' IndexTable (blockOffset 4096 0)
       = Some ([512; 12288], 23%nat) /\
     handlesEntries <$> chain 4096 2 db' IndexTable (blockOffset 4096 1) = Some [] /\
     split 4096 true (ioOk []) 2 overflowDB = Some (Some errFull, extended 4096 overflowDB)).
Proof.
  split; eexists; (split; [vm_compute; reflexivity|]); vm_compute; repeat split.
Qed.

End SplitReachability.

(** ** The seq sets and the operations of the trie *)
Module TrieOps.
Import Trie TrieOrphans.

Lemma contains_elem_of (ss : list Z) (v : Z) : contains ss v = bool_decide (v ∈ ss).
Proof.
  induction ss as [|x ss IH]; cbn [contains].
  - rewrite bool_decide_eq_false_2; [done|]. by intros ?%elem_of_nil.
  - destruct (decide (x = v)) as [->|Hne].
    + by rewrite bool_decide_eq_true_2 by by left.
    + rewrite IH. apply bool_decide_ext. rewrite elem_of_cons.
      split; [by right|]. by intros [?|?]; [congruence|].
Qed.

Lemma firstIndex_None (ss : list Z) (v : Z) : v ∉ ss -> firstIndex ss v = None.
Proof.
  induction ss as [|x ss IH]; simpl; [done|].
  intros [Hne Hn]%not_elem_of_cons.
  rewrite decide_False by congruence. by rewrite IH.
Qed.

Lemma firstIndex_app (l1 l2 : list Z) (v : Z) :
  v ∉ l1 -> firstIndex (l1 ++ v :: l2) v = Some (length l1).
Proof.
  induction l1 as [|x l1 IH]; simpl; intros Hn.
  - by rewrite decide_True.
  - apply not_elem_of_cons in Hn as [Hne Hn].
    rewrite decide_False by congruence. by rewrite IH.
Qed.

Lemma take_last_cons (l : list Z) (v : Z) :
  take (length l) (default v (last l) :: l) ≡ₚ l.
Proof.
  destruct l as [|x l _] using rev_ind; [done|].
  rewrite last_snoc, length_app. simpl.
  replace (length l + 1)%nat with (S (length l)) by lia.
  rewrite firstn_cons, take_app_length.
  by rewrite Permutation_app_comm.
Qed.

Lemma ssidRemove_app (l1 l2 : list Z) (v : Z) :
  v ∉ l1 ->
  ssidRemove (l1 ++ v :: l2) v
  = (l1 ++ take (length l2) (default v (last l2) :: l2), true).
Proof.
  intros Hn. unfold ssidRemove. rewrite firstIndex_app by done.
  rewrite last_app, last_cons.
  assert (Hl : match last l2 with Some y => Some y | None => Some v end
               = Some (default v (last l2))) by by destruct (last l2).
  rewrite Hl. f_equal.
  rewrite insert_app_r_alt by lia. rewrite Nat.sub_diag. simpl.
  rewrite length_app. simpl.
  replace (length l1 + S (length l2) - 1)%nat with (length l1 + length l2)%nat by lia.
  by rewrite take_app_add'.
Qed.

Lemma ssidRemove_snoc (ss : list Z) (v : Z) :
  v ∉ ss -> ssidRemove (ss ++ [v]) v = (ss, true).
Proof.
  intros Hn. rewrite ssidRemove_app by done. simpl. by rewrite app_nil_r.
Qed.

Lemma ssidRemove_notin (ss : list Z) (v : Z) :
  v ∉ ss -> ssidRemove ss v = (ss, false).
Proof. intros Hn. unfold ssidRemove. by rewrite firstIndex_None. Qed.

Lemma ssidRemove_in (ss : list Z) (v : Z) :
  v ∈ ss -> exists ss', ssidRemove ss v = (ss', true) /\ ss ≡ₚ v :: ss'.
Proof.
  intros Hin. apply list_elem_of_split_l in Hin as (l1 & l2 & -> & Hn).
  eexists. split; [by apply ssidRemove_app|].
  rewrite <- Permutation_middle. f_equiv. f_equiv.
  by rewrite take_last_cons.
Qed.

(** X1. ssid.remove returns true exactly when the value is in the set. It then
    takes out one occurrence and keeps every other element (the order may
    change); otherwise the set is left as it is. *)
Theorem ssid_remove_takes_out_one_occurrence (ss : list Z) (value : Z) :
  (ssidRemove ss value).2 = bool_decide (value ∈ ss) /\
  (if bool_decide (value ∈ ss)
   then ss ≡ₚ value :: (ssidRemove ss value).1
   else (ssidRemove ss value).1 = ss).
Proof.
  case_bool_decide as Hin.
  - destruct (ssidRemove_in ss value Hin) as (ss' & -> & Hp). done.
  - by rewrite ssidRemove_notin.
Qed.

(** X2. ssid.contains is membership. addUnique adds the value only when it is
    absent and reports whether it did, so a set without duplicates stays
    without duplicates, a second addUnique of the same value adds nothing,
    and remove of a value just added to a set that lacked it gives that
    set back. *)
Theorem ssid_addUnique_keeps_the_set_duplicate_free (ss : list Z) (value : Z) :
  contains ss value = bool_decide (value ∈ ss) /\
  (addUnique ss value).2 = negb (bool_decide (value ∈ ss)) /\
  (forall x, x ∈ (addUnique ss value).1 <-> x = value \/ x ∈ ss) /\
  (NoDup ss -> NoDup (addUnique ss value).1) /\
  (value ∉ ss -> ssidRemove (addUnique ss value).1 value = (ss, true)) /\
  addUnique (addUnique ss value).1 value = ((addUnique ss value).1, false).
Proof.
  split; [apply contains_elem_of|].
  unfold addUnique. rewrite contains_elem_of.
  case_bool_decide as Hin; simpl.
  - split_and!; [done| |done|done|].
    + intros x. split; [by right|]. by intros [->|?].
    + by rewrite contains_elem_of, bool_decide_eq_true_2.
  - split_and!; [done| | | |].
    + intros x. rewrite elem_of_app, list_elem_of_singleton. tauto.
    + intros Hnd. apply NoDup_app. split_and!; [done| |apply NoDup_singleton].
      intros x Hx ->%list_elem_of_singleton. done.
    + intros _. by apply ssidRemove_snoc.
    + rewrite contains_elem_of, bool_decide_eq_true_2; [done|].
      rewrite elem_of_app, list_elem_of_singleton. by right.
Qed.


Lemma part_eta (p : part) : MkNode (k p) (depth p) (ss p) (children p) = p.
Proof. by destruct p. Qed.

Lemma removeAt_addAt_any (d seq : Z) (parts : list Part) :
  forall curr, exists curr' orphaned,
    removeAt parts seq (addAt parts d seq curr) = Some (curr', true, orphaned).
Proof.
  induction parts as [|p parts IH]; intros curr; cbn [addAt removeAt].
  - cbn [ss]. destruct (ssidRemove_in (ss curr ++ [seq]) seq) as (ss' & -> & _).
    { rewrite elem_of_app, list_elem_of_singleton. by right. }
    by eexists _, _.
  - cbn [children]. rewrite lookup_insert_eq.
    match goal with |- context [addAt parts d seq ?c] =>
      destruct (IH c) as (c' & o & ->) end.
    destruct o; by eexists _, _.
Qed.

Lemma removeAt_addAt_fresh (d seq : Z) (parts : list Part) :
  forall node, isEmpty node = true ->
  exists node', removeAt parts seq (addAt parts d seq node) = Some (node', true, true) /\
                k node' = k node.
Proof.
  induction parts as [|p parts IH]; intros node [Hss Hch]%isEmpty_true;
    cbn [addAt removeAt].
  - cbn [ss]. rewrite Hss. rewrite ssidRemove_snoc by by intros ?%elem_of_nil.
    cbn [k depth children]. rewrite Hch.
    eexists. split; [reflexivity|done].
  - cbn [children]. rewrite lookup_insert_eq, Hch, lookup_empty.
    destruct (IH (MkNode (keyOf p) 0 [] ∅)) as (c' & -> & Hk); [done|].
    cbn [k] in Hk. rewrite Hk, delete_insert_eq, delete_empty.
    cbn [k depth ss]. rewrite Hss.
    eexists. split; [reflexivity|done].
Qed.

Lemma removeAt_addAt_restores (d seq : Z) (parts : list Part) :
  forall curr, good curr ->
  match descend curr (keyOf <$> parts) with
  | None => True
  | Some n => depth n = d /\ seq ∉ ss n
  end ->
  removeAt parts seq (addAt parts d seq curr) = Some (curr, true, isEmpty curr).
Proof.
  induction parts as [|p parts IH]; intros curr Hg Hd; cbn [addAt removeAt].
  - simpl in Hd. destruct Hd as [<- Hn]. cbn [ss].
    rewrite ssidRemove_snoc by done. cbn [k depth children].
    by rewrite part_eta.
  - cbn [children]. rewrite lookup_insert_eq.
    rewrite fmap_cons in Hd. cbn [descend] in Hd.
    destruct (children curr !! keyOf p) as [c|] eqn:Hc.
    + destruct (good_children _ _ _ Hg Hc) as (Hkc & Hec & Hgc).
      rewrite (IH c Hgc Hd), Hec. cbn [k depth ss].
      rewrite insert_insert_eq, insert_id by done.
      rewrite part_eta. do 2 f_equal. symmetry. apply isEmpty_false. right.
      intros Hch. by rewrite Hch, lookup_empty in Hc.
    + destruct (removeAt_addAt_fresh d seq parts (MkNode (keyOf p) 0 [] ∅))
        as (c' & -> & Hk); [done|].
      cbn [k] in Hk. rewrite Hk, delete_insert_eq. cbn [k depth ss].
      rewrite delete_id by done. by rewrite part_eta.
Qed.

(** X3. On a trie built by Add and Remove, Remove of a seq right after Add of
    it under the same parts returns true and leaves Count as it was before
    the Add. When the node of those parts did not exist before, or existed
    with the same depth and without the seq, the whole trie is as before
    the Add. *)
Theorem Remove_after_Add_restores_the_trie
    (t : Trie) (parts : list Part) (d seq : Z) :
  built t ->
  (Remove (Add t parts d seq).1 parts seq).2 = true /\
  count (Remove (Add t parts d seq).1 parts seq).1 = count t /\
  (match descend (root t) (keyOf <$> parts) with
   | None => True
   | Some n => depth n = d /\ seq ∉ ss n
   end ->
   (Remove (Add t parts d seq).1 parts seq).1 = t).
Proof.
  intros Hb. unfold Remove, Add. cbn [fst root count].
  destruct (removeAt_addAt_any d seq parts (root t)) as (c' & o & Hrm).
  rewrite Hrm. cbn [fst snd count]. split_and!; [done|lia|].
  intros Hd. rewrite (removeAt_addAt_restores d seq parts _ (built_good _ Hb) Hd) in Hrm.
  simplify_eq. destruct t as [r c]. cbn. f_equal. lia.
Qed.

Lemma Remove_after_Add_restores_the_trie_witness :
  built sampleTrie /\
  (Remove (Add sampleTrie [MkPart 1 0; MkPart 5 0] 2 9).1 [MkPart 1 0; MkPart 5 0] 9).1
  = sampleTrie.
Proof.
  assert (Hb : built sampleTrie) by (do 2 apply built_Add; apply built_new).
  split; [exact Hb|].
  apply (proj2 (proj2 (Remove_after_Add_restores_the_trie
                         sampleTrie [MkPart 1 0; MkPart 5 0] 2 9 Hb))).
  vm_compute. exact I.
Defined.

Lemma removeAt_absent (seq : Z) (parts : list Part) :
  forall curr node, good curr ->
  descend curr (keyOf <$> parts) = Some node -> seq ∉ ss node ->
  removeAt parts seq curr = Some (curr, false, isEmpty curr).
Proof.
  induction parts as [|p parts IH]; intros curr node Hg Hd Hn; cbn [removeAt].
  - simpl in Hd. simplify_eq. rewrite ssidRemove_notin by done.
    by rewrite part_eta.
  - rewrite fmap_cons in Hd. cbn [descend] in Hd.
    destruct (children curr !! keyOf p) as [c|] eqn:Hc; [|done].
    destruct (good_children _ _ _ Hg Hc) as (Hkc & Hec & Hgc).
    rewrite (IH c node Hgc Hd Hn), Hec.
    rewrite insert_id by done. rewrite part_eta.
    do 2 f_equal. symmetry. apply isEmpty_false. right.
    intros Hch. by rewrite Hch, lookup_empty in Hc.
Qed.

Lemma removeAt_no_path (seq : Z) (parts : list Part) :
  forall curr, descend curr (keyOf <$> parts) = None -> removeAt parts seq curr = None.
Proof.
  induction parts as [|p parts IH]; intros curr Hd; [done|].
  rewrite fmap_cons in Hd. cbn [descend removeAt] in *.
  destruct (children curr !! keyOf p) as [c|]; [|done].
  by rewrite (IH c Hd).
Qed.

(** X4. On a trie built by Add and Remove, Remove returns false and changes
    neither the nodes nor the count when the parts lead to no node or to a
    node that does not hold the seq. *)
Theorem Remove_of_an_absent_seq_changes_nothing
    (t : Trie) (parts : list Part) (seq : Z) :
  built t ->
  (forall node, descend (root t) (keyOf <$> parts) = Some node -> seq ∉ ss node) ->
  Remove t parts seq = (t, false).
Proof.
  intros Hb Hn. unfold Remove.
  destruct (descend (root t) (keyOf <$> parts)) as [node|] eqn:Hd.
  - rewrite (removeAt_absent seq parts _ node (built_good _ Hb) Hd (Hn _ eq_refl)).
    by destruct t.
  - by rewrite removeAt_no_path.
Qed.

Lemma Remove_of_an_absent_seq_changes_nothing_witness :
  built sampleTrie /\
  (forall node, descend (root sampleTrie) (keyOf <$> [MkPart 1 0; MkPart 2 0]) = Some node ->
                5 ∉ ss node) /\
  Remove sampleTrie [MkPart 1 0; MkPart 2 0] 5 = (sampleTrie, false).
Proof.
  assert (Hb : built sampleTrie) by (do 2 apply built_Add; apply built_new).
  assert (Hn : forall node, descend (root sampleTrie) (keyOf <$> [MkPart 1 0; MkPart 2 0]) = Some node ->
                5 ∉ ss node).
  { intros node. vm_compute. intros [= <-]. cbn.
    intros Hin. apply list_elem_of_singleton in Hin. discriminate. }
  split_and!; [exact Hb|exact Hn|].
  exact (Remove_of_an_absent_seq_changes_nothing sampleTrie [MkPart 1 0; MkPart 2 0] 5 Hb Hn).
Defined.


(** *** Count *)

Lemma stored_eq (p : part) : stored p = (length (ss p) + storedBelow (children p))%nat.
Proof. by destruct p. Qed.

Lemma storedBelow_insert_fresh (ch : gmap key part) kk c :
  ch !! kk = None -> storedBelow (<[kk := c]> ch) = (stored c + storedBelow ch)%nat.
Proof.
  intros Hn. unfold storedBelow. rewrite map_fold_insert_L; [done| |done].
  intros. cbv beta. lia.
Qed.

Lemma storedBelow_delete (ch : gmap key part) kk c :
  ch !! kk = Some c -> storedBelow ch = (stored c + storedBelow (delete kk ch))%nat.
Proof.
  intros Hc. unfold storedBelow. rewrite (map_fold_delete_L _ _ kk c); [done| |done].
  intros. cbv beta. lia.
Qed.

Lemma storedBelow_insert (ch : gmap key part) kk c :
  (storedBelow (<[kk := c]> ch) + from_option stored 0%nat (ch !! kk)
   = stored c + storedBelow ch)%nat.
Proof.
  destruct (ch !! kk) as [c0|] eqn:Hc; simpl.
  - rewrite <- (insert_delete_eq ch kk c).
    rewrite storedBelow_insert_fresh by apply lookup_delete_eq.
    rewrite (storedBelow_delete ch kk c0) by done. lia.
  - rewrite storedBelow_insert_fresh by done. lia.
Qed.

Lemma stored_addAt (parts : list Part) (d seq : Z) :
  forall curr, stored (addAt parts d seq curr) = S (stored curr).
Proof.
  induction parts as [|p parts IH]; intros curr; cbn [addAt];
    rewrite !stored_eq; cbn [ss children].
  - rewrite length_app. simpl. lia.
  - pose proof (storedBelow_insert (children curr) (keyOf p)
      (addAt parts d seq (match children curr !! keyOf p with
                          | Some c => c | None => MkNode (keyOf p) 0 [] ∅ end))) as H.
    rewrite IH in H. destruct (children curr !! keyOf p); cbn [from_option] in H; [lia|].
    change (stored (MkNode (keyOf p) 0 [] ∅)) with 0%nat in H. lia.
Qed.

Lemma stored_isEmpty (p : part) : isEmpty p = true -> stored p = 0%nat.
Proof.
  intros [Hss Hch]%isEmpty_true. rewrite stored_eq, Hss, Hch. done.
Qed.

Lemma ssidRemove_length (ss : list Z) (v : Z) :
  (length (ssidRemove ss v).1 + (if (ssidRemove ss v).2 then 1 else 0) = length ss)%nat.
Proof.
  destruct (decide (v ∈ ss)) as [Hin|Hn].
  - destruct (ssidRemove_in ss v Hin) as (ss' & -> & Hp). simpl.
    rewrite Hp. simpl. lia.
  - rewrite ssidRemove_notin by done. simpl. lia.
Qed.

Lemma stored_removeAt (parts : list Part) (seq : Z) :
  forall curr curr' removed orphaned,
  good curr ->
  removeAt parts seq curr = Some (curr', removed, orphaned) ->
  (stored curr' + (if removed then 1 else 0) = stored curr)%nat.
Proof.
  induction parts as [|p parts IH]; intros curr curr' removed orphaned Hg; cbn [removeAt].
  - pose proof (ssidRemove_length (ss curr) seq) as Hl.
    destruct (ssidRemove (ss curr) seq) as [ss' r]. intros [= <- <- <-].
    rewrite !stored_eq. cbn [ss children]. simpl in Hl. lia.
  - destruct (children curr !! keyOf p) as [child|] eqn:Hc; [|done].
    destruct (good_children _ _ _ Hg Hc) as (Hkc & _ & Hgc).
    destruct (removeAt parts seq child) as [[[child' r] o]|] eqn:Hrm; [|done].
    destruct (removeAt_good _ _ _ _ _ _ Hgc Hrm) as (_ & Hkc' & ->).
    specialize (IH _ _ _ _ Hgc Hrm).
    destruct (isEmpty child') eqn:He; intros [= <- <- <-];
      rewrite !stored_eq; cbn [ss children].
    + rewrite Hkc', Hkc. rewrite (storedBelow_delete (children curr) _ _ Hc).
      rewrite (stored_isEmpty _ He) in IH. lia.
    + pose proof (storedBelow_insert (children curr) (keyOf p) child') as H.
      rewrite Hc in H. cbn [from_option] in H. lia.
Qed.

(** X5. On a trie built by Add and Remove, the counter that Count returns
    equals the number of seqs held in all nodes together. *)
Theorem Count_is_the_number_of_stored_seqs (t : Trie) :
  built t -> count t = Z.of_nat (stored (root t)).
Proof.
  induction 1 as [|t parts d seq Hb IH|t parts seq Hb IH].
  - reflexivity.
  - cbn [Add fst root count]. rewrite stored_addAt. lia.
  - unfold Remove.
    destruct (removeAt parts seq (root t)) as [[[r' rm] o]|] eqn:Hrm; [|done].
    cbn [fst root count].
    pose proof (stored_removeAt _ _ _ _ _ _ (built_good _ Hb) Hrm) as Hs.
    destruct rm; lia.
Qed.

Lemma Count_is_the_number_of_stored_seqs_witness :
  built sampleTrie /\ count sampleTrie = Z.of_nat (stored (root sampleTrie)).
Proof.
  assert (Hb : built sampleTrie) by (do 2 apply built_Add; apply built_new).
  split; [exact Hb|].
  exact (Count_is_the_number_of_stored_seqs sampleTrie Hb).
Defined.

(** *** Lookup *)

Lemma height_child (p : part) kk c : children p !! kk = Some c -> (height c < height p)%nat.
Proof.
  destruct p as [k0 d0 s0 ch]. cbn [children height]. intros Hc.
  apply Nat.lt_succ_r. revert Hc.
  apply (map_fold_weak_ind
           (fun (r : nat) (m : gmap key part) => m !! kk = Some c -> (height c <= r)%nat)).
  - by rewrite lookup_empty.
  - intros i x m r _ IH. destruct (decide (i = kk)) as [->|Hne].
    + rewrite lookup_insert_eq. intros [= ->]. lia.
    + rewrite lookup_insert_ne by done. intros H%IH. lia.
Qed.

Lemma part_children_ind (P : part -> Prop) :
  (forall p, (forall kk c, children p !! kk = Some c -> P c) -> P p) -> forall p, P p.
Proof.
  intros step p. remember (height p) as n eqn:Hn.
  assert (Hle : (height p <= n)%nat) by lia. clear Hn. revert p Hle.
  induction n as [|n IH]; intros p Hle.
  - apply step. intros kk c Hc%height_child. lia.
  - apply step. intros kk c Hc%height_child. apply IH. lia.
Qed.

Section LookupProofs.
Variable TopicMaxDepth : Z.

Lemma ilookup_eq (p : part) (parts : list Part) (depth : Z) (acc : list Z) :
  ilookup TopicMaxDepth p parts depth acc
  = let acc := if depthMatches TopicMaxDepth (Trie.depth p) depth
               then acc ++ ss p else acc in
    match parts with
    | [] => acc
    | q :: _ =>
        map_fold (fun kk c acc =>
                    if (query kk =? Query q)
                       && (uint8 (wildchars kk + 1) <=? uint8 (Z.of_nat (length parts)))
                    then ilookup TopicMaxDepth c
                           (drop (Z.to_nat (uint8 (wildchars kk + 1))) parts) depth acc
                    else acc)
                 acc (children p)
    end.
Proof. by destruct p. Qed.

Lemma map_fold_keeps {B} (f : key -> part -> list B -> list B) (x : B)
    (ch : gmap key part) (acc : list B) :
  (forall kk c r, ch !! kk = Some c -> x ∈ r -> x ∈ f kk c r) ->
  x ∈ acc -> x ∈ map_fold f acc ch.
Proof.
  intros Hf Hacc.
  cut (ch ⊆ ch -> x ∈ map_fold f acc ch); [by auto|].
  apply (map_fold_weak_ind (fun r (m : gmap key part) => m ⊆ ch -> x ∈ r)); [done|].
  intros i c m r Hi IH Hsub. apply Hf.
  - eapply lookup_weaken; [|done]. apply lookup_insert_eq.
  - apply IH. etrans; [|done]. by apply insert_subseteq.
Qed.

Lemma map_fold_hits {B} (f : key -> part -> list B -> list B) (x : B)
    (ch : gmap key part) (acc : list B) kk c :
  (forall kk c r, ch !! kk = Some c -> x ∈ r -> x ∈ f kk c r) ->
  ch !! kk = Some c -> (forall r, x ∈ f kk c r) ->
  x ∈ map_fold f acc ch.
Proof.
  intros Hf Hc Hhit.
  cut (ch ⊆ ch -> ch !! kk = Some c -> x ∈ map_fold f acc ch); [by auto|].
  apply (map_fold_weak_ind
           (fun r (m : gmap key part) => m ⊆ ch -> m !! kk = Some c -> x ∈ r)).
  - by rewrite lookup_empty.
  - intros i c' m r Hi IH Hsub. destruct (decide (i = kk)) as [->|Hne].
    + rewrite lookup_insert_eq. intros [= ->]. apply Hhit.
    + rewrite lookup_insert_ne by done. intros Hm. apply Hf.
      * eapply lookup_weaken; [|done]. apply lookup_insert_eq.
      * apply IH; [|done]. etrans; [|done]. by apply insert_subseteq.
Qed.

Lemma ilookup_keeps (x : Z) :
  forall p parts depth acc,
  x ∈ acc -> x ∈ ilookup TopicMaxDepth p parts depth acc.
Proof.
  intros p. induction p as [p IH] using part_children_ind.
  intros parts depth acc Hx. rewrite ilookup_eq. cbv zeta.
  assert (Hx' : x ∈ (if depthMatches TopicMaxDepth (Trie.depth p) depth
                     then acc ++ ss p else acc)).
  { destruct (depthMatches _ _ _); [|done]. apply elem_of_app. by left. }
  destruct parts as [|q parts]; [done|].
  apply map_fold_keeps; [|done].
  intros kk c r Hc Hr. destruct (_ && _); [|done]. by eapply IH.
Qed.

Lemma ilookup_addAt (parts : list Part) (depth seq : Z) :
  Forall (fun p => Wildchars p = 0) parts ->
  (length parts < 256)%nat ->
  forall curr acc,
  seq ∈ ilookup TopicMaxDepth (addAt parts depth seq curr) parts depth acc.
Proof.
  induction parts as [|p parts IH]; intros Hw Hlen curr acc;
    rewrite ilookup_eq; cbn [addAt Trie.depth ss children]; cbv zeta.
  - unfold depthMatches. rewrite Z.eqb_refl. simpl.
    rewrite !elem_of_app, list_elem_of_singleton. auto.
  - apply Forall_cons in Hw as [Hw0 Hw]. cbn [length] in Hlen.
    eapply map_fold_hits; [|apply lookup_insert_eq|].
    + intros kk c r _ Hr. destruct (_ && _); [|done]. by apply ilookup_keeps.
    + intros r. cbn [keyOf query wildchars]. rewrite Hw0, Z.eqb_refl.
      change (uint8 (0 + 1)) with 1.
      assert (Hu : (1 <=? uint8 (Z.of_nat (length (p :: parts)))) = true).
      { apply Z.leb_le. unfold uint8. cbn [length].
        rewrite Z.mod_small by lia. lia. }
      rewrite Hu. simpl. rewrite drop_0. apply IH; [done|lia].
Qed.

(** X6. A seq added under fewer than 256 parts without wildcards, with the
    depth that Lookup computes for those parts, is among the seqs that
    Lookup of the same parts returns. *)
Theorem Lookup_finds_a_seq_added_under_the_same_topic
    (t : Trie) (parts : list Part) (seq : Z) :
  Forall (fun p => Wildchars p = 0) parts ->
  (length parts < 256)%nat ->
  seq ∈ Lookup TopicMaxDepth
          (Add t parts (uint8 (Z.of_nat (length parts) - 1)) seq).1 parts.
Proof. intros Hw Hlen. unfold Lookup, Add. cbn [fst root]. by apply ilookup_addAt. Qed.

End LookupProofs.

Lemma Lookup_finds_a_seq_added_under_the_same_topic_witness :
  Forall (fun p => Wildchars p = 0) [MkPart 1 0; MkPart 5 0] /\
  (length [MkPart 1 0; MkPart 5 0] < 256)%nat /\
  9 ∈ Lookup 100 (Add sampleTrie [MkPart 1 0; MkPart 5 0] 1 9).1 [MkPart 1 0; MkPart 5 0].
Proof.
  assert (Hw : Forall (fun p => Wildchars p = 0) [MkPart 1 0; MkPart 5 0])
    by (repeat constructor).
  assert (Hlen : (length [MkPart 1 0; MkPart 5 0] < 256)%nat) by (simpl; lia).
  split_and!; [exact Hw|exact Hlen|].
  exact (Lookup_finds_a_seq_added_under_the_same_topic 100 sampleTrie
           [MkPart 1 0; MkPart 5 0] 9 Hw Hlen).
Defined.

End TrieOps.

(** ** Frames of the batch buffer: [PutEntry], [DeleteEntry], [append], [Write] *)
Module BatchFrames.
Import Batch.














Lemma writeFrame_err env b del k data err b' :
  writeFrame env b del k data = (Some err, b') ->
  index b' = index b /\ size b' = size b /\ entryCount b' = entryCount b /\
  pendingWrites b' = pendingWrites b /\ topics b' = topics b /\
  let scratch := Binary.PutUint32 ((Z.of_nat (length data) + 4) mod 2 ^ 32) in
  (bufferWriteErr env (buffer b) scratch <> None /\
   buffer b' = failedWrite env (buffer b) scratch) \/
  (bufferWriteErr env (buffer b) scratch = None /\
   bufferWriteErr env (buffer b ++ scratch) data <> None /\
   buffer b' = failedWrite env (buffer b ++ scratch) data).
Proof.
  unfold writeFrame, Buffer_Write.
  set (scratch := Binary.PutUint32 _).
  destruct (bufferWriteErr env (buffer b) scratch) eqn:H1.
  { intros [= _ <-]. cbn [index size entryCount pendingWrites topics buffer setBuffer].
    split_and!; try done. left. by split. }
  cbn [buffer setBuffer].
  destruct (bufferWriteErr env (buffer b ++ scratch) data) eqn:H2; [|done].
  intros [= _ <-]. cbn [index size entryCount pendingWrites topics buffer setBuffer].
  split_and!; try done. right. by split_and!.
Qed.

(** The last steps of [PutEntry] and [DeleteEntry] on the batch [b0] that
    differs from [b] in its topics only. *)
Lemma put_or_delete_cases env enc imm (del : bool) b e r b' :
  (if del then DeleteEntry env imm b e else PutEntry env enc b e) = (r, b') ->
  (r <> None /\ b' = b) \/
  (r <> None /\ exists t, b' = setTopics b t) \/
  exists t k data, writeFrame env (setTopics b t) del k data = (r, b') /\
                   (del = false -> AllowDuplicates b = true -> k = 0).
Proof.
  destruct del.
  - unfold DeleteEntry. destruct imm; [intros [= <- <-]; by left|].
    destruct (length (eID e) =? 0)%nat; [intros [= <- <-]; by left|].
    destruct (length (eTopic e) =? 0)%nat; [intros [= <- <-]; by left|].
    destruct (maxTopicLength env <? length (eTopic e))%nat; [intros [= <- <-]; by left|].
    destruct (parseTopic env _ _) as [err|[topic ttl]]; [intros [= <- <-]; by left|].
    destruct (packEntry env _) as [err|data]; [intros [= <- <-]; by left|].
    intros Hw. right. right. eexists (topics b), _, data.
    replace (setTopics b (topics b)) with b by by destruct b.
    split; [exact Hw|done].
  - unfold PutEntry.
    destruct (length (eTopic e) =? 0)%nat; [intros [= <- <-]; by left|].
    destruct (maxTopicLength env <? length (eTopic e))%nat; [intros [= <- <-]; by left|].
    destruct (length (ePayload e) =? 0)%nat; [intros [= <- <-]; by left|].
    destruct (maxValueLength env <? length (ePayload e))%nat; [intros [= <- <-]; by left|].
    destruct (parseTopic env _ _) as [err|[topic ttl]]; [intros [= <- <-]; by left|].
    destruct (setEntry env _ ttl) as [[err|] e1]; [intros [= <- <-]; by left|].
    destruct (topics b !! etopicHash e1) eqn:Ht.
    + destruct (packEntry env _) as [err|data]; [intros [= <- <-]; by left|].
      intros Hw. right. right. eexists (topics b), _, data.
      replace (setTopics b (topics b)) with b by by destruct b.
      split; [exact Hw|]. by intros _ ->.
    + destruct (packEntry env _) as [err|data].
      { intros [= <- <-]. right. left. split; [done|]. by eexists. }
      intros Hw. right. right. eexists _, _, data.
      split; [exact Hw|]. by intros _ ->.
Qed.





(** X8. PutEntry rejects an empty topic, a topic longer than maxTopicLength,
    an empty payload and a payload longer than maxValueLength, in this
    order; DeleteEntry rejects an immutable batch, an empty ID, an empty
    topic and a topic that is too long, in this order. Each of these
    returns leaves the batch as it was. *)
Theorem PutEntry_and_DeleteEntry_check_their_arguments_first
    (env : PutEnv) (Encryption Immutable : bool) (b : Batch) (e : Entry) :
  (eTopic e = [] ->
   PutEntry env Encryption b e = (Some (PutErr errTopicEmpty), b)) /\
  (eTopic e <> [] -> (maxTopicLength env < length (eTopic e))%nat ->
   PutEntry env Encryption b e = (Some errTopicTooLarge, b)) /\
  (eTopic e <> [] -> (length (eTopic e) <= maxTopicLength env)%nat -> ePayload e = [] ->
   PutEntry env Encryption b e = (Some errValueEmpty, b)) /\
  (eTopic e <> [] -> (length (eTopic e) <= maxTopicLength env)%nat -> ePayload e <> [] ->
   (maxValueLength env < length (ePayload e))%nat ->
   PutEntry env Encryption b e = (Some errValueTooLarge, b)) /\
  (Immutable = true -> DeleteEntry env Immutable b e = (Some errImmutable, b)) /\
  (Immutable = false -> eID e = [] ->
   DeleteEntry env Immutable b e = (Some errMsgIDEmpty, b)) /\
  (Immutable = false -> eID e <> [] -> eTopic e = [] ->
   DeleteEntry env Immutable b e = (Some (PutErr errTopicEmpty), b)) /\
  (Immutable = false -> eID e <> [] -> eTopic e <> [] ->
   (maxTopicLength env < length (eTopic e))%nat ->
   DeleteEntry env Immutable b e = (Some errTopicTooLarge, b)).
Proof.
  assert (Hnil : forall l : list Z, l <> [] -> (length l =? 0)%nat = false).
  { intros [|x l] Hl; [done|reflexivity]. }
  unfold PutEntry, DeleteEntry. split_and!.
  - by intros ->.
  - intros Ht Hlen. rewrite (Hnil _ Ht).
    by rewrite (proj2 (Nat.ltb_lt _ _) Hlen).
  - intros Ht Hlen ->. rewrite (Hnil _ Ht).
    by rewrite (proj2 (Nat.ltb_ge _ _) Hlen).
  - intros Ht Hlen Hp Hplen. rewrite (Hnil _ Ht), (Hnil _ Hp).
    rewrite (proj2 (Nat.ltb_ge _ _) Hlen). by rewrite (proj2 (Nat.ltb_lt _ _) Hplen).
  - by intros ->.
  - by intros -> ->.
  - intros -> Hid ->. by rewrite (Hnil _ Hid).
  - intros -> Hid Ht Hlen. rewrite (Hnil _ Hid), (Hnil _ Ht).
    by rewrite (proj2 (Nat.ltb_lt _ _) Hlen).
Qed.

(** X9. A PutEntry or DeleteEntry that returns an error changes neither index,
    size, entryCount nor pendingWrites. The buffer is as it was unless one
    of the two writes to it failed; then it holds what that failed write
    left: of the buffer as it was when the write of the four length bytes
    failed, of the buffer with the four length bytes appended when the write
    of the packed entry failed after them. *)
Theorem failed_put_or_delete_adds_no_index_entry
    (env : PutEnv) (Encryption Immutable del : bool)
    (b : Batch) (e : Entry) (err : putError) (b' : Batch) :
  (if del then DeleteEntry env Immutable b e else PutEntry env Encryption b e)
    = (Some err, b') ->
  index b' = index b /\ size b' = size b /\ entryCount b' = entryCount b /\
  pendingWrites b' = pendingWrites b /\
  (buffer b' = buffer b \/
   exists data,
     let scratch := Binary.PutUint32 ((Z.of_nat (length data) + 4) mod 2 ^ 32) in
     (bufferWriteErr env (buffer b) scratch <> None /\
      buffer b' = failedWrite env (buffer b) scratch) \/
     (bufferWriteErr env (buffer b) scratch = None /\
      bufferWriteErr env (buffer b ++ scratch) data <> None /\
      buffer b' = failedWrite env (buffer b ++ scratch) data)).
Proof.
  intros Hput.
  destruct (put_or_delete_cases _ _ _ _ _ _ _ _ Hput)
    as [[_ ->]|[[_ [t ->]]|(t & k & data & Hw & _)]].
  - split_and!; try done. by left.
  - split_and!; try done. by left.
  - apply writeFrame_err in Hw as (-> & -> & -> & -> & _ & Hbuf). cbn in *.
    split_and!; try done. right. by exists data.
Qed.

Lemma failed_put_or_delete_adds_no_index_entry_witness :
  exists b',
    PutEntry shortBufferEnv false emptyBatch sampleEntry
      = (Some (PutErr (errIO "writeAt")), b') /\
    index b' = index emptyBatch /\ size b' = size emptyBatch /\
    entryCount b' = entryCount emptyBatch /\
    buffer b' = [8; 0; 0; 0] ++ [0; 0; 0; 0].
Proof.
  assert (H : (if false then DeleteEntry shortBufferEnv false emptyBatch sampleEntry
               else PutEntry shortBufferEnv false emptyBatch sampleEntry)
              = (Some (PutErr (errIO "writeAt")),
                 (PutEntry shortBufferEnv false emptyBatch sampleEntry).2))
    by reflexivity.
  destruct (failed_put_or_delete_adds_no_index_entry
              shortBufferEnv false false false emptyBatch sampleEntry _ _ H)
    as (Hi & Hs & Hc & _).
  eexists. split; [exact H|]. split; [exact Hi|]. split; [exact Hs|].
  split; [exact Hc|reflexivity].
Defined.









Lemma PutEntry_and_DeleteEntry_check_their_arguments_first_witness :
  Z.of_nat (length (eID sampleEntry)) = 1 /\
  DeleteEntry samplePutEnv true emptyBatch sampleEntry = (Some errImmutable, emptyBatch).
Proof.
  split; [reflexivity|].
  exact (proj1 (proj2 (proj2 (proj2 (proj2
           (PutEntry_and_DeleteEntry_check_their_arguments_first
              samplePutEnv false true emptyBatch sampleEntry))))) eq_refl).
Defined.

End BatchFrames.

(** ** Decoding a header and encoding it again *)
Module HeaderDecode.
Import Binary Header HeaderCodec.

Lemma Uint32_of_bytes (b0 b1 b2 b3 : Z) :
  isByte b0 -> isByte b1 -> isByte b2 -> isByte b3 ->
  Z.lor (Z.lor (Z.lor b0 (Z.shiftl b1 8)) (Z.shiftl b2 16)) (Z.shiftl b3 24)
  = b0 + b1 * 2 ^ 8 + b2 * 2 ^ 16 + b3 * 2 ^ 24.
Proof.
  unfold isByte. intros H0 H1 H2 H3.
  rewrite (lor_shiftl_add _ _ 8) by lia.
  rewrite (lor_shiftl_add _ _ 16) by lia.
  rewrite (lor_shiftl_add _ _ 24) by lia. done.
Qed.

Lemma PutUint32_of_bytes (b0 b1 b2 b3 : Z) :
  isByte b0 -> isByte b1 -> isByte b2 -> isByte b3 ->
  PutUint32 (b0 + b1 * 2 ^ 8 + b2 * 2 ^ 16 + b3 * 2 ^ 24) = [b0; b1; b2; b3].
Proof.
  unfold isByte. intros H0 H1 H2 H3. unfold PutUint32, byte.
  rewrite !Z.shiftr_div_pow2 by lia.
  change (2 ^ 8) with 256. change (2 ^ 16) with 65536. change (2 ^ 24) with 16777216.
  repeat f_equal; Z.to_euclidean_division_equations; lia.
Qed.

Lemma Uint64_of_bytes (b0 b1 b2 b3 b4 b5 b6 b7 : Z) :
  isByte b0 -> isByte b1 -> isByte b2 -> isByte b3 ->
  isByte b4 -> isByte b5 -> isByte b6 -> isByte b7 ->
  Z.lor (Z.lor (Z.lor (Z.lor (Z.lor (Z.lor (Z.lor b0 (Z.shiftl b1 8))
     (Z.shiftl b2 16)) (Z.shiftl b3 24)) (Z.shiftl b4 32))
     (Z.shiftl b5 40)) (Z.shiftl b6 48)) (Z.shiftl b7 56)
  = b0 + b1 * 2 ^ 8 + b2 * 2 ^ 16 + b3 * 2 ^ 24 + b4 * 2 ^ 32 + b5 * 2 ^ 40
    + b6 * 2 ^ 48 + b7 * 2 ^ 56.
Proof.
  unfold isByte. intros H0 H1 H2 H3 H4 H5 H6 H7.
  rewrite (lor_shiftl_add _ _ 8) by lia.
  rewrite (lor_shiftl_add _ _ 16) by lia.
  rewrite (lor_shiftl_add _ _ 24) by lia.
  rewrite (lor_shiftl_add _ _ 32) by lia.
  rewrite (lor_shiftl_add _ _ 40) by lia.
  rewrite (lor_shiftl_add _ _ 48) by lia.
  rewrite (lor_shiftl_add _ _ 56) by lia. done.
Qed.

Lemma PutUint64_of_bytes (b0 b1 b2 b3 b4 b5 b6 b7 : Z) :
  isByte b0 -> isByte b1 -> isByte b2 -> isByte b3 ->
  isByte b4 -> isByte b5 -> isByte b6 -> isByte b7 ->
  PutUint64 (b0 + b1 * 2 ^ 8 + b2 * 2 ^ 16 + b3 * 2 ^ 24 + b4 * 2 ^ 32 + b5 * 2 ^ 40
             + b6 * 2 ^ 48 + b7 * 2 ^ 56)
  = [b0; b1; b2; b3; b4; b5; b6; b7].
Proof.
  unfold isByte. intros H0 H1 H2 H3 H4 H5 H6 H7. unfold PutUint64, byte.
  rewrite !Z.shiftr_div_pow2 by lia.
  change (2 ^ 8) with 256. change (2 ^ 16) with 65536. change (2 ^ 24) with 16777216.
  change (2 ^ 32) with 4294967296. change (2 ^ 40) with 1099511627776.
  change (2 ^ 48) with 281474976710656. change (2 ^ 56) with 72057594037927936.
  repeat f_equal; Z.to_euclidean_division_equations; lia.
Qed.

Lemma uint64_int64_roundtrip (u : Z) :
  0 <= u < 2 ^ 64 -> uint64_of_int64 (int64_of_uint64 u) = u.
Proof.
  intros Hu. unfold int64_of_uint64, uint64_of_int64.
  change (2 ^ 63) with 9223372036854775808 in *.
  change (2 ^ 64) with 18446744073709551616 in *.
  case_match; [apply Z.ltb_lt in H|apply Z.ltb_ge in H];
    Z.to_euclidean_division_equations; lia.
Qed.

Lemma int64_of_uint64_range (u : Z) :
  0 <= u < 2 ^ 64 -> - 2 ^ 63 <= int64_of_uint64 u < 2 ^ 63.
Proof.
  intros Hu. unfold int64_of_uint64.
  change (2 ^ 63) with 9223372036854775808 in *.
  change (2 ^ 64) with 18446744073709551616 in *.
  case_match; [apply Z.ltb_lt in H|apply Z.ltb_ge in H]; lia.
Qed.


Lemma slice_prefix (data : list Z) (lo hi n : nat) :
  (hi <= n)%nat -> (n <= length data)%nat ->
  slice data lo hi = slice (take n data) lo hi.
Proof.
  intros Hhi Hn. unfold slice. rewrite length_take.
  destruct (decide (lo <= hi <= length data)%nat) as [H|H].
  - rewrite decide_True by lia. f_equal.
    rewrite <- (take_drop n data) at 1.
    rewrite drop_app_le by (rewrite length_take; lia).
    rewrite take_app_le; [done|]. rewrite length_drop, length_take. lia.
  - rewrite decide_False by lia. done.
Qed.

Lemma UnmarshalBinary_prefix (h : header) (data : list Z) :
  (37 <= length data)%nat ->
  UnmarshalBinary h data = UnmarshalBinary h (take 37 data).
Proof.
  intros Hlen. unfold UnmarshalBinary.
  rewrite (slice_prefix data 0 8 37), (slice_prefix data 8 12 37),
    (slice_prefix data 13 17 37), (slice_prefix data 17 21 37),
    (slice_prefix data 21 25 37), (slice_prefix data 25 33 37),
    (slice_prefix data 33 37 37) by lia.
  by rewrite (lookup_take_lt data 37 12) by lia.
Qed.

(** X12. UnmarshalBinary reads a header from any 37 bytes or more without
    checking them. MarshalBinary of that header gives 512 bytes that agree
    with the input on bytes 0 to 6 and 8 to 36 and are zero everywhere
    else. *)
Theorem header_unmarshal_then_marshal_keeps_the_encoded_bytes (data : list Z) :
  Forall isByte data -> (37 <= length data)%nat ->
  exists h,
    UnmarshalBinary zeroHeader data = Some h /\ validHeader h /\
    MarshalBinary h
    = Some (take 7 data ++ [0] ++ take 29 (drop 8 data) ++ replicate 475 0).
Proof.
  intros Hbytes Hlen. rewrite UnmarshalBinary_prefix by done.
  assert (Ht : Forall isByte (take 37 data)) by by apply Forall_take.
  assert (H7 : take 7 data = take 7 (take 37 data)) by (rewrite take_take; f_equal; lia).
  assert (H29 : take 29 (drop 8 data) = take 29 (drop 8 (take 37 data))).
  { change 37%nat with (8 + 29)%nat.
    by rewrite <- take_drop_commute, take_take. }
  rewrite H7, H29.
  assert (Hl : length (take 37 data) = 37%nat) by (rewrite length_take; lia).
  clear H7 H29 Hbytes Hlen. revert Ht Hl. generalize (take 37 data). clear data.
  intros data Hbytes Hlen.
  do 37 (destruct data as [|? data]; [done|]). destruct data; [|done]. clear Hlen.
  repeat match goal with
         | H : Forall isByte (_ :: _) |- _ => apply Forall_cons in H as [? H]
         end.
  eexists. split; [cbv -[Z.lor Z.shiftl int64_of_uint64]; reflexivity|].
  rewrite Uint64_of_bytes by done. rewrite !Uint32_of_bytes by done.
  split.
  - unfold validHeader. cbn [signature version info level count nBlocks splitBlockIdx
                             freelistOff hashSeed zeroHeader copy length take drop app
                             replicate].
    unfold isByte in *. split_and!; try done; try lia.
    + repeat constructor; lia.
    + apply int64_of_uint64_range. lia.
    + apply int64_of_uint64_range. lia.
  - rewrite MarshalBinary_layout by reflexivity. f_equal. unfold layout.
    cbn [signature version info level count nBlocks splitBlockIdx freelistOff hashSeed
         zeroHeader copy length take drop app replicate].
    rewrite uint64_int64_roundtrip by (unfold isByte in *; lia).
    rewrite !PutUint32_of_bytes, PutUint64_of_bytes by done.
    reflexivity.
Qed.


Lemma header_unmarshal_then_marshal_keeps_the_encoded_bytes_witness :
  Forall isByte (replicate 40 7) /\ (37 <= length (replicate 40 7))%nat /\
  exists h,
    UnmarshalBinary zeroHeader (replicate 40 7) = Some h /\ validHeader h /\
    MarshalBinary h
    = Some (take 7 (replicate 40 7) ++ [0] ++ take 29 (drop 8 (replicate 40 7))
            ++ replicate 475 0).
Proof.
  assert (H1 : Forall isByte (replicate 40 7)).
  { apply Forall_replicate. unfold isByte. lia. }
  assert (H2 : (37 <= length (replicate 40 7))%nat) by (rewrite length_replicate; lia).
  split; [exact H1|]. split; [exact H2|].
  exact (header_unmarshal_then_marshal_keeps_the_encoded_bytes (replicate 40 7) H1 H2).
Defined.

End HeaderDecode.

Module BPoolFacts.
Import BPool.

Lemma reachable_inv (pool : BufferPool) :
  reachable pool ->
  (length (buf pool) <= Batch.maxPoolSize)%nat /\ Forall (fun b => b = []) (buf pool) /\
  targetSize pool <= maxBufferSize.
Proof.
  induction 1 as [size|pool _ (Hlen & Hall & Ht)|pool b _ (Hlen & Hall & Ht)
                 |pool _ (Hlen & Hall & Ht)].
  - cbn. split_and!; [lia|constructor|]. case_match; [lia|]. by apply Z.ltb_ge.
  - unfold Get. destruct (buf pool) as [|b rest] eqn:Hb; cbn [snd buf targetSize].
    + rewrite Hb. done.
    + cbn in Hlen. apply Forall_cons in Hall as [_ Hall]. split_and!; [lia|done..].
  - unfold Put, Batch.BufferPool_Put. cbn. case_decide; cbn; [|done].
    rewrite length_app. cbn. split_and!; [lia| |done].
    apply Forall_app. split; [done|]. by constructor.
  - cbn. rewrite length_drop. split_and!; [lia| |done]. by apply Forall_drop.
Qed.

(** X13. In every pool that NewBufferPool, Get, Put and the drain ticks lead
    to, at most maxPoolSize buffers are queued and the target size is at
    most maxBufferSize. Get hands out an empty buffer; Put queues the
    buffer emptied when there is room and drops it when the pool is full. *)
Theorem pool_is_bounded_and_hands_out_empty_buffers (pool : BufferPool) :
  reachable pool ->
  (length (buf pool) <= Batch.maxPoolSize)%nat /\
  Batch.Size (Get pool).1 = 0 /\
  (forall b, (length (buf pool) < Batch.maxPoolSize)%nat ->
             buf (Put pool b) = buf pool ++ [[]]) /\
  (forall b, length (buf pool) = Batch.maxPoolSize -> Put pool b = pool) /\
  targetSize pool <= maxBufferSize.
Proof.
  intros (Hlen & Hall & Ht)%reachable_inv. split_and!; [done| | | |done].
  - unfold Get. destruct (buf pool) as [|b rest]; [done|].
    apply Forall_cons in Hall as [-> _]. done.
  - intros b Hlt. unfold Put, Batch.BufferPool_Put. by rewrite decide_True.
  - intros b Heq. unfold Put, Batch.BufferPool_Put. rewrite decide_False by lia.
    by destruct pool.
Qed.

Lemma pool_is_bounded_and_hands_out_empty_buffers_witness :
  reachable (Put (NewBufferPool 1024) [1; 2; 3]) /\
  Batch.Size (Get (Put (NewBufferPool 1024) [1; 2; 3])).1 = 0.
Proof.
  assert (H : reachable (Put (NewBufferPool 1024) [1; 2; 3]))
    by (apply reachable_Put, reachable_new).
  split; [exact H|].
  exact (proj1 (proj2 (pool_is_bounded_and_hands_out_empty_buffers _ H))).
Defined.

End BPoolFacts.

Module TinyLogFacts.
Import TinyLog.

Lemma withDefaultOptions_cases (w t bd pc lc : Z) :
  withDefaultOptions (Some (MkLogOptions w t bd pc lc))
  = MkLogOptions (if w =? 0 then defaultWriteInterval else w)
                 (if t =? 0 then defaultTimeout else t)
                 (if bd =? 0 then defaultBlockDuration else bd)
                 (if pc <? 1 then 1 else pc)
                 (if lc <? 1 then defaultLogCount else lc).
Proof.
  unfold withDefaultOptions.
  cbn [poolCapacity writeInterval timeout blockDuration logCount].
  destruct (pc <? 1); cbn [poolCapacity writeInterval timeout blockDuration logCount];
  destruct (w =? 0); cbn [poolCapacity writeInterval timeout blockDuration logCount];
  destruct (t =? 0); cbn [poolCapacity writeInterval timeout blockDuration logCount];
  destruct (bd =? 0); cbn [poolCapacity writeInterval timeout blockDuration logCount];
  destruct (lc <? 1); reflexivity.
Qed.

Lemma withDefaultOptions_complete (src : option LogOptions) :
  complete (withDefaultOptions src).
Proof.
  destruct src as [[w t bd pc lc]|]; [|by vm_compute].
  rewrite withDefaultOptions_cases. unfold complete. cbn.
  destruct (Z.eqb_spec w 0), (Z.eqb_spec t 0), (Z.eqb_spec bd 0),
           (Z.ltb_spec pc 1), (Z.ltb_spec lc 1);
    unfold defaultWriteInterval, defaultTimeout, defaultBlockDuration, defaultLogCount,
           Millisecond, Second; split_and!; lia.
Qed.

Lemma withDefaultOptions_id (o : LogOptions) :
  complete o -> withDefaultOptions (Some o) = o.
Proof.
  intros (Hpc & Hw & Ht & Hb & Hl). unfold withDefaultOptions.
  destruct o as [w t bd pc lc]. cbn in *.
  rewrite (proj2 (Z.ltb_ge pc 1)) by lia. cbn.
  rewrite (proj2 (Z.eqb_neq w 0)) by done. cbn.
  rewrite (proj2 (Z.eqb_neq t 0)) by done. cbn.
  rewrite (proj2 (Z.eqb_neq bd 0)) by done. cbn.
  by rewrite (proj2 (Z.ltb_ge lc 1)) by lia.
Qed.

(** X14. withDefaultOptions returns options with poolCapacity and logCount of
    at least 1 and non-zero writeInterval, timeout and blockDuration; it
    keeps every given field that already is so, and applying it again
    changes nothing. For nil it gives 100ms, 2s, 1s, capacity 1 and log
    count 1. *)
Theorem withDefaultOptions_fills_in_what_is_missing (src : option LogOptions) :
  1 <= poolCapacity (withDefaultOptions src) /\
  1 <= logCount (withDefaultOptions src) /\
  writeInterval (withDefaultOptions src) <> 0 /\
  timeout (withDefaultOptions src) <> 0 /\
  blockDuration (withDefaultOptions src) <> 0 /\
  withDefaultOptions (Some (withDefaultOptions src)) = withDefaultOptions src /\
  (forall o, src = Some o ->
     (1 <= poolCapacity o -> poolCapacity (withDefaultOptions src) = poolCapacity o) /\
     (writeInterval o <> 0 -> writeInterval (withDefaultOptions src) = writeInterval o) /\
     (timeout o <> 0 -> timeout (withDefaultOptions src) = timeout o) /\
     (blockDuration o <> 0 -> blockDuration (withDefaultOptions src) = blockDuration o) /\
     (1 <= logCount o -> logCount (withDefaultOptions src) = logCount o)) /\
  withDefaultOptions None
  = MkLogOptions (100 * Millisecond) (2 * Second) (1 * Second) 1 1.
Proof.
  pose proof (withDefaultOptions_complete src) as Hc.
  pose proof Hc as (Hpc & Hw & Ht & Hb & Hl).
  split_and!; try done.
  - by apply withDefaultOptions_id.
  - intros [w t bd pc lc] ->. rewrite withDefaultOptions_cases. cbn. split_and!.
    + intros H. by rewrite (proj2 (Z.ltb_ge pc 1)) by lia.
    + intros H. by rewrite (proj2 (Z.eqb_neq w 0)).
    + intros H. by rewrite (proj2 (Z.eqb_neq t 0)).
    + intros H. by rewrite (proj2 (Z.eqb_neq bd 0)).
    + intros H. by rewrite (proj2 (Z.ltb_ge lc 1)) by lia.
Qed.

End TinyLogFacts.

Module CounterFacts.
Import Counter.

Lemma wrapInt64_mod (x : Z) :
  Batch.wrapInt64 x = (x + 2 ^ 63) mod 2 ^ 64 - 2 ^ 63.
Proof.
  unfold Batch.wrapInt64, Binary.int64_of_uint64, Binary.uint64_of_int64.
  change (2 ^ 63) with 9223372036854775808.
  change (2 ^ 64) with 18446744073709551616.
  case_match; [apply Z.ltb_lt in H|apply Z.ltb_ge in H];
    Z.to_euclidean_division_equations; lia.
Qed.

(** X15. Inc(i) followed by Dec(i) brings a counter back to its value for all
    int64 values and amounts, also when the sum wraps around; without
    overflow Inc gives the exact sum, and a snapshot reports the count at
    the time it was taken. *)
Theorem Dec_undoes_Inc_also_across_overflow (n i : Z) :
  int64 n -> int64 i ->
  exists n1,
    Inc (StandardCounter n) i = inl (StandardCounter n1) /\ int64 n1 /\
    Dec (StandardCounter n1) i = inl (StandardCounter n) /\
    Count (Snapshot (StandardCounter n1)) = n1 /\
    (- 2 ^ 63 <= n + i < 2 ^ 63 -> n1 = n + i).
Proof.
  unfold int64. intros Hn Hi. eexists. split; [reflexivity|].
  cbn [Dec Count Snapshot]. unfold AddInt64. rewrite !wrapInt64_mod.
  change (2 ^ 63) with 9223372036854775808 in *.
  change (2 ^ 64) with 18446744073709551616 in *.
  split; [|split; [|split]].
  - Z.to_euclidean_division_equations; lia.
  - do 2 f_equal. Z.to_euclidean_division_equations; lia.
  - reflexivity.
  - intros. Z.to_euclidean_division_equations; lia.
Qed.

Lemma Dec_undoes_Inc_also_across_overflow_witness :
  int64 (2 ^ 63 - 1) /\ int64 5 /\
  exists n1,
    Inc (StandardCounter (2 ^ 63 - 1)) 5 = inl (StandardCounter n1) /\ int64 n1 /\
    Dec (StandardCounter n1) 5 = inl (StandardCounter (2 ^ 63 - 1)).
Proof.
  assert (H1 : int64 (2 ^ 63 - 1)) by (unfold int64; lia).
  assert (H2 : int64 5) by (unfold int64; lia).
  split; [exact H1|]. split; [exact H2|].
  destruct (Dec_undoes_Inc_also_across_overflow (2 ^ 63 - 1) 5 H1 H2)
    as (n1 & Hi & Hr & Hd & _).
  exists n1. split_and!; [exact Hi|exact Hr|exact Hd].
Defined.

End CounterFacts.

Module WalFacts.
Import Wal.

(** X16. Close of an open WAL returns nil, closes the log store once and marks
    the WAL closed, after which ok and every further Close return an error
    and leave the WAL as it is. *)
Theorem WAL_is_closed_once (wal : WAL) :
  (closed wal = 0 ->
   exists wal',
     Close wal = (None, wal') /\ isClosed wal' = true /\
     logStore wal' = logStore wal ++ [StoreClose] /\
     ok wal' = Some "wal is closed."%string /\
     Close wal' = (Some "wal is closed"%string, wal')) /\
  (closed wal <> 0 ->
   Close wal = (Some "wal is closed"%string, wal) /\
   ok wal = Some "wal is closed."%string).
Proof.
  unfold Close, ok, isClosed, setClosed. split.
  - intros ->. cbn. eexists. split; [reflexivity|]. cbn. done.
  - intros Hc%Z.eqb_neq. by rewrite Hc.
Qed.

Lemma WAL_is_closed_once_witness :
  closed (newWal [3]) = 0 /\
  exists wal',
    Close (newWal [3]) = (None, wal') /\ isClosed wal' = true /\
    logStore wal' = logStore (newWal [3]) ++ [StoreClose] /\
    ok wal' = Some "wal is closed."%string /\
    Close wal' = (Some "wal is closed"%string, wal').
Proof.
  split; [reflexivity|].
  exact (proj1 (WAL_is_closed_once (newWal [3])) eq_refl).
Defined.

End WalFacts.

Module BlockReaderFacts.
Import BlockReader.

Lemma findEntry_spec (entries : list IndexEntry) (seq0 : Z) :
  match findEntry entries seq0 with
  | inr e =>
      exists i, entries !! i = Some e /\ seq e = seq0 /\ msgOffset e <> -1 /\
                forall j e', (j < i)%nat -> entries !! j = Some e' -> seq e' <> seq0
  | inl errMsgIDDeleted =>
      exists i e, entries !! i = Some e /\ seq e = seq0 /\ msgOffset e = -1 /\
                  forall j e', (j < i)%nat -> entries !! j = Some e' -> seq e' <> seq0
  | inl errEntryInvalid => forall e, e ∈ entries -> seq e <> seq0
  | inl (ReadErr _) => False
  end.
Proof.
  induction entries as [|e rest IH]; cbn [findEntry].
  - intros e He. by apply elem_of_nil in He.
  - destruct (Z.eqb_spec (seq e) seq0) as [Heq|Hne].
    + destruct (Z.eqb_spec (msgOffset e) (-1)) as [Hdel|Hlive].
      * exists 0%nat, e. split_and!; [done..|]. intros j e' Hj. lia.
      * exists 0%nat. split_and!; [done..|]. intros j e' Hj. lia.
    + destruct (findEntry rest seq0) as [[err| |]|e1].
      * done.
      * destruct IH as (i & e1 & Hi & Hs & Hm & Hfirst).
        exists (S i), e1. split_and!; [done..|].
        intros [|j] e' Hj; cbn; [by intros [= <-]|]. apply Hfirst. lia.
      * intros e' [->|He']%elem_of_cons; [done|by apply IH].
      * destruct IH as (i & Hi & Hs & Hm & Hfirst).
        exists (S i). split_and!; [done..|].
        intros [|j] e' Hj; cbn; [by intros [= <-]|]. apply Hfirst. lia.
Qed.

(** X17. When the index block of a seq can be read, readEntry decides by the
    first slot that holds the seq: it returns that slot when its message
    offset is not -1, errMsgIDDeleted when it is -1, and errEntryInvalid
    when no slot holds the seq. *)
Theorem readEntry_answers_with_the_first_slot_of_the_seq
    (blockIndex blockOffset : Z -> Z) (readIndexBlock : Z -> error + list IndexEntry)
    (seq0 : Z) (entries : list IndexEntry) :
  readIndexBlock (blockOffset (blockIndex seq0)) = inr entries ->
  match readEntry blockIndex blockOffset readIndexBlock seq0 with
  | inr e =>
      exists i, entries !! i = Some e /\ seq e = seq0 /\ msgOffset e <> -1 /\
                forall j e', (j < i)%nat -> entries !! j = Some e' -> seq e' <> seq0
  | inl errMsgIDDeleted =>
      exists i e, entries !! i = Some e /\ seq e = seq0 /\ msgOffset e = -1 /\
                  forall j e', (j < i)%nat -> entries !! j = Some e' -> seq e' <> seq0
  | inl errEntryInvalid => forall e, e ∈ entries -> seq e <> seq0
  | inl (ReadErr _) => False
  end.
Proof.
  intros Hread. unfold readEntry. rewrite Hread. apply findEntry_spec.
Qed.

Lemma readEntry_answers_with_the_first_slot_of_the_seq_witness :
  sampleRead ((fun i => 512 + 4096 * i) ((fun s => (s - 1) / 22) 7)) = inr sampleSlots /\
  match readEntry (fun s => (s - 1) / 22) (fun i => 512 + 4096 * i) sampleRead 7 with
  | inr e =>
      exists i, sampleSlots !! i = Some e /\ seq e = 7 /\ msgOffset e <> -1 /\
                forall j e', (j < i)%nat -> sampleSlots !! j = Some e' -> seq e' <> 7
  | inl errMsgIDDeleted =>
      exists i e, sampleSlots !! i = Some e /\ seq e = 7 /\ msgOffset e = -1 /\
                  forall j e', (j < i)%nat -> sampleSlots !! j = Some e' -> seq e' <> 7
  | inl errEntryInvalid => forall e, e ∈ sampleSlots -> seq e <> 7
  | inl (ReadErr _) => False
  end.
Proof.
  split; [reflexivity|].
  exact (readEntry_answers_with_the_first_slot_of_the_seq
           (fun s => (s - 1) / 22) (fun i => 512 + 4096 * i)
           sampleRead 7 sampleSlots eq_refl).
Defined.

Lemma sliceZ_Some (buf : list Z) (lo hi : Z) :
  0 <= lo <= hi -> hi <= Batch.Size buf ->
  Batch.sliceZ buf lo hi = Some (take (Z.to_nat (hi - lo)) (drop (Z.to_nat lo) buf)).
Proof. intros. unfold Batch.sliceZ, Batch.Size in *. by rewrite decide_True by lia. Qed.

Lemma three_parts (c : list Z) (a b : Z) :
  0 <= a -> 0 <= b -> a + b <= Batch.Size c ->
  c = take (Z.to_nat (a - 0)) (drop (Z.to_nat 0) c)
      ++ take (Z.to_nat (a + b - a)) (drop (Z.to_nat a) c)
      ++ take (Z.to_nat (Batch.Size c - (a + b))) (drop (Z.to_nat (a + b)) c).
Proof.
  intros Ha Hb Hab. unfold Batch.Size in *.
  rewrite Z.sub_0_r, drop_0.
  replace (a + b - a) with b by lia.
  rewrite (take_ge (drop (Z.to_nat (a + b)) c)) by (rewrite length_drop; lia).
  replace (Z.to_nat (a + b)) with (Z.to_nat a + Z.to_nat b)%nat by lia.
  rewrite <- drop_drop. by rewrite !take_drop.
Qed.

(** X18. For an entry whose message, cached or sliced from the data file, is
    at least idSize + topicSize bytes long, readMessage returns the id and
    the payload and readTopic the topic such that the message is id, topic
    and payload one after the other. *)
Theorem readMessage_and_readTopic_tile_the_message
    (idSize : Z) (mSize : IndexEntry -> Z) (file : list Z) (e : IndexEntry) :
  0 <= idSize -> 0 <= topicSize e -> idSize + topicSize e < 2 ^ 16 ->
  0 <= msgOffset e ->
  forall message,
  match cache e with
  | Some c => Some c
  | None => Batch.sliceZ file (msgOffset e) (msgOffset e + mSize e)
  end = Some message ->
  idSize + topicSize e <= Batch.Size message ->
  exists id topic payload,
    readMessage idSize mSize (fileSlice file) e = Some (inr (id, payload)) /\
    readTopic idSize (fileSlice file) e = Some (inr topic) /\
    message = id ++ topic ++ payload /\
    Batch.Size id = idSize /\ Batch.Size topic = topicSize e.
Proof.
  intros Hid Hts Hwrap Hoff message Hmsg Hlen.
  assert (Hu : uint16 (topicSize e + idSize) = idSize + topicSize e).
  { unfold uint16. rewrite Z.mod_small by lia. lia. }
  pose proof (three_parts message idSize (topicSize e) Hid Hts Hlen) as Hparts.
  assert (Hsid : Batch.sliceZ message 0 idSize
                 = Some (take (Z.to_nat (idSize - 0)) (drop (Z.to_nat 0) message)))
    by (apply sliceZ_Some; lia).
  assert (Hst : Batch.sliceZ message idSize (idSize + topicSize e)
                = Some (take (Z.to_nat (idSize + topicSize e - idSize))
                             (drop (Z.to_nat idSize) message)))
    by (apply sliceZ_Some; lia).
  assert (Hsp : Batch.sliceZ message (idSize + topicSize e) (Batch.Size message)
                = Some (take (Z.to_nat (Batch.Size message - (idSize + topicSize e)))
                             (drop (Z.to_nat (idSize + topicSize e)) message)))
    by (apply sliceZ_Some; lia).
  eexists _, _, _. split_and!; [| |exact Hparts| |].
  - unfold readMessage. rewrite Hu. destruct (cache e) as [c|].
    + injection Hmsg as ->. rewrite Hsid, Hsp. reflexivity.
    + unfold fileSlice. rewrite Hmsg, Hsid, Hsp. reflexivity.
  - unfold readTopic. rewrite Hu. destruct (cache e) as [c|].
    + injection Hmsg as ->. rewrite Hst. reflexivity.
    + unfold fileSlice.
      unfold Batch.sliceZ in Hmsg. case_decide as Hb; [|done]. injection Hmsg as <-.
      unfold Batch.Size in Hlen. rewrite length_take, length_drop in Hlen.
      rewrite sliceZ_Some by (unfold Batch.Size; lia).
      do 2 f_equal.
      replace (msgOffset e + topicSize e + idSize - (msgOffset e + idSize))
        with (topicSize e) by lia.
      replace (idSize + topicSize e - idSize) with (topicSize e) by lia.
      set (m := Z.to_nat (msgOffset e + mSize e - msgOffset e)) in *.
      replace m with (Z.to_nat idSize + (m - Z.to_nat idSize))%nat by lia.
      rewrite <- take_drop_commute, take_take, drop_drop.
      replace (Z.to_nat (msgOffset e + idSize))
        with (Z.to_nat (msgOffset e) + Z.to_nat idSize)%nat by lia.
      f_equal. lia.
  - unfold Batch.Size in *. rewrite length_take, length_drop. lia.
  - unfold Batch.Size in *. rewrite length_take, length_drop. lia.
Qed.


Lemma readMessage_and_readTopic_tile_the_message_witness :
  0 <= 2 /\ 0 <= topicSize cachedEntry /\ 2 + topicSize cachedEntry < 2 ^ 16 /\
  exists id topic payload,
    readMessage 2 (fun _ => 7) (fileSlice []) cachedEntry = Some (inr (id, payload)) /\
    readTopic 2 (fileSlice []) cachedEntry = Some (inr topic) /\
    [1; 2; 10; 11; 12; 20; 21] = id ++ topic ++ payload /\
    Batch.Size id = 2 /\ Batch.Size topic = topicSize cachedEntry.
Proof.
  assert (H1 : 0 <= 2) by lia.
  assert (H2 : 0 <= topicSize cachedEntry) by (simpl; lia).
  assert (H3 : 2 + topicSize cachedEntry < 2 ^ 16) by (simpl; lia).
  assert (H4 : 0 <= msgOffset cachedEntry) by (simpl; lia).
  split_and!; [exact H1|exact H2|exact H3|].
  apply (readMessage_and_readTopic_tile_the_message 2 (fun _ => 7) [] cachedEntry
           H1 H2 H3 H4 [1; 2; 10; 11; 12; 20; 21] eq_refl).
  vm_compute. discriminate.
Defined.

End BlockReaderFacts.

(** ** db.go: what [split] does to the bucket it splits and to the others *)
Module SplitExact.
Import Header Index SplitReachability.

Section Route.
Variables (i' : dbInfo) (u uoff noff : Z) (allocs0 : list Z).
Hypothesis allocs_nonzero : forall x, x ∈ allocs0 -> x <> 0.

Lemma routeEntries_exact slots :
  forall s seen s',
  routeInv i' u uoff noff allocs0 s seen -> exactInv i' u s seen ->
  routeEntries i' u slots s = (None, s') ->
  exactInv i' u s' (seen ++ liveEntries slots) /\ overflowBlocks s' = overflowBlocks s.
Proof.
  induction slots as [|e slots IH]; intros s seen s' Hinv Hex; cbn [routeEntries liveEntries].
  { intros [= <-]. by rewrite app_nil_r. }
  destruct (Z.eqb_spec (kvOffset e) 0) as [Hz|Hlive].
  { intros [= <-]. by rewrite app_nil_r. }
  pose proof Hinv as (Hup & Hnew & Hperm & Hseen). destruct Hex as [Hexu Hexn].
  rewrite (cons_middle e seen), (assoc_L (++)).
  assert (Hpend : forall x, x ∈ pendingAllocs s -> x <> 0)
    by (intros x; by apply (routeInv_pending i' u uoff noff allocs0 allocs_nonzero s seen)).
  destruct (Z.eqb_spec (blockIndex i' (hash e)) u) as [Hu|Hn].
  - destruct (insert e (updatedBlock s) (pendingAllocs s)) as [[[err|] w] a] eqn:Hins;
      [done|].
    destruct (insert_ok _ _ _ _ _ _ _ Hup Hlive Hpend Hins) as (Hw & Hent & Hoffs).
    intros Hrest.
    assert (Hinv1 : routeInv i' u uoff noff allocs0
                      (MkSplitState w (newBlock s) (overflowBlocks s) a) (seen ++ [e])).
    { pose proof (routeEntries_inv i' u uoff noff allocs0 allocs_nonzero [e] s seen
                    (MkSplitState w (newBlock s) (overflowBlocks s) a) Hinv) as H.
      cbn [routeEntries liveEntries] in H.
      rewrite (proj2 (Z.eqb_neq _ _) Hlive), (proj2 (Z.eqb_eq _ _) Hu), Hins in H.
      by apply H. }
    apply (IH _ _ _ Hinv1); [|done].
    split; cbn [updatedBlock newBlock].
    + rewrite Hent, Hexu, filter_app. cbn. by rewrite decide_True.
    + rewrite Hexn, filter_app. cbn. rewrite decide_False by (intros H; by apply H).
      by rewrite app_nil_r.
  - destruct (insert e (newBlock s) (pendingAllocs s)) as [[[err|] w] a] eqn:Hins;
      [done|].
    destruct (insert_ok _ _ _ _ _ _ _ Hnew Hlive Hpend Hins) as (Hw & Hent & Hoffs).
    intros Hrest.
    assert (Hinv1 : routeInv i' u uoff noff allocs0
                      (MkSplitState (updatedBlock s) w (overflowBlocks s) a) (seen ++ [e])).
    { pose proof (routeEntries_inv i' u uoff noff allocs0 allocs_nonzero [e] s seen
                    (MkSplitState (updatedBlock s) w (overflowBlocks s) a) Hinv) as H.
      cbn [routeEntries liveEntries] in H.
      rewrite (proj2 (Z.eqb_neq _ _) Hlive), (proj2 (Z.eqb_neq _ _) Hn), Hins in H.
      by apply H. }
    apply (IH _ _ _ Hinv1); [|done].
    split; cbn [updatedBlock newBlock].
    + rewrite Hexu, filter_app. cbn. rewrite decide_False by done. by rewrite app_nil_r.
    + rewrite Hent, Hexn, filter_app. cbn. by rewrite decide_True.
Qed.


Lemma walk_split_exact blockSize fuel db :
  forall t off s seen s',
  routeInv i' u uoff noff allocs0 s seen -> exactInv i' u s seen ->
  walk blockSize fuel db t off (splitCallback i' u) s = Some (None, s') ->
  exists hs, chain blockSize fuel db t off = Some hs /\
             routeInv i' u uoff noff allocs0 s' (seen ++ handlesEntries hs) /\
             exactInv i' u s' (seen ++ handlesEntries hs) /\
             overflowBlocks s' = overflowBlocks s ++ (offset <$> drop 1 hs).
Proof.
  induction fuel as [|fuel IH]; intros t off s seen s' Hinv Hex; cbn [walk chain]; [done|].
  destruct (readBlock blockSize db t off) as [b|]; [|done].
  unfold splitCallback. cbn [blk].
  destruct (routeEntries i' u (entries b) s) as [[err|] s1] eqn:Hroute; [done|].
  pose proof (routeEntries_inv i' u uoff noff allocs0 allocs_nonzero _ _ _ _ Hinv Hroute)
    as Hinv1.
  destruct (routeEntries_exact _ _ _ _ Hinv Hex Hroute) as [Hex1 Hov1]. cbn.
  destruct (Z.eqb_spec (next b) 0) as [Hz|Hnz].
  - intros [= <-]. eexists. split; [done|].
    rewrite handlesEntries_cons, app_nil_r. cbn. rewrite app_nil_r. done.
  - intros Hwalk.
    apply (IH _ _ _ (seen ++ liveEntries (entries b))) in Hwalk
      as (hs & Hchain & Hinv' & Hex' & Hov'); [|done|done].
    rewrite Hchain. cbn. eexists. split; [done|].
    rewrite handlesEntries_cons, (assoc_L (++)). cbn [blk]. split_and!; [done..|].
    rewrite Hov'. cbn [overflowBlocks]. rewrite Hov1, <- app_assoc. f_equal.
    assert (Hhead : exists h0 rest, hs = h0 :: rest /\ offset h0 = next b).
    { destruct (chain_shape _ _ _ _ _ _ Hchain) as ((h0 & rest & -> & _ & Ho & _) & _).
      by eexists _, _. }
    destruct Hhead as (h0 & rest & -> & Ho). cbn. by rewrite Ho, ?drop_0.
Qed.

End Route.

Section Tail.
Variable blockSize : Z.
Hypothesis blockSize_pos : 0 < blockSize.

(** What the final writes of [split] leave in the files. *)
Lemma splitTail_reads (freeOverflow : bool) (io : IO) (dbx db' : DB) (st : splitState)
    (uoff noff : Z) :
  splitTail freeOverflow io dbx st = Some (None, db') ->
  writerOk (updatedBlock st) IndexTable uoff ->
  writerOk (newBlock st) IndexTable noff ->
  NoDup (dataOffs (updatedBlock st) ++ dataOffs (newBlock st)) ->
  uoff <> noff ->
  0 <= uoff /\ uoff + blockSize <= fsize (index dbx) ->
  0 <= noff /\ noff + blockSize <= fsize (index dbx) ->
  (forall h, h ∈ wHandles (updatedBlock st) ->
     readBlock blockSize db' (file h) (offset h) = Some (blk h)) /\
  (forall h, h ∈ wHandles (newBlock st) ->
     readBlock blockSize db' (file h) (offset h) = Some (blk h)) /\
  (forall t o,
     (t, o) ∉ keyOfHandle <$> wHandles (updatedBlock st) ->
     (t, o) ∉ keyOfHandle <$> wHandles (newBlock st) ->
     readBlock blockSize db' t o = readBlock blockSize dbx t o) /\
  freed db' = freed dbx ++ (if freeOverflow then overflowBlocks st else []) /\
  info db' = bumpBlocks (info dbx).
Proof.
  unfold splitTail. intros Htail Hup Hnew Hnd Hne Huin Hnin.
  destruct (writeNewErr io); [done|]. destruct (writeUpdatedErr io); [done|].
  set (dbf := if freeOverflow then _ else _) in Htail.
  injection Htail as <-.
  assert (Hdbf : forall t o, readBlock blockSize dbf t o = readBlock blockSize dbx t o).
  { intros t o. unfold dbf. by destruct freeOverflow, t. }
  assert (Hfs : fsize (index dbf) = fsize (index dbx)).
  { unfold dbf. by destruct freeOverflow. }
  pose proof (writer_keys _ _ _ Hup) as Kup.
  pose proof (writer_keys _ _ _ Hnew) as Knew.
  apply NoDup_app in Hnd as (HndUp & Hdisj & HndNew).
  assert (HndKup : NoDup (keyOfHandle <$> wHandles (updatedBlock st))).
  { rewrite Kup. constructor.
    - intros (o & ? & _)%list_elem_of_fmap. done.
    - apply (NoDup_fmap_2 _). done. }
  assert (HndKnew : NoDup (keyOfHandle <$> wHandles (newBlock st))).
  { rewrite Knew. constructor.
    - intros (o & ? & _)%list_elem_of_fmap. done.
    - apply (NoDup_fmap_2 _). done. }
  assert (HinUp : forall h X, h ∈ wHandles (updatedBlock st) ->
            fsize (index X) = fsize (index dbx) -> inFile blockSize X h).
  { intros h X Hin HX Hfile.
    apply (list_elem_of_fmap_2 keyOfHandle) in Hin. rewrite Kup in Hin.
    apply elem_of_cons in Hin as [Heq|(o & Heq & _)%list_elem_of_fmap];
      unfold keyOfHandle in Heq; [|congruence].
    injection Heq as _ ->. by rewrite HX. }
  assert (HinNew : forall h X, h ∈ wHandles (newBlock st) ->
            fsize (index X) = fsize (index dbx) -> inFile blockSize X h).
  { intros h X Hin HX Hfile.
    apply (list_elem_of_fmap_2 keyOfHandle) in Hin. rewrite Knew in Hin.
    apply elem_of_cons in Hin as [Heq|(o & Heq & _)%list_elem_of_fmap];
      unfold keyOfHandle in Heq; [|congruence].
    injection Heq as _ ->. by rewrite HX. }
  split_and!.
  - intros h Hin. rewrite readBlock_setInfo, writeWriter_foldr.
    apply readBlock_writes_in.
    + by rewrite writer_perm.
    + by rewrite writer_perm.
    + apply HinUp; [done|]. by rewrite Directory.fsize_writeWriter.
  - intros h Hin. rewrite readBlock_setInfo, writeWriter_foldr.
    rewrite readBlock_writes_notin.
    + rewrite writeWriter_foldr. apply readBlock_writes_in.
      * by rewrite writer_perm.
      * by rewrite writer_perm.
      * by apply HinNew.
    + rewrite writer_perm, Kup.
      apply (list_elem_of_fmap_2 keyOfHandle) in Hin. rewrite Knew in Hin.
      unfold keyOfHandle in Hin at 1.
      intros [Heq|(o & Heq & Ho)%list_elem_of_fmap]%elem_of_cons.
      * rewrite Heq in Hin.
        apply elem_of_cons in Hin as [Hin|(o' & ? & _)%list_elem_of_fmap]; [|done].
        by injection Hin.
      * rewrite Heq in Hin.
        apply elem_of_cons in Hin as [?|(o' & [= <-] & Ho')%list_elem_of_fmap]; [done|].
        by eapply Hdisj.
  - intros t o Hnu Hnn.
    rewrite readBlock_setInfo, !writeWriter_foldr, !readBlock_writes_notin; [apply Hdbf| |].
    + by rewrite writer_perm.
    + by rewrite writer_perm.
  - cbn [freed setInfo]. unfold writeWriter.
    assert (Hfr : forall hs X, freed (foldr writeBlock X hs) = freed X).
    { induction hs as [|h hs IHhs]; intros X; cbn; [done|].
      unfold writeBlock at 1. destruct (file h); cbn; apply IHhs. }
    assert (Hfr1 : forall h X, freed (writeBlock h X) = freed X).
    { intros h X. unfold writeBlock. by destruct (file h). }
    rewrite Hfr1, Hfr, Hfr1, Hfr. unfold dbf. destruct freeOverflow; cbn; [done|].
    by rewrite app_nil_r.
  - reflexivity.
Qed.


Lemma split_exact_core (freeOverflow : bool) (io : IO) (fuel : nat) (db db' : DB) :
  splitReady blockSize db io ->
  split blockSize freeOverflow io fuel db = Some (None, db') ->
  exists hs hsU hsN,
    chain blockSize fuel db IndexTable (blockOffset blockSize (splitBlockIdx (info db)))
      = Some hs /\
    chain blockSize (length hsU) db' IndexTable
          (blockOffset blockSize (splitBlockIdx (info db))) = Some hsU /\
    chain blockSize (length hsN) db' IndexTable
          (blockOffset blockSize (nBlocks (info db))) = Some hsN /\
    handlesEntries hsU
    = filter (fun e => blockIndex (info db') (hash e) = splitBlockIdx (info db))
             (handlesEntries hs) /\
    handlesEntries hsN
    = filter (fun e => blockIndex (info db') (hash e) <> splitBlockIdx (info db))
             (handlesEntries hs) /\
    freed db' = freed db ++ (if freeOverflow then offset <$> drop 1 hs else []) /\
    (forall h, h ∈ drop 1 hsU ++ drop 1 hsN -> offset h ∈ allocs io).
Proof.
  intros Hready Hsplit.
  pose proof Hready as (Hl & Hs & Hn & Hbound & Hsize & Hnd & Hnz & Hunused).
  destruct (Directory.split_ok_info _ _ _ _ _ _ Hsplit) as [Hinfo _].
  rewrite split_eq in Hsplit. destruct (extendErr io); [done|].
  set (u := splitBlockIdx (info db)) in *.
  destruct (walk _ _ _ _ _ _ _) as [[[err|] st]|] eqn:Hwalk; [done| |done].
  eapply (walk_split_exact (advance (info db)) u (blockOffset blockSize u)
            (fsize (index db)) (allocs io) Hnz) with (seen := []) in Hwalk
    as (hs & Hchain & Hinv & Hex & Hov).
  2:{ unfold routeInv. cbn. split_and!; [apply newWriter_ok..|done|].
      by intros e ?%elem_of_nil. }
  2:{ split; reflexivity. }
  cbn [app overflowBlocks] in Hinv, Hex, Hov.
  destruct Hinv as (Hup & Hnew & Hperm & _).
  assert (Hpow : 0 < 2 ^ level (info db)) by (apply Z.pow_pos_nonneg; lia).
  assert (Hu : 0 <= u < nBlocks (info db)) by (unfold u; lia).
  assert (HndAll : NoDup (dataOffs (updatedBlock st) ++ dataOffs (newBlock st)
                          ++ pendingAllocs st)) by (by rewrite Hperm).
  rewrite (assoc_L (++)) in HndAll. apply NoDup_app in HndAll as (HndUN & _ & _).
  destruct (splitTail_reads freeOverflow io (extended blockSize db) db' st
              (blockOffset blockSize u) (fsize (index db)) Hsplit Hup Hnew HndUN)
    as (Rup & Rnew & _ & Hfreed & _).
  { rewrite Hsize. unfold blockOffset. nia. }
  { unfold extended. cbn. unfold blockOffset. rewrite Hsize. unfold blockOffset. nia. }
  { unfold extended. cbn. rewrite Hsize. unfold blockOffset. nia. }
  rewrite Hsize in Hnew.
  exists hs, (wHandles (updatedBlock st)), (wHandles (newBlock st)).
  split_and!.
  - apply (chain_ext _ _ _ _ _ _ _ Hchain). intros h Hin. symmetry.
    apply (readBlock_extended blockSize blockSize_pos).
    destruct (chain_shape _ _ _ _ _ _ Hchain) as ((h0 & rest & -> & Hf & Ho & Hrest) & _).
    intros Hfile. apply elem_of_cons in Hin as [->|Hin].
    + rewrite Ho, Hsize. unfold blockOffset. nia.
    + rewrite Forall_forall in Hrest. by rewrite (Hrest h Hin) in Hfile.
  - by apply (chain_of_writer blockSize).
  - by apply (chain_of_writer blockSize).
  - rewrite Hinfo. destruct Hex as [-> _]. done.
  - rewrite Hinfo. destruct Hex as [_ ->]. done.
  - rewrite Hfreed. unfold extended. cbn. by rewrite Hov.
  - intros h Hin. rewrite <- Hperm. rewrite (assoc_L (++)), elem_of_app. left.
    unfold dataOffs. rewrite <- fmap_app. by apply list_elem_of_fmap_2.
Qed.


End Tail.

(** X19. A split that returns nil deals the live entries of the chain of the
    split bucket out to two chains: the chain of the old bucket holds
    those whose new block index is the old one, the chain of the new
    bucket the others, each in the order of the old chain, so no entry is
    lost or doubled. An entry that moved has the new block index nBlocks,
    and count is unchanged. *)
Theorem split_deals_the_bucket_out_in_order
    (blockSize : Z) (freeOverflow : bool) (io : IO) (fuel : nat) (db db' : DB) :
  0 < blockSize -> splitReady blockSize db io ->
  split blockSize freeOverflow io fuel db = Some (None, db') ->
  exists hs hsU hsN,
    chain blockSize fuel db IndexTable (blockOffset blockSize (splitBlockIdx (info db)))
      = Some hs /\
    chain blockSize (length hsU) db' IndexTable
          (blockOffset blockSize (splitBlockIdx (info db))) = Some hsU /\
    chain blockSize (length hsN) db' IndexTable
          (blockOffset blockSize (nBlocks (info db))) = Some hsN /\
    handlesEntries hsU
    = filter (fun e => blockIndex (info db') (hash e) = splitBlockIdx (info db))
             (handlesEntries hs) /\
    handlesEntries hsN
    = filter (fun e => blockIndex (info db') (hash e) <> splitBlockIdx (info db))
             (handlesEntries hs) /\
    handlesEntries hsU ++ handlesEntries hsN ≡ₚ handlesEntries hs /\
    (forall e, e ∈ handlesEntries hsN ->
       blockIndex (info db) (hash e) = splitBlockIdx (info db) ->
       blockIndex (info db') (hash e) = nBlocks (info db)) /\
    count (info db') = count (info db).
Proof.
  intros Hbs Hready Hsplit.
  destruct (split_exact_core blockSize Hbs _ _ _ _ _ Hready Hsplit)
    as (hs & hsU & hsN & Hc & HcU & HcN & HU & HN & _ & _).
  pose proof Hready as (Hl & Hs & Hn & Hbound & _).
  assert (Hpow : 0 < 2 ^ level (info db)) by (apply Z.pow_pos_nonneg; lia).
  destruct (Directory.split_ok_info _ _ _ _ _ _ Hsplit) as [Hinfo _].
  exists hs, hsU, hsN. split_and!; try done.
  - rewrite HU, HN. apply filter_app_complement.
  - intros e He Hold. rewrite HN in He. apply list_elem_of_filter in He as [Hne _].
    rewrite Hinfo in *. rewrite blockIndex_bumpBlocks in *.
    destruct (blockIndex_advance (info db) (hash e) Hl Hs ltac:(lia))
      as (_ & _ & Hsame).
    destruct (Hsame Hold) as [?| ->]; [done|]. lia.
  - rewrite Hinfo. unfold bumpBlocks, advance. cbn. by case_match.
Qed.

Lemma split_deals_the_bucket_out_in_order_witness :
  0 < 4096 /\ splitReady 4096 overflowDB (ioOk [12288]) /\
  exists db' hs hsU hsN,
    split 4096 true (ioOk [12288]) 2 overflowDB = Some (None, db') /\
    chain 4096 2 overflowDB IndexTable (blockOffset 4096 (splitBlockIdx (info overflowDB)))
      = Some hs /\
    handlesEntries hsU ++ handlesEntries hsN ≡ₚ handlesEntries hs.
Proof.
  assert (Hbs : 0 < 4096) by lia.
  split; [exact Hbs|]. split; [exact overflowDB_ready|].
  destruct (split 4096 true (ioOk [12288]) 2 overflowDB) as [[[err|] db']|] eqn:Hsplit;
    [vm_compute in Hsplit; discriminate| |vm_compute in Hsplit; discriminate].
  destruct (split_deals_the_bucket_out_in_order 4096 true (ioOk [12288]) 2 overflowDB db'
              Hbs overflowDB_ready Hsplit)
    as (hs & hsU & hsN & Hc & _ & _ & _ & _ & Hperm & _).
  exists db', hs, hsU, hsN. split; [reflexivity|]. split; [exact Hc|exact Hperm].
Defined.

(** X20. A split that returns nil hands the overflow blocks of the old chain
    to db.data.free in the second variant of db.go, in chain order, and
    frees nothing in the first, where that loop is commented out. In both,
    the overflow blocks of the two new chains are other blocks than those
    of the old chain. *)
Theorem split_frees_the_old_overflow_blocks_in_one_variant_only
    (blockSize : Z) (freeOverflow : bool) (io : IO) (fuel : nat) (db db' : DB) :
  0 < blockSize -> splitReady blockSize db io ->
  split blockSize freeOverflow io fuel db = Some (None, db') ->
  exists hs hsU hsN,
    chain blockSize fuel db IndexTable (blockOffset blockSize (splitBlockIdx (info db)))
      = Some hs /\
    chain blockSize (length hsU) db' IndexTable
          (blockOffset blockSize (splitBlockIdx (info db))) = Some hsU /\
    chain blockSize (length hsN) db' IndexTable
          (blockOffset blockSize (nBlocks (info db))) = Some hsN /\
    freed db' = freed db ++ (if freeOverflow then offset <$> drop 1 hs else []) /\
    (forall h, h ∈ drop 1 hsU ++ drop 1 hsN -> offset h ∉ offset <$> drop 1 hs).
Proof.
  intros Hbs Hready Hsplit.
  destruct (split_exact_core blockSize Hbs _ _ _ _ _ Hready Hsplit)
    as (hs & hsU & hsN & Hc & HcU & HcN & _ & _ & Hfreed & Halloc).
  pose proof Hready as (_ & _ & _ & _ & _ & _ & _ & Hunused).
  exists hs, hsU, hsN. split_and!; try done.
  intros h Hin (h' & Heq & Hin')%list_elem_of_fmap.
  destruct (chain_shape _ _ _ _ _ _ Hc) as ((h0 & rest & -> & _ & _ & Hrest) & _).
  cbn in Hin'. rewrite drop_0 in Hin'. rewrite Forall_forall in Hrest.
  apply (Hunused _ _ _ h' Hc); [by right|by apply Hrest|].
  rewrite <- Heq. by apply Halloc.
Qed.

Lemma split_frees_the_old_overflow_blocks_in_one_variant_only_witness :
  0 < 4096 /\ splitReady 4096 overflowDB (ioOk [12288]) /\
  exists db' hs,
    split 4096 true (ioOk [12288]) 2 overflowDB = Some (None, db') /\
    chain 4096 2 overflowDB IndexTable (blockOffset 4096 (splitBlockIdx (info overflowDB)))
      = Some hs /\
    freed db' = freed overflowDB ++ (offset <$> drop 1 hs).
Proof.
  assert (Hbs : 0 < 4096) by lia.
  split; [exact Hbs|]. split; [exact overflowDB_ready|].
  destruct (split 4096 true (ioOk [12288]) 2 overflowDB) as [[[err|] db']|] eqn:Hsplit;
    [vm_compute in Hsplit; discriminate| |vm_compute in Hsplit; discriminate].
  destruct (split_frees_the_old_overflow_blocks_in_one_variant_only
              4096 true (ioOk [12288]) 2 overflowDB db' Hbs overflowDB_ready Hsplit)
    as (hs & hsU & hsN & Hc & _ & _ & Hfreed & _).
  exists db', hs. split; [reflexivity|]. split; [exact Hc|exact Hfreed].
Defined.



End SplitExact.

(** ** db.go (second variant): the key-value operations *)
Module KVFacts.
Import Header Index KV SplitReachability.

Section Walks.
Variable blockSize : Z.

Lemma chain_is_linked fuel db :
  forall t off hs,
  chain blockSize fuel db t off = Some hs -> linked hs /\ (length hs <= fuel)%nat.
Proof.
  induction fuel as [|fuel IH]; intros t off hs; simpl; [done|].
  destruct (readBlock blockSize db t off) as [b|] eqn:Hr; [|done].
  destruct (Z.eqb_spec (next b) 0) as [Hn|Hn].
  - intros [= <-]. split; [by apply linked_last|simpl; lia].
  - destruct (chain blockSize fuel db DataTable (next b)) as [rest|] eqn:Hc; [|done].
    simpl. intros [= <-]. destruct (IH _ _ _ Hc) as [Hl Hlen].
    destruct (chain_shape _ _ _ _ _ _ Hc) as [(h0 & rest' & -> & Hf & Ho & _) _].
    split; [|simpl in *; lia]. apply linked_cons; simpl; [congruence|congruence|done|done].
Qed.

Lemma walk_linked {S : Type} (cb : blockHandle -> S -> bool * option error * S) db hs :
  linked hs ->
  (forall h, h ∈ hs -> readBlock blockSize db (file h) (offset h) = Some (blk h)) ->
  forall fuel h0 rest s, hs = h0 :: rest -> (length hs <= fuel)%nat ->
  walk blockSize fuel db (file h0) (offset h0) cb s = Some (runBlocks cb hs s).
Proof.
  induction 1 as [h Hn|h h' hs Hn Hoff Hfile Hlinked IH];
    intros Hreads fuel h0 rest s Heq Hlen; simplify_eq;
    (destruct fuel as [|fuel]; [simpl in Hlen; lia|]); cbn [walk runBlocks].
  - rewrite (Hreads h0) by left. destruct h0 as [t o b]; simpl in *.
    destruct (cb _ s) as [[stop err] s']. destruct (stop || _); [done|].
    by rewrite Hn.
  - rewrite (Hreads h0) by left. destruct h0 as [t o b]; simpl in *.
    destruct (cb _ s) as [[stop err] s']. destruct (stop || _); [done|].
    apply Z.eqb_neq in Hoff as Hoff'. rewrite Hn, Hoff', <- Hfile.
    apply (IH (fun h Hin => Hreads h (list_elem_of_further _ _ _ Hin)) _ _ _ _ eq_refl).
    lia.
Qed.

Lemma walk_chain {S : Type} (cb : blockHandle -> S -> bool * option error * S)
    fuel db t off hs s :
  chain blockSize fuel db t off = Some hs ->
  walk blockSize fuel db t off cb s = Some (runBlocks cb hs s).
Proof.
  intros Hc. destruct (chain_is_linked _ _ _ _ _ Hc) as [Hl Hlen].
  destruct (chain_shape _ _ _ _ _ _ Hc) as [(h0 & rest & -> & <- & <- & _) Hreads].
  by eapply walk_linked.
Qed.

Lemma chain_suffix fuel db :
  forall t off hs pre h post,
  chain blockSize fuel db t off = Some hs -> hs = pre ++ h :: post ->
  exists f', chain blockSize f' db (file h) (offset h) = Some (h :: post).
Proof.
  induction fuel as [|fuel IH]; intros t off hs pre h post Hc Heq; [done|].
  destruct pre as [|x pre]; simpl in Heq.
  - destruct (chain_shape _ _ _ _ _ _ Hc) as [(h0 & rest & ? & <- & <- & _) _].
    simplify_eq. by eexists.
  - simpl in Hc. destruct (readBlock blockSize db t off) as [b|]; [|done].
    destruct (next b =? 0); [destruct pre; simplify_eq|].
    destruct (chain blockSize fuel db DataTable (next b)) as [r|] eqn:Hr; [|done].
    simpl in Hc. simplify_eq. by eapply IH.
Qed.

Lemma chain_NoDup fuel db :
  forall t off hs,
  chain blockSize fuel db t off = Some hs -> NoDup (keyOfHandle <$> hs).
Proof.
  induction fuel as [|fuel IH]; intros t off hs Hc; [done|].
  pose proof Hc as Hc0. simpl in Hc.
  destruct (readBlock blockSize db t off) as [b|]; [|done].
  destruct (next b =? 0).
  { simplify_eq. simpl. apply NoDup_singleton. }
  destruct (chain blockSize fuel db DataTable (next b)) as [r|] eqn:Hr; [|done].
  simpl in Hc. simplify_eq. rewrite fmap_cons. apply NoDup_cons. split; [|by eapply IH].
  intros (h & Hk & Hin)%list_elem_of_fmap_1.
  apply list_elem_of_split in Hin as (pre & post & ->).
  destruct (chain_suffix _ _ _ _ _ (_ :: pre) h post Hc0 eq_refl) as [f' Hs].
  unfold keyOfHandle in Hk. simpl in Hk. simplify_eq.
  pose proof (chain_det _ _ _ _ _ _ _ _ Hs Hc0) as Heq.
  apply (f_equal length) in Heq. simpl in Heq. rewrite length_app in Heq. simpl in Heq. lia.
Qed.

End Walks.

(** *** Reading records *)

Lemma readKeyValue_key d sl k v :
  readKeyValue d sl = inr (k, v) -> readKey d sl = inr k.
Proof.
  unfold readKeyValue, readKey.
  destruct (recordSlice d (kvOffset sl) 0 (keySize sl)) as [e|k']; [done|].
  destruct (recordSlice d (kvOffset sl) (keySize sl) (valueSize sl)); [done|].
  by intros [= <- _].
Qed.

Lemma recordSlice_ext d d' off from len :
  records d' !! off = records d !! off ->
  recordSlice d' off from len = recordSlice d off from len.
Proof. unfold recordSlice. by intros ->. Qed.

Lemma readKey_ext d d' sl :
  records d' !! kvOffset sl = records d !! kvOffset sl -> readKey d' sl = readKey d sl.
Proof. intros Hr. unfold readKey. by rewrite (recordSlice_ext d d'). Qed.

Lemma readKeyValue_ext d d' sl :
  records d' !! kvOffset sl = records d !! kvOffset sl ->
  readKeyValue d' sl = readKeyValue d sl.
Proof. intros Hr. unfold readKeyValue. by rewrite !(recordSlice_ext d d'). Qed.

(** A record is read back as the key and the value it was written with when
    the entry has their lengths. *)
Lemma readKeyValue_written d off key value sl :
  records d !! off = Some (key ++ value) ->
  kvOffset sl = off -> keySize sl = Z.of_nat (length key) ->
  valueSize sl = Z.of_nat (length value) ->
  readKeyValue d sl = inr (key, value).
Proof.
  intros Hr Ho Hk Hv. unfold readKeyValue, recordSlice. rewrite Ho, Hr, Hk, Hv.
  rewrite length_app.
  replace ((0 <=? 0) && (0 <=? Z.of_nat (length key)) &&
           (0 + Z.of_nat (length key) <=? Z.of_nat (length key + length value)))
    with true by (symmetry; rewrite !andb_true_iff, !Z.leb_le; lia).
  replace ((0 <=? Z.of_nat (length key)) && (0 <=? Z.of_nat (length value)) &&
           (Z.of_nat (length key) + Z.of_nat (length value)
            <=? Z.of_nat (length key + length value)))
    with true by (symmetry; rewrite !andb_true_iff, !Z.leb_le; lia).
  rewrite !Nat2Z.id. change (Z.to_nat 0) with 0%nat. rewrite drop_0.
  rewrite take_app_length, drop_app_length. f_equal. f_equal.
  by rewrite take_ge by lia.
Qed.

Lemma newEntry_sizes h key value expiresAt off :
  Z.of_nat (length key) < 2 ^ 16 -> Z.of_nat (length value) < 2 ^ 32 ->
  keySize (newEntry h key value expiresAt off) = Z.of_nat (length key) /\
  valueSize (newEntry h key value expiresAt off) = Z.of_nat (length value).
Proof.
  intros Hk Hv. unfold newEntry, uint16, uint32. simpl.
  rewrite !Z.mod_small by lia. done.
Qed.

(** *** The loops over the slots of one block *)

Lemma getSlots_search d h key slots :
  match search d h key (liveEntries slots) with
  | inl err => getSlots d h key slots = GetErr err
  | inr (Some v) => getSlots d h key slots = GetFound v
  | inr None => getSlots d h key slots = GetFree \/ getSlots d h key slots = GetPassed
  end.
Proof.
  induction slots as [|sl slots IH]; simpl; [right; reflexivity|].
  destruct (kvOffset sl =? 0); simpl; [by left|].
  unfold candidate.
  destruct ((h =? hash sl) && (uint16 (Z.of_nat (length key)) =? keySize sl)); [|done].
  destruct (readKeyValue d sl) as [err|[k v]]; [done|].
  by destruct (bool_decide (key = k)).
Qed.

(** Where [Get] reads without error, the loop of [Has] ends the same way. *)
Lemma scanSlots_getSlots d h key slots :
  forall i,
  match getSlots d h key slots, scanSlots d h key slots i with
  | GetErr _, _ => True
  | GetFree, AtFree _ | GetFound _, AtKey _ | GetPassed, Passed => True
  | _, _ => False
  end.
Proof.
  induction slots as [|sl slots IH]; intros i; simpl; [done|].
  destruct (kvOffset sl =? 0); [done|].
  destruct ((h =? hash sl) && (uint16 (Z.of_nat (length key)) =? keySize sl)); [|apply IH].
  destruct (readKeyValue d sl) as [err|[k v]] eqn:Hkv; [done|].
  rewrite (readKeyValue_key _ _ _ _ Hkv).
  destruct (bool_decide (key = k)); [done|apply IH].
Qed.

Lemma scanSlots_Passed d h key slots :
  forall i, scanSlots d h key slots i = Passed -> Forall (passes d h key) slots.
Proof.
  induction slots as [|sl slots IH]; intros i; simpl; [done|].
  destruct (Z.eqb_spec (kvOffset sl) 0) as [|Hlive]; [done|].
  destruct ((h =? hash sl) && (uint16 (Z.of_nat (length key)) =? keySize sl)) eqn:Hc.
  - destruct (readKey d sl) as [err|k] eqn:Hk; [done|].
    case_bool_decide as Hne; [done|]. intros Hp. constructor; [|by eapply IH].
    split; [done|]. intros _. by exists k.
  - intros Hp. constructor; [|by eapply IH].
    split; [done|]. unfold candidate. by rewrite Hc.
Qed.

Lemma scanSlots_passes d h key slots :
  Forall (passes d h key) slots -> forall i, scanSlots d h key slots i = Passed.
Proof.
  induction 1 as [|sl slots [Hl Hp] _ IH]; intros i; simpl; [done|].
  apply Z.eqb_neq in Hl. rewrite Hl. fold (candidate h key sl).
  destruct (candidate h key sl); [|apply IH].
  destruct (Hp eq_refl) as (k & -> & Hne). by rewrite bool_decide_eq_false_2.
Qed.

(** Where the loop stops: the slots before are stepped over, the slot itself
    is free or holds the key. *)
Lemma scanSlots_stop d h key slots :
  forall i0 i,
  scanSlots d h key slots i0 = AtFree i \/ scanSlots d h key slots i0 = AtKey i ->
  exists j sl, i = (i0 + j)%nat /\ slots !! j = Some sl /\
    Forall (passes d h key) (take j slots) /\
    (scanSlots d h key slots i0 = AtFree i -> kvOffset sl = 0) /\
    (scanSlots d h key slots i0 = AtKey i ->
       kvOffset sl <> 0 /\ candidate h key sl = true /\ readKey d sl = inr key).
Proof.
  induction slots as [|sl slots IH]; intros i0 i; simpl; [by intros [|]|].
  destruct (Z.eqb_spec (kvOffset sl) 0) as [Hfree|Hlive].
  { intros [[= <-]|]; [|done]. exists 0%nat, sl. split_and!; [lia|done|done|done|done]. }
  assert (Hrec : scanSlots d h key slots (S i0) = AtFree i \/
                 scanSlots d h key slots (S i0) = AtKey i ->
                 passes d h key sl ->
                 exists j sl', i = (i0 + j)%nat /\ (sl :: slots) !! j = Some sl' /\
                   Forall (passes d h key) (take j (sl :: slots)) /\
                   (scanSlots d h key slots (S i0) = AtFree i -> kvOffset sl' = 0) /\
                   (scanSlots d h key slots (S i0) = AtKey i ->
                    kvOffset sl' <> 0 /\ candidate h key sl' = true /\
                    readKey d sl' = inr key)).
  { intros Hs Hp. destruct (IH _ _ Hs) as (j & sl' & -> & Hj & Hpre & Hf & Hk).
    exists (S j), sl'. split_and!; [lia|done| |done|done]. simpl. by constructor. }
  destruct ((h =? hash sl) && (uint16 (Z.of_nat (length key)) =? keySize sl)) eqn:Hc.
  - destruct (readKey d sl) as [err|k] eqn:Hk; [by intros [|]|].
    case_bool_decide as Heq.
    + intros [|[= <-]]; [done|]. subst k.
      exists 0%nat, sl. split_and!; [lia|done|done|done|].
      intros _. by split_and!.
    + intros Hs. apply Hrec; [done|]. split; [done|]. intros _. by exists k.
  - intros Hs. apply Hrec; [done|]. split; [done|]. unfold candidate. by rewrite Hc.
Qed.

Lemma scanSlots_at d h key slots j sl :
  Forall (passes d h key) (take j slots) -> slots !! j = Some sl ->
  forall i,
  (kvOffset sl = 0 -> scanSlots d h key slots i = AtFree (i + j)) /\
  (kvOffset sl <> 0 -> candidate h key sl = true -> readKey d sl = inr key ->
   scanSlots d h key slots i = AtKey (i + j)).
Proof.
  revert j. induction slots as [|x slots IH]; intros j Hpre Hj i; [done|].
  destruct j as [|j]; simpl in *.
  - simplify_eq. split.
    + intros ->. simpl. f_equal. lia.
    + intros Hl Hc Hk. apply Z.eqb_neq in Hl. rewrite Hl.
      fold (candidate h key sl). rewrite Hc, Hk.
      rewrite bool_decide_eq_true_2 by done. f_equal. lia.
  - apply Forall_cons in Hpre as [[Hl Hp] Hpre].
    apply Z.eqb_neq in Hl. rewrite Hl. fold (candidate h key x).
    replace (i + S j)%nat with (S i + j)%nat by lia.
    destruct (candidate h key x).
    + destruct (Hp eq_refl) as (k & -> & Hne). rewrite bool_decide_eq_false_2 by done.
      by apply IH.
    + by apply IH.
Qed.

Lemma liveEntries_all slots : Forall live slots -> liveEntries slots = slots.
Proof.
  induction 1 as [|sl slots Hl _ IH]; simpl; [done|].
  unfold live in Hl. apply Z.eqb_neq in Hl. by rewrite Hl, IH.
Qed.

Lemma liveEntries_app_live pre rest :
  Forall live pre -> liveEntries (pre ++ rest) = pre ++ liveEntries rest.
Proof.
  induction 1 as [|sl slots Hl _ IH]; simpl; [done|].
  unfold live in Hl. apply Z.eqb_neq in Hl. by rewrite Hl, IH.
Qed.

Lemma passes_live d h key sl : passes d h key sl -> live sl.
Proof. by intros [? _]. Qed.

Lemma liveEntries_free_at slots j sl :
  Forall live (take j slots) -> slots !! j = Some sl -> kvOffset sl = 0 ->
  liveEntries slots = take j slots.
Proof.
  intros Hpre Hj Hfree. rewrite <- (take_drop_middle slots j sl Hj) at 1.
  rewrite liveEntries_app_live by done. simpl. rewrite Hfree. simpl. by rewrite app_nil_r.
Qed.

Lemma liveEntries_insert slots j e :
  Forall live (take j slots) -> (j < length slots)%nat -> kvOffset e <> 0 ->
  liveEntries (<[j := e]> slots) = take j slots ++ e :: liveEntries (drop (S j) slots).
Proof.
  intros Hpre Hj He. rewrite insert_take_drop by done.
  rewrite liveEntries_app_live by done. simpl. apply Z.eqb_neq in He. by rewrite He.
Qed.

Lemma liveEntries_at_live slots j old :
  Forall live (take j slots) -> slots !! j = Some old -> kvOffset old <> 0 ->
  liveEntries slots = take j slots ++ old :: liveEntries (drop (S j) slots).
Proof.
  intros Hpre Hj Hold. rewrite <- (list_insert_id slots j old Hj) at 1.
  apply liveEntries_insert; [done|by eapply lookup_lt_Some|done].
Qed.

Lemma liveEntries_free slots :
  Forall (fun e => kvOffset e = 0) slots -> liveEntries slots = [].
Proof. intros [|sl rest Hsl _]; simpl; [done|]. by rewrite Hsl. Qed.

Lemma liveEntries_Forall (P : entry -> Prop) slots :
  Forall P slots -> Forall P (liveEntries slots).
Proof.
  induction 1 as [|sl slots Hp _ IH]; simpl; [done|].
  destruct (kvOffset sl =? 0); [done|]. by constructor.
Qed.

Lemma handlesEntries_Forall (P : entry -> Prop) hs :
  Forall (fun x => Forall P (entries (blk x))) hs -> Forall P (handlesEntries hs).
Proof.
  induction 1 as [|x hs Hx _ IH]; [done|].
  rewrite handlesEntries_cons. apply Forall_app. split; [|done].
  by apply liveEntries_Forall.
Qed.

(** *** The linear search *)

Lemma search_app d h key es1 es2 :
  search d h key (es1 ++ es2) =
  match search d h key es1 with
  | inr None => search d h key es2
  | r => r
  end.
Proof.
  induction es1 as [|sl es1 IH]; simpl; [done|].
  destruct (candidate h key sl); [|done].
  destruct (readKeyValue d sl) as [err|[k v]]; [done|].
  by destruct (bool_decide (key = k)).
Qed.

Lemma search_other_key d h key sl k v rest :
  readKeyValue d sl = inr (k, v) -> key <> k ->
  search d h key (sl :: rest) = search d h key rest.
Proof.
  intros Hr Hne. simpl. destruct (candidate h key sl); [|done].
  rewrite Hr. by rewrite bool_decide_eq_false_2.
Qed.

Lemma search_key_first d h key sl v rest :
  candidate h key sl = true -> readKeyValue d sl = inr (key, v) ->
  search d h key (sl :: rest) = inr (Some v).
Proof. intros Hc Hr. simpl. rewrite Hc, Hr. by rewrite bool_decide_eq_true_2. Qed.

Lemma search_passes d h key es :
  Forall (passes d h key) es -> Forall (complete d) es ->
  search d h key es = inr None.
Proof.
  induction 1 as [|sl es [Hl Hp] _ IH]; intros Hc; [done|].
  apply Forall_cons in Hc as [[[k v] Hkv] Hc]. simpl.
  destruct (candidate h key sl); [|by apply IH].
  destruct (Hp eq_refl) as (k' & Hk' & Hne). rewrite Hkv.
  rewrite (readKeyValue_key _ _ _ _ Hkv) in Hk'. simplify_eq.
  rewrite bool_decide_eq_false_2 by done. by apply IH.
Qed.

Lemma search_ext d d' off bytes h key es :
  records d' = <[off := bytes]> (records d) ->
  Forall (fun sl => kvOffset sl <> off) es ->
  search d' h key es = search d h key es.
Proof.
  intros Hd'. induction 1 as [|sl es Hsl _ IH]; simpl; [done|].
  rewrite (readKeyValue_ext d d') by (by rewrite Hd', lookup_insert_ne). by rewrite IH.
Qed.

(** *** Walks over the blocks of a chain *)

Lemma run_get_search d h key hs :
  linked hs -> forall ret,
  runBlocks (getCallback d h key) hs ret =
  match search d h key (handlesEntries hs) with
  | inl err => (Some err, ret)
  | inr (Some v) => (None, Some v)
  | inr None => (None, ret)
  end.
Proof.
  induction 1 as [b Hn|b b' hs Hn Hoff Hfile Hlinked IH]; intros ret.
  - unfold handlesEntries. simpl. rewrite app_nil_r. unfold getCallback.
    pose proof (getSlots_search d h key (entries (blk b))) as Hs.
    destruct (search d h key (liveEntries (entries (blk b)))) as [err|[v|]].
    + by rewrite Hs.
    + by rewrite Hs.
    + destruct Hs as [-> | ->]; [|done]. by rewrite Hn.
  - rewrite handlesEntries_cons, search_app. cbn [runBlocks]. unfold getCallback at 1.
    pose proof (getSlots_search d h key (entries (blk b))) as Hs.
    destruct (search d h key (liveEntries (entries (blk b)))) as [err|[v|]].
    + by rewrite Hs.
    + by rewrite Hs.
    + assert ((next (blk b) =? 0) = false) as Hnz by (apply Z.eqb_neq; congruence).
      destruct Hs as [-> | ->]; rewrite ?Hnz; simpl; apply IH.
Qed.


Lemma run_put aerr d h key hs :
  linked hs -> forall s err s',
  originalB s = None ->
  runBlocks (putCallback aerr d h key) hs s = (err, s') -> err = None ->
  (exists pre b post j,
     hs = pre ++ b :: post /\
     Forall (fun x => scanSlots d h key (entries (blk x)) 0 = Passed) pre /\
     (scanSlots d h key (entries (blk b)) 0 = AtFree j \/
      scanSlots d h key (entries (blk b)) 0 = AtKey j) /\
     s' = MkPutState (Some b) None j (pallocs s)) \/
  (exists off' rest' pre bl,
     hs = pre ++ [bl] /\
     Forall (fun x => scanSlots d h key (entries (blk x)) 0 = Passed) hs /\
     pallocs s = off' :: rest' /\
     s' = MkPutState (Some (MkHandle DataTable off' zeroBlock))
                     (Some (setNext bl off')) 0 rest').
Proof.
  induction 1 as [b Hn|b b' hs Hn Hoff Hfile Hlinked IH]; intros s err s' Ho Hrun Herr.
  - cbn [runBlocks] in Hrun. unfold putCallback in Hrun.
    destruct (scanSlots d h key (entries (blk b)) 0) as [j|j|j e|] eqn:Hs.
    + simpl in Hrun. simplify_eq. left. exists [], b, [], j. rewrite Ho. by split_and!; auto.
    + simpl in Hrun. simplify_eq. left. exists [], b, [], j. rewrite Ho. by split_and!; auto.
    + simpl in Hrun. simplify_eq.
    + rewrite Hn in Hrun. simpl in Hrun.
      destruct (pallocs s) as [|off' rest'] eqn:Ha; simpl in Hrun; [simplify_eq|].
      simplify_eq. right. exists off', rest', [], b. split_and!; [done| |done|done].
      by constructor.
  - cbn [runBlocks] in Hrun. unfold putCallback at 1 in Hrun.
    destruct (scanSlots d h key (entries (blk b)) 0) as [j|j|j e|] eqn:Hs.
    + simpl in Hrun. simplify_eq. left. exists [], b, (b' :: hs), j. rewrite Ho.
      by split_and!; auto.
    + simpl in Hrun. simplify_eq. left. exists [], b, (b' :: hs), j. rewrite Ho.
      by split_and!; auto.
    + simpl in Hrun. simplify_eq.
    + assert ((next (blk b) =? 0) = false) as Hnz by (apply Z.eqb_neq; congruence).
      rewrite Hnz in Hrun. simpl in Hrun.
      apply IH in Hrun; [|done|done]. simpl in Hrun.
      destruct Hrun as [(pre & x & post & j & Heq & Hpre & Hx & ->)
                       |(off' & rest' & pre & bl & Heq & Hall & Ha & ->)].
      * left. exists (b :: pre), x, post, j. rewrite Heq. split_and!; [done| |done|done].
        by constructor.
      * right. exists off', rest', (b :: pre), bl. rewrite Heq.
        split_and!; [done| |done|done]. constructor; [done|]. by rewrite <- Heq.
Qed.

Lemma linked_replace pre (b b' : blockHandle) post :
  linked (pre ++ b :: post) ->
  file b' = file b -> offset b' = offset b -> next (blk b') = next (blk b) ->
  linked (pre ++ b' :: post).
Proof.
  intros Hl Hf Ho Hn. revert Hl. induction pre as [|x pre IH]; simpl; intros Hl.
  - inversion Hl as [|? y ? Hnx Hoff Hfile Hrest]; subst.
    + apply linked_last. congruence.
    + apply linked_cons; [congruence|done|done|done].
  - inversion Hl as [? ? Heq|? y ? Hnx Hoff Hfile Hrest [Heq1 Heq2]]; subst.
    { by destruct pre. }
    destruct pre as [|z pre]; simpl in *; simplify_eq.
    + apply linked_cons; [congruence|congruence|congruence|by apply IH].
    + apply linked_cons; [done|done|done|by apply IH].
Qed.


Section Put.
Variable blockSize : Z.
Variable kvSize : entry -> Z.

Lemma readBlock_counted db (fresh : bool) c t o :
  readBlock blockSize (if fresh then setCount db c else db) t o = readBlock blockSize db t o.
Proof. destruct fresh; [apply readBlock_setInfo|done]. Qed.

Lemma inFile_counted db (fresh : bool) c x :
  inFile blockSize db x -> inFile blockSize (if fresh then setCount db c else db) x.
Proof. by destruct fresh. Qed.

(** A successful [put] seen from the chain of its bucket. *)
Lemma put_effect io fuel db d h key value expiresAt hs db' d' :
  chain blockSize fuel db IndexTable (blockOffset blockSize (blockIndex (info db) h)) = Some hs ->
  (forall off', head (overflowAllocs io) = Some off' ->
     off' <> 0 /\ (DataTable, off') ∉ (keyOfHandle <$> hs)) ->
  put blockSize kvSize io fuel db d h key value expiresAt = Some (Return None, db', d') ->
  exists off hs' fresh old,
    kvAnswer io = inr off /\
    putEffect d h key (newEntry h key value expiresAt off) hs hs' fresh old /\
    linked hs' /\
    (forall x, x ∈ hs' -> readBlock blockSize db' (file x) (offset x) = Some (blk x)) /\
    (forall t o, (t, o) ∉ (keyOfHandle <$> hs') ->
       readBlock blockSize db' t o = readBlock blockSize db t o) /\
    (exists h0 rest, hs' = h0 :: rest /\ file h0 = IndexTable /\
       offset h0 = blockOffset blockSize (blockIndex (info db) h)) /\
    (length hs' <= S fuel)%nat /\
    records d' = <[off := key ++ value]> (records d) /\
    recFreed d' = recFreed d ++ (if fresh then [] else [(kvSize old, kvOffset old)]) /\
    (fresh = true -> count (info db) <> MaxKeys) /\
    info db' = (if fresh then info (setCount db (uint32 (count (info db) + 1))) else info db) /\
    (forall k, k ∈ keyOfHandle <$> hs' ->
       k ∈ keyOfHandle <$> hs \/
       exists off', head (overflowAllocs io) = Some off' /\ k = (DataTable, off')).
Proof.
  intros Hc Halloc Hput.
  destruct (chain_is_linked _ _ _ _ _ _ Hc) as [Hl Hlen].
  destruct (chain_shape _ _ _ _ _ _ Hc) as [(h0 & rest0 & Hhs & Hf0 & Ho0 & _) Hreads].
  pose proof (chain_NoDup _ _ _ _ _ _ Hc) as Hnd.
  unfold put, forEachBlock in Hput. rewrite (walk_chain _ _ _ _ _ _ _ _ Hc) in Hput.
  destruct (runBlocks _ hs _) as [err s'] eqn:Hrun.
  destruct err as [err|]; [done|].
  apply (run_put _ _ _ _ _ Hl) in Hrun; [|done|done]. simpl in Hrun.
  destruct Hrun as [(pre & b & post & j & Heq & Hpre & Hx & ->)
                   |(off' & rest' & pre & bl & Heq & Hall & Ha & ->)].
  - cbn [pb pentryIdx originalB] in Hput.
    destruct (scanSlots_stop _ _ _ _ _ _ Hx) as (j' & old & Hj & Hold & Htake & Hfree & Hkey).
    simpl in Hj. subst j'.
    rewrite (list_lookup_total_correct _ _ _ Hold) in Hput.
    set (fresh := kvOffset old =? 0) in *.
    destruct (fresh && (count (info db) =? MaxKeys)) eqn:Hfull; [done|].
    unfold writeKeyValue in Hput. destruct (kvAnswer io) as [e|off] eqn:Hkv; [done|].
    destruct (writeErr io); [done|]. simplify_eq.
    set (e := MkEntry h _ _ expiresAt off).
    set (dbc := if fresh then setCount db _ else db).
    assert (Hinb : b ∈ pre ++ b :: post) by (apply elem_of_app; right; left).
    assert (Hinfile : inFile blockSize dbc (setEntry b j e)).
    { apply inFile_counted. apply (readBlock_inFile blockSize _ b (blk b)). by apply Hreads. }
    subst dbc.
    exists off, (pre ++ setEntry b j e :: post), fresh, old. split_and!.
    + done.
    + left. exists pre, b, post, j. split_and!; [done|done| |done|done|].
      * eapply Forall_impl; [exact Hpre|]. intros x. apply scanSlots_Passed.
      * unfold fresh. destruct (Z.eqb_spec (kvOffset old) 0) as [H0|H0].
        -- done.
        -- destruct Hx as [Hx|Hx]; [by apply Hfree in Hx|]. by apply Hkey.
    + by apply (linked_replace pre b).
    + intros x Hin. rewrite fmap_app, fmap_cons in Hnd.
      apply NoDup_app in Hnd as (Hnd1 & Hnd2 & Hnd3).
      apply NoDup_cons in Hnd3 as [Hnd3 Hnd4].
      apply elem_of_app in Hin as [Hin|Hin]; [|apply elem_of_cons in Hin as [->|Hin]].
      * rewrite readBlock_writeBlock_ne, readBlock_counted.
        { apply Hreads, elem_of_app. by left. }
        intros Hk. apply (Hnd2 (keyOfHandle x)); [by apply list_elem_of_fmap_2|].
        unfold keyOfHandle at 1. rewrite Hk. left.
      * by apply readBlock_writeBlock_eq.
      * rewrite readBlock_writeBlock_ne, readBlock_counted.
        { apply Hreads, elem_of_app. right. by right. }
        intros Hk. apply Hnd3. change (keyOfHandle (setEntry b j e)) with (keyOfHandle b) in Hk.
        rewrite <- Hk. by apply (list_elem_of_fmap_2 keyOfHandle).
    + intros t o Hnot. rewrite readBlock_writeBlock_ne, readBlock_counted; [done|].
      intros Hk. apply Hnot. rewrite Hk, fmap_app, fmap_cons. apply elem_of_app. right. left.
    + destruct pre as [|p pre]; simpl in *; simplify_eq; by eexists _, _.
    + rewrite length_app in *. simpl in *. lia.
    + simpl. by destruct fresh.
    + by destruct fresh; simpl; rewrite ?app_nil_r.
    + intros Hfr. rewrite Hfr in Hfull. simpl in Hfull. by apply Z.eqb_neq.
    + unfold writeBlock. simpl. by destruct (file b), fresh.
    + intros k Hk. left. by rewrite fmap_app, fmap_cons in *.
  - cbn [pb pentryIdx originalB] in Hput.
    change (entries (blk (MkHandle DataTable off' zeroBlock)) !!! 0%nat) with zeroEntry in Hput.
    change (kvOffset zeroEntry =? 0) with true in Hput. cbn [andb] in Hput.
    destruct (count (info db) =? MaxKeys) eqn:Hfull; [done|].
    unfold writeKeyValue in Hput. destruct (kvAnswer io) as [e|off] eqn:Hkv; [done|].
    destruct (writeErr io); [done|]. destruct (writeOriginalErr io); [done|]. simplify_eq.
    set (e := MkEntry h _ _ expiresAt off).
    set (dbc := setCount db _).
    set (nb := setEntry (MkHandle DataTable off' zeroBlock) 0 e).
    subst dbc.
    destruct (Halloc off') as [Hoff' Hfresh]; [by rewrite Ha|].
    assert (Hinb : bl ∈ pre ++ [bl]) by (apply elem_of_app; right; left).
    assert (Hkeys : keyOfHandle <$> (pre ++ [setNext bl off'; nb]) =
                    (keyOfHandle <$> (pre ++ [bl])) ++ [(DataTable, off')]).
    { rewrite !fmap_app, <- app_assoc. done. }
    exists off, (pre ++ [setNext bl off'; nb]), true, zeroEntry. split_and!.
    + done.
    + right. exists pre, bl, off'. split_and!; [done|done|done| |done|done|done].
      eapply Forall_impl; [exact Hall|]. intros x. apply scanSlots_Passed.
    + by apply (linked_snoc_extend pre bl nb).
    + intros x Hin. rewrite fmap_app in Hnd. apply NoDup_app in Hnd as (Hnd1 & Hnd2 & _).
      apply elem_of_app in Hin as [Hin|Hin];
        [|apply elem_of_cons in Hin as [->|Hin]; [|apply list_elem_of_singleton in Hin as ->]].
      * rewrite !readBlock_writeBlock_ne, (readBlock_counted _ true).
        { apply Hreads, elem_of_app. by left. }
        -- intros Hk. apply Hfresh. change (keyOfHandle nb) with (DataTable, off') in Hk.
           rewrite <- Hk. apply (list_elem_of_fmap_2 keyOfHandle), elem_of_app. by left.
        -- intros Hk. apply (Hnd2 (keyOfHandle x)); [by apply list_elem_of_fmap_2|].
           unfold keyOfHandle at 1. rewrite Hk. left.
      * apply readBlock_writeBlock_eq, inFile_writeBlock, (inFile_counted _ true).
        apply (readBlock_inFile blockSize _ bl (blk bl)). by apply Hreads.
      * rewrite readBlock_writeBlock_ne; [by apply readBlock_writeBlock_eq|].
        intros Hk. apply Hfresh. change (keyOfHandle (setNext bl off')) with (keyOfHandle bl) in Hk.
        change (file nb, offset nb) with (DataTable, off') in Hk. rewrite Hk.
        by apply (list_elem_of_fmap_2 keyOfHandle).
    + intros t o Hnot. rewrite Hkeys in Hnot.
      apply not_elem_of_app in Hnot as [Hnot1 Hnot2].
      rewrite !readBlock_writeBlock_ne, (readBlock_counted _ true); [done| |].
      * intros Hk. apply Hnot2. rewrite Hk. left.
      * intros Hk. apply Hnot1. rewrite Hk. rewrite fmap_app. apply elem_of_app. right. left.
    + destruct pre as [|p pre]; simpl in *; simplify_eq; by eexists _, _.
    + rewrite length_app in *. simpl in *. lia.
    + done.
    + simpl. by rewrite app_nil_r.
    + intros _. by apply Z.eqb_neq.
    + unfold writeBlock. simpl. by destruct (file bl).
    + intros k Hk. rewrite Hkeys in Hk. apply elem_of_app in Hk as [Hk|Hk]; [by left|].
      apply list_elem_of_singleton in Hk as ->. right. exists off'. by rewrite Ha.
Qed.

(** What a [put] that returns nil found in the chain of its bucket, whatever
    offset the allocator gave for an overflow block. *)
Lemma put_outcome io fuel db d h key value expiresAt hs db' d' :
  chain blockSize fuel db IndexTable (blockOffset blockSize (blockIndex (info db) h)) = Some hs ->
  put blockSize kvSize io fuel db d h key value expiresAt = Some (Return None, db', d') ->
  exists (fresh : bool) (old : entry),
    recFreed d' = recFreed d ++ (if fresh then [] else [(kvSize old, kvOffset old)]) /\
    (fresh = true -> count (info db) <> MaxKeys) /\
    info db' = (if fresh then info (setCount db (uint32 (count (info db) + 1))) else info db) /\
    ((exists e hs', putEffect d h key e hs hs' fresh old) \/
     (fresh = true /\ Forall (fun x => Forall (passes d h key) (entries (blk x))) hs)).
Proof.
  intros Hc Hput.
  destruct (chain_is_linked _ _ _ _ _ _ Hc) as [Hl Hlen].
  unfold put, forEachBlock in Hput. rewrite (walk_chain _ _ _ _ _ _ _ _ Hc) in Hput.
  destruct (runBlocks _ hs _) as [err s'] eqn:Hrun.
  destruct err as [err|]; [done|].
  apply (run_put _ _ _ _ _ Hl) in Hrun; [|done|done]. simpl in Hrun.
  destruct Hrun as [(pre & b & post & j & Heq & Hpre & Hx & ->)
                   |(off' & rest' & pre & bl & Heq & Hall & Ha & ->)].
  - cbn [pb pentryIdx originalB] in Hput.
    destruct (scanSlots_stop _ _ _ _ _ _ Hx) as (j' & old & Hj & Hold & Htake & Hfree & Hkey).
    simpl in Hj. subst j'.
    rewrite (list_lookup_total_correct _ _ _ Hold) in Hput.
    set (fresh := kvOffset old =? 0) in *.
    destruct (fresh && (count (info db) =? MaxKeys)) eqn:Hfull; [done|].
    unfold writeKeyValue in Hput. destruct (kvAnswer io) as [e|off] eqn:Hkv; [done|].
    destruct (writeErr io); [done|]. simplify_eq.
    exists fresh, old. split_and!.
    + by destruct fresh; simpl; rewrite ?app_nil_r.
    + intros Hfr. rewrite Hfr in Hfull. simpl in Hfull. by apply Z.eqb_neq.
    + unfold writeBlock. simpl. by destruct (file b), fresh.
    + left. exists zeroEntry, (pre ++ setEntry b j zeroEntry :: post).
      left. exists pre, b, post, j. split_and!; [done|done| |done|done|].
      * eapply Forall_impl; [exact Hpre|]. intros x. apply scanSlots_Passed.
      * unfold fresh. destruct (Z.eqb_spec (kvOffset old) 0) as [H0|H0].
        -- done.
        -- destruct Hx as [Hx|Hx]; [by apply Hfree in Hx|]. by apply Hkey.
  - cbn [pb pentryIdx originalB] in Hput.
    change (entries (blk (MkHandle DataTable off' zeroBlock)) !!! 0%nat) with zeroEntry in Hput.
    change (kvOffset zeroEntry =? 0) with true in Hput. cbn [andb] in Hput.
    destruct (count (info db) =? MaxKeys) eqn:Hfull; [done|].
    unfold writeKeyValue in Hput. destruct (kvAnswer io) as [e|off] eqn:Hkv; [done|].
    destruct (writeErr io); [done|]. destruct (writeOriginalErr io); [done|]. simplify_eq.
    exists true, zeroEntry. split_and!.
    + simpl. by rewrite app_nil_r.
    + intros _. by apply Z.eqb_neq.
    + unfold writeBlock. simpl. by destruct (file bl).
    + right. split; [done|].
      eapply Forall_impl; [exact Hall|]. intros x. apply scanSlots_Passed.
Qed.

End Put.

Lemma linked_mid_next pre (b x : blockHandle) post :
  linked (pre ++ b :: x :: post) -> next (blk b) <> 0.
Proof.
  induction pre as [|p pre IH]; simpl; intros Hl.
  - inversion Hl; subst. congruence.
  - inversion Hl as [? ? Heq|]; subst; [by destruct pre|].
    apply IH. destruct pre; simpl in *; by simplify_eq.
Qed.

(** The live entries of the chain before and after a successful [put]: the
    entries [A] before the slot are stepped over; the new entry takes the
    place of the old one, or comes in where the first free slot was. *)
Lemma putEffect_entries d h key e hs hs' fresh old :
  putEffect d h key e hs hs' fresh old -> kvOffset e <> 0 ->
  exists A B B',
    handlesEntries hs = A ++ (if fresh then [] else [old]) ++ B /\
    handlesEntries hs' = A ++ e :: B' /\
    Forall (passes d h key) A /\
    ((forall x, x ∈ hs -> packed (entries (blk x))) -> B' = B) /\
    (fresh = false -> candidate h key old = true /\ readKey d old = inr key).
Proof.
  intros Heff He.
  destruct Heff as [(pre & b & post & j & -> & -> & Hpre & Hold & Htake & Hcase)
                   |(pre & bl & off' & -> & _ & -> & Hall & _ & _ & ->)].
  - assert (Hlive : Forall live (take j (entries (blk b)))).
    { eapply Forall_impl; [exact Htake|apply passes_live]. }
    pose proof (lookup_lt_Some _ _ _ Hold) as Hj.
    exists (handlesEntries pre ++ take j (entries (blk b))),
           ((if fresh then [] else liveEntries (drop (S j) (entries (blk b))))
            ++ handlesEntries post),
           (liveEntries (drop (S j) (entries (blk b))) ++ handlesEntries post).
    rewrite !handlesEntries_app, !handlesEntries_cons. simpl.
    rewrite (liveEntries_insert _ _ _ Hlive Hj He). split_and!.
    + destruct fresh.
      * rewrite (liveEntries_free_at _ _ _ Hlive Hold Hcase). simpl.
        by rewrite <- app_assoc.
      * destruct Hcase as (Hne & _).
        rewrite (liveEntries_at_live _ _ _ Hlive Hold Hne). simpl.
        by rewrite <- !app_assoc.
    + by rewrite <- !app_assoc.
    + apply Forall_app. split; [by apply handlesEntries_Forall|done].
    + intros Hpacked. destruct fresh; [|done].
      pose proof (Hpacked b ltac:(apply elem_of_app; right; left)) as Hp.
      unfold packed in Hp. rewrite (liveEntries_free_at _ _ _ Hlive Hold Hcase) in Hp.
      rewrite length_take_le in Hp by lia.
      rewrite (liveEntries_free (drop (S j) _)); [done|].
      replace (S j) with (j + 1)%nat by lia. rewrite <- drop_drop.
      by apply Forall_drop.
    + intros ->. by destruct Hcase as (_ & ? & ?).
  - exists (handlesEntries (pre ++ [bl])), [], [].
    split_and!; [simpl; by rewrite !app_nil_r| | |done|done].
    + rewrite !handlesEntries_app, !handlesEntries_cons.
      change (handlesEntries []) with (@nil entry). rewrite !app_nil_r, <- app_assoc.
      f_equal. f_equal. simpl. apply Z.eqb_neq in He. by rewrite He.
    + by apply handlesEntries_Forall.
Qed.

Lemma putEffect_old d h key e hs hs' old :
  putEffect d h key e hs hs' false old ->
  old ∈ handlesEntries hs /\ readKey d old = inr key.
Proof.
  intros [(pre & b & post & j & -> & _ & Hpre & Hold & Htake & Hne & _ & Hk)
         |(pre & bl & off' & ? & _)]; [|done].
  split; [|done].
  rewrite handlesEntries_app, handlesEntries_cons.
  rewrite (liveEntries_at_live _ _ _
             (Forall_impl _ _ _ Htake (passes_live d h key)) Hold Hne).
  apply elem_of_app. right. apply elem_of_app. left. apply elem_of_app. right. left.
Qed.

Lemma candidate_newEntry h key value expiresAt off :
  candidate h key (newEntry h key value expiresAt off) = true.
Proof. unfold candidate, newEntry. simpl. by rewrite !Z.eqb_refl. Qed.

Lemma readKeyValue_newEntry d' (d : dataFile) h key value expiresAt off :
  Z.of_nat (length key) < 2 ^ 16 -> Z.of_nat (length value) < 2 ^ 32 ->
  records d' = <[off := key ++ value]> (records d) ->
  readKeyValue d' (newEntry h key value expiresAt off) = inr (key, value).
Proof.
  intros Hk Hv Hd'.
  destruct (newEntry_sizes h key value expiresAt off Hk Hv) as [Hks Hvs].
  apply (readKeyValue_written _ off); [|done|done|done].
  by rewrite Hd', lookup_insert_eq.
Qed.

Lemma Forall_sub_app {A} (P : A -> Prop) (l a b c : list A) :
  l = a ++ b ++ c -> Forall P l -> Forall P a /\ Forall P b /\ Forall P c.
Proof. intros ->. rewrite !Forall_app. tauto. Qed.

(** What [Get] finds for [key] after a successful [put] of it. *)
Lemma search_after_put d d' h key value expiresAt off hs hs' fresh old :
  putEffect d h key (newEntry h key value expiresAt off) hs hs' fresh old ->
  Z.of_nat (length key) < 2 ^ 16 -> Z.of_nat (length value) < 2 ^ 32 ->
  off <> 0 ->
  Forall (fun sl => kvOffset sl <> off) (handlesEntries hs) ->
  Forall (complete d) (handlesEntries hs) ->
  records d' = <[off := key ++ value]> (records d) ->
  search d' h key (handlesEntries hs') = inr (Some value).
Proof.
  intros Heff Hk Hv Hoff Hunused Hcomplete Hd'.
  destruct (putEffect_entries _ _ _ _ _ _ _ _ Heff Hoff)
    as (A & B & B' & HA & HB & Hpass & _ & _).
  destruct (Forall_sub_app _ _ _ _ _ HA Hunused) as (HAu & _ & _).
  destruct (Forall_sub_app _ _ _ _ _ HA Hcomplete) as (HAc & _ & _).
  rewrite HB, search_app, (search_ext _ _ _ _ _ _ _ Hd' HAu).
  rewrite (search_passes _ _ _ _ Hpass HAc).
  apply search_key_first; [apply candidate_newEntry|].
  by apply (readKeyValue_newEntry d' d).
Qed.

(** What [Has] answers for [key] before a successful [put] of it, when only
    the last block of the chain has free slots. *)
Lemma run_has_pre d h key pre rest found :
  Forall (fun x => Forall (passes d h key) (entries (blk x))) pre ->
  runBlocks (hasCallback d h key) (pre ++ rest) found =
  runBlocks (hasCallback d h key) rest found.
Proof.
  induction 1 as [|x pre Hx _ IH]; [done|]. simpl. unfold hasCallback at 1.
  by rewrite (scanSlots_passes _ _ _ _ Hx).
Qed.

Lemma run_has_before_put d h key e hs hs' fresh old :
  putEffect d h key e hs hs' fresh old -> linked hs ->
  (forall x, x ∈ hs -> next (blk x) <> 0 -> Forall live (entries (blk x))) ->
  runBlocks (hasCallback d h key) hs false = (None, negb fresh).
Proof.
  intros Heff Hl Hcompact.
  destruct Heff as [(pre & b & post & j & -> & _ & Hpre & Hold & Htake & Hcase)
                   |(pre & bl & off' & -> & _ & -> & Hall & _)].
  - rewrite (run_has_pre _ _ _ _ _ _ Hpre). cbn [runBlocks]. unfold hasCallback at 1.
    destruct (scanSlots_at d h key _ _ _ Htake Hold 0) as [Hfree Hkey]. simpl in *.
    destruct fresh.
    + rewrite (Hfree Hcase).
      assert (post = []) as ->.
      { destruct post as [|x post]; [done|]. exfalso.
        pose proof (linked_mid_next _ _ _ _ Hl) as Hnext.
        pose proof (Hcompact b ltac:(apply elem_of_app; right; left) Hnext) as Hfull.
        rewrite Forall_lookup in Hfull. by apply (Hfull _ _ Hold). }
      by destruct (next (blk b) =? 0).
    + destruct Hcase as (Hne & Hc & Hk). by rewrite (Hkey Hne Hc Hk).
  - rewrite <- (app_nil_r (pre ++ [bl])). by rewrite (run_has_pre _ _ _ _ _ _ Hall).
Qed.

Section Reads.
Variable blockSize : Z.
Variable WithSalt : list Z -> Z -> Z.
Variable filterTest : Z -> bool.

Lemma Get_linked fuel db d key hs h0 rest :
  linked hs ->
  (forall x, x ∈ hs -> readBlock blockSize db (file x) (offset x) = Some (blk x)) ->
  hs = h0 :: rest -> file h0 = IndexTable ->
  offset h0 = blockOffset blockSize (blockIndex (info db) (hashOf WithSalt db key)) ->
  (length hs <= fuel)%nat ->
  filterTest (hashOf WithSalt db key) = true ->
  Get blockSize WithSalt filterTest fuel db d key =
  Some (search d (hashOf WithSalt db key) key (handlesEntries hs)).
Proof.
  intros Hl Hreads Heq Hf Ho Hlen Hfilter. unfold Get, forEachBlock.
  rewrite Hfilter. simpl. rewrite <- Ho, <- Hf.
  rewrite (walk_linked blockSize _ db hs Hl Hreads _ _ _ _ Heq Hlen).
  rewrite (run_get_search _ _ _ _ Hl).
  by destruct (search _ _ _ _) as [err|[v|]].
Qed.

Lemma walk_get_has fuel db d h key :
  forall t off found ret r,
  found = bool_decide (is_Some ret) ->
  walk blockSize fuel db t off (getCallback d h key) ret = Some (None, r) ->
  walk blockSize fuel db t off (hasCallback d h key) found
  = Some (None, bool_decide (is_Some r)).
Proof.
  induction fuel as [|fuel IH]; intros t off found ret r Hfound; simpl; [done|].
  destruct (readBlock blockSize db t off) as [b|]; [|done].
  unfold hasCallback, getCallback. simpl.
  pose proof (scanSlots_getSlots d h key (entries b) 0) as Hag.
  destruct (getSlots d h key (entries b)) as [|v|e|],
           (scanSlots d h key (entries b) 0) as [i|i|i e'|]; try done; simpl.
  - destruct (next b =? 0); simpl; [by intros [= <-]; rewrite Hfound|]. by apply IH.
  - intros [= <-]. by rewrite bool_decide_eq_true_2 by (by eexists).
  - destruct (next b =? 0); [by intros [= <-]; rewrite Hfound|]. by apply IH.
Qed.

Lemma Get_Has fuel db d key retValue :
  Get blockSize WithSalt filterTest fuel db d key = Some (inr retValue) ->
  Has blockSize WithSalt filterTest fuel db d key
  = Some (inr (bool_decide (is_Some retValue))).
Proof.
  unfold Has, Get, forEachBlock. destruct (filterTest _); simpl.
  2: { intros [= <-]. by rewrite bool_decide_eq_false_2 by (by intros [? ?]). }
  destruct (walk _ _ _ _ _ (getCallback _ _ _) _) as [[[err|] r]|] eqn:Hw; [done| |done].
  intros [= <-]. by rewrite (walk_get_has _ _ _ _ _ _ _ false None r eq_refl Hw).
Qed.

Lemma walk_has_delete fuel db d h key :
  forall t off found s,
  found = bool_decide (is_Some (delEntryIdx s)) ->
  walk blockSize fuel db t off (hasCallback d h key) found =
  (fun r => (r.1, bool_decide (is_Some (delEntryIdx r.2)))) <$>
    walk blockSize fuel db t off (deleteCallback d h key) s.
Proof.
  induction fuel as [|fuel IH]; intros t off found s Hfound; simpl; [done|].
  destruct (readBlock blockSize db t off) as [b|]; [|by rewrite Hfound].
  unfold hasCallback, deleteCallback. simpl.
  destruct (scanSlots d h key (entries b) 0) as [i|i|i e'|]; simpl.
  - destruct (next b =? 0); simpl; [by rewrite Hfound|]. by apply IH.
  - done.
  - by rewrite Hfound.
  - rewrite Hfound. destruct (next b =? 0); [done|]. by apply IH.
Qed.

End Reads.

Section Store.
Variable blockSize : Z.
Variable WithSalt : list Z -> Z -> Z.
Variable filterTest : Z -> bool.
Variable kvSize : entry -> Z.

Lemma Get_chain fuel db d key hs :
  chain blockSize fuel db IndexTable
    (blockOffset blockSize (blockIndex (info db) (hashOf WithSalt db key))) = Some hs ->
  filterTest (hashOf WithSalt db key) = true ->
  Get blockSize WithSalt filterTest fuel db d key =
  Some (search d (hashOf WithSalt db key) key (handlesEntries hs)).
Proof.
  intros Hc Hfilter.
  destruct (chain_is_linked _ _ _ _ _ _ Hc) as [Hl Hlen].
  destruct (chain_shape _ _ _ _ _ _ Hc) as [(h0 & rest0 & Hhs & Hf0 & Ho0 & _) Hreads].
  by eapply Get_linked.
Qed.

Lemma put_keeps_directory io fuel db d h key value expiresAt db' d' hs :
  chain blockSize fuel db IndexTable (blockOffset blockSize (blockIndex (info db) h)) = Some hs ->
  (forall off', head (overflowAllocs io) = Some off' ->
     off' <> 0 /\ (DataTable, off') ∉ (keyOfHandle <$> hs)) ->
  put blockSize kvSize io fuel db d h key value expiresAt = Some (Return None, db', d') ->
  (forall k, hashOf WithSalt db' k = hashOf WithSalt db k) /\
  (forall x, blockIndex (info db') x = blockIndex (info db) x).
Proof.
  intros Hc Halloc Hput.
  destruct (put_effect _ _ _ _ _ _ _ _ _ _ _ _ _ Hc Halloc Hput)
    as (off & hs' & fresh & old & _ & _ & _ & _ & _ & _ & _ & _ & _ & _ & Hinfo & _).
  unfold hashOf. rewrite Hinfo. by destruct fresh.
Qed.

(** X22. When the chain of the key's bucket ends, Get returns what a linear
    search finds in the live entries of that chain, block after block and
    each block up to its first free slot: the value of the first entry
    with the key's hash and size whose record holds the key, the error of
    the first such entry whose record cannot be read, nil otherwise. When
    the filter does not know the hash, Get returns nil without reading. *)
Theorem Get_searches_the_live_entries_of_the_bucket
    (fuel : nat) (db : DB) (d : dataFile) (key : list Z) (hs : list blockHandle) :
  chain blockSize fuel db IndexTable
    (blockOffset blockSize (blockIndex (info db) (hashOf WithSalt db key))) = Some hs ->
  Get blockSize WithSalt filterTest fuel db d key =
  Some (if filterTest (hashOf WithSalt db key)
        then search d (hashOf WithSalt db key) key (handlesEntries hs)
        else inr None).
Proof.
  intros Hc. destruct (filterTest (hashOf WithSalt db key)) eqn:Hfilter.
  - by apply Get_chain.
  - unfold Get. by rewrite Hfilter.
Qed.

(** X23. Whenever Get answers without an error, Has answers without an error
    too: true when Get returned a value and false when Get returned nil. *)
Theorem Has_says_what_Get_finds
    (fuel : nat) (db : DB) (d : dataFile) (key : list Z) (retValue : option (list Z)) :
  Get blockSize WithSalt filterTest fuel db d key = Some (inr retValue) ->
  Has blockSize WithSalt filterTest fuel db d key
  = Some (inr (bool_decide (is_Some retValue))).
Proof. apply Get_Has. Qed.

(** X24. Delete of a key that Has does not find returns nil and leaves the
    index, the count and the data file as they are; when Has fails, Delete
    fails with the same error and changes nothing either. *)
Theorem Delete_changes_nothing_unless_Has_finds_the_key
    (del : block -> nat -> block) (writeError syncError : option error)
    (syncWrites : bool) (fuel : nat) (db : DB) (d : dataFile) (key : list Z)
    (r : error + bool) :
  Has blockSize WithSalt filterTest fuel db d key = Some r ->
  r <> inr true ->
  Delete blockSize WithSalt filterTest kvSize del writeError syncError syncWrites
         fuel db d key =
  Some (match r with inl err => Some err | inr _ => None end, db, d).
Proof.
  unfold Has, Delete, forEachBlock. destruct (filterTest _); simpl.
  2: { by intros [= <-] _. }
  rewrite (walk_has_delete _ _ _ _ _ _ _ _ false
             (MkDeleteState (MkHandle IndexTable 0 zeroBlock) None)) by done.
  destruct (walk _ _ _ _ _ (deleteCallback _ _ _) _) as [[err s]|]; simpl; [|done].
  destruct err as [err|].
  - intros [= <-] _. by destruct (delEntryIdx s).
  - intros [= <-] Hr. destruct (delEntryIdx s) as [i|]; [|done].
    exfalso. apply Hr. by rewrite bool_decide_eq_true_2 by (by eexists).
Qed.

(** X25. After a put that returns nil, Get of the same key returns the value
    that was put and Has returns true, for a key shorter than 2^16 and a
    value shorter than 2^32 bytes. This needs the chain of the bucket to
    end with every live entry pointing at a readable record, the filter to
    know the hash, and a record offset and, when one is allocated, an
    overflow block offset that are not 0 and not in use in the chain. *)
Theorem Get_returns_the_value_put_stored
    (io : putIO) (fuel : nat) (db db' : DB) (d d' : dataFile)
    (key value : list Z) (expiresAt : Z) (hs : list blockHandle) :
  chain blockSize fuel db IndexTable
    (blockOffset blockSize (blockIndex (info db) (hashOf WithSalt db key))) = Some hs ->
  filterTest (hashOf WithSalt db key) = true ->
  Z.of_nat (length key) < 2 ^ 16 -> Z.of_nat (length value) < 2 ^ 32 ->
  Forall (complete d) (handlesEntries hs) ->
  (forall off, kvAnswer io = inr off ->
     off <> 0 /\ Forall (fun sl => kvOffset sl <> off) (handlesEntries hs)) ->
  (forall off', head (overflowAllocs io) = Some off' ->
     off' <> 0 /\ (DataTable, off') ∉ (keyOfHandle <$> hs)) ->
  put blockSize kvSize io fuel db d (hashOf WithSalt db key) key value expiresAt =
    Some (Return None, db', d') ->
  Get blockSize WithSalt filterTest (S fuel) db' d' key = Some (inr (Some value)) /\
  Has blockSize WithSalt filterTest (S fuel) db' d' key = Some (inr true).
Proof.
  intros Hc Hfilter Hklen Hvlen Hcomplete Hkvoff Halloc Hput.
  destruct (put_keeps_directory _ _ _ _ _ _ _ _ _ _ _ Hc Halloc Hput) as [Hhash Hidx].
  destruct (put_effect _ _ _ _ _ _ _ _ _ _ _ _ _ Hc Halloc Hput)
    as (off & hs' & fresh & old & Hkv & Heff & Hl & Hreads & _ &
        (h0 & rest & Heq & Hf & Ho) & Hlen & Hrec & _).
  destruct (Hkvoff off Hkv) as [Hoff Hunused].
  assert (HGet : Get blockSize WithSalt filterTest (S fuel) db' d' key = Some (inr (Some value))).
  { rewrite (Get_linked _ _ _ (S fuel) db' d' key hs' h0 rest Hl Hreads Heq Hf).
    - rewrite Hhash. f_equal. by eapply search_after_put.
    - by rewrite Hhash, Hidx.
    - done.
    - by rewrite Hhash. }
  split; [done|]. rewrite (Get_Has _ _ _ _ _ _ _ _ HGet).
  by rewrite bool_decide_eq_true_2 by (by eexists).
Qed.

(** X26. In a chain that ends and in which only the last block has free
    slots, with a count within uint32, a put that returns nil either
    overwrites or adds. Either count stays as it is, the chain holds an
    entry whose record holds the key, the record of that entry is handed
    to free, once, and Has, asked before the put, answers what the filter
    says of the hash: true when the filter knows it, false when it does not.
    Or count grows by 1, nothing is freed, every live entry of the chain is
    stepped over by the search for the key, and Has, asked before the put,
    answers false, whether the filter knows the hash or not. *)
Theorem put_overwrites_a_key_that_is_there_and_counts_one_that_is_new
    (io : putIO) (fuel : nat) (db db' : DB) (d d' : dataFile)
    (key value : list Z) (expiresAt : Z) (hs : list blockHandle) :
  chain blockSize fuel db IndexTable
    (blockOffset blockSize (blockIndex (info db) (hashOf WithSalt db key))) = Some hs ->
  (forall x, x ∈ hs -> next (blk x) <> 0 -> Forall live (entries (blk x))) ->
  0 <= count (info db) <= MaxKeys ->
  put blockSize kvSize io fuel db d (hashOf WithSalt db key) key value expiresAt =
    Some (Return None, db', d') ->
  (count (info db') = count (info db) /\
   (exists old, old ∈ handlesEntries hs /\ readKey d old = inr key /\
      recFreed d' = recFreed d ++ [(kvSize old, kvOffset old)]) /\
   Has blockSize WithSalt filterTest fuel db d key
     = Some (inr (filterTest (hashOf WithSalt db key)))) \/
  (count (info db') = count (info db) + 1 /\ recFreed d' = recFreed d /\
   Forall (passes d (hashOf WithSalt db key) key) (handlesEntries hs) /\
   Has blockSize WithSalt filterTest fuel db d key = Some (inr false)).
Proof.
  intros Hc Hcompact Hcount Hput.
  destruct (chain_is_linked _ _ _ _ _ _ Hc) as [Hl _].
  destruct (put_outcome _ _ _ _ _ _ _ _ _ _ _ _ _ Hc Hput)
    as (fresh & old & Hfreed & Hfull & Hinfo & Hshape).
  assert (HHas : Has blockSize WithSalt filterTest fuel db d key
                 = Some (inr (filterTest (hashOf WithSalt db key) && negb fresh))).
  { unfold Has, forEachBlock.
    destruct (filterTest (hashOf WithSalt db key)); [|done]. cbn [negb andb].
    rewrite (walk_chain _ _ _ _ _ _ _ _ Hc).
    destruct Hshape as [(e & hs' & Heff)|[-> Hall]].
    - by rewrite (run_has_before_put _ _ _ _ _ _ _ _ Heff Hl Hcompact).
    - rewrite <- (app_nil_r hs). by rewrite (run_has_pre _ _ _ _ _ _ Hall). }
  destruct fresh; [right|left]; rewrite HHas, ?andb_false_r, ?andb_true_r.
  - split_and!; [| |  |done].
    + rewrite Hinfo. simpl. specialize (Hfull eq_refl). unfold uint32, MaxKeys in *.
      change (2 ^ 32) with 4294967296 in *. rewrite Z.mod_small; lia.
    + by rewrite Hfreed, app_nil_r.
    + destruct Hshape as [(e & hs' & Heff)|[_ Hall]]; [|by apply handlesEntries_Forall].
      destruct Heff as [(pre & b & post & j & -> & _ & Hpre & Hold & Htake & Hfree)
                       |(pre & bl & off' & _ & _ & _ & Hall & _)];
        [|by apply handlesEntries_Forall].
      assert (post = []) as ->.
      { destruct post as [|x post]; [done|]. exfalso.
        pose proof (linked_mid_next _ _ _ _ Hl) as Hnext.
        pose proof (Hcompact b ltac:(apply elem_of_app; right; left) Hnext) as Hfill.
        rewrite Forall_lookup in Hfill. by apply (Hfill _ _ Hold). }
      rewrite handlesEntries_app, handlesEntries_cons.
      change (handlesEntries []) with (@nil entry). rewrite app_nil_r.
      apply Forall_app. split; [by apply handlesEntries_Forall|].
      rewrite (liveEntries_free_at _ _ _
                 (Forall_impl _ _ _ Htake (passes_live d _ key)) Hold Hfree).
      done.
  - split_and!; [by rewrite Hinfo| |done].
    destruct Hshape as [(e & hs' & Heff)|[? _]]; [|done].
    destruct (putEffect_old _ _ _ _ _ _ _ Heff) as [Hin Hkey]. by exists old.
Qed.

(** X27. A put that returns nil, of a key shorter than 2^16 and a value
    shorter than 2^32 bytes, does not change what Get returns for any
    other key, of the same bucket or of another one. This needs the free
    slots of each block of the bucket to come last, every live entry of
    the bucket to point at a readable record, the chains of different
    buckets to share no block, and the offsets given out for the record
    and for an overflow block not to be in use. *)
Theorem put_leaves_the_other_keys_as_they_are
    (io : putIO) (fuel : nat) (db db' : DB) (d d' : dataFile)
    (key value key' : list Z) (expiresAt : Z) (hs hs2 : list blockHandle) :
  chain blockSize fuel db IndexTable
    (blockOffset blockSize (blockIndex (info db) (hashOf WithSalt db key))) = Some hs ->
  chain blockSize fuel db IndexTable
    (blockOffset blockSize (blockIndex (info db) (hashOf WithSalt db key'))) = Some hs2 ->
  key' <> key ->
  Z.of_nat (length key) < 2 ^ 16 -> Z.of_nat (length value) < 2 ^ 32 ->
  (forall x, x ∈ hs -> packed (entries (blk x))) ->
  Forall (complete d) (handlesEntries hs) ->
  (hs2 = hs \/ forall x y, x ∈ hs -> y ∈ hs2 -> keyOfHandle x <> keyOfHandle y) ->
  (forall off, kvAnswer io = inr off ->
     off <> 0 /\ Forall (fun sl => kvOffset sl <> off) (handlesEntries hs2)) ->
  (forall off', head (overflowAllocs io) = Some off' ->
     off' <> 0 /\ ((DataTable, off') ∉ keyOfHandle <$> hs) /\
     ((DataTable, off') ∉ keyOfHandle <$> hs2)) ->
  put blockSize kvSize io fuel db d (hashOf WithSalt db key) key value expiresAt =
    Some (Return None, db', d') ->
  Get blockSize WithSalt filterTest (S fuel) db' d' key' =
  Get blockSize WithSalt filterTest fuel db d key'.
Proof.
  intros Hc Hc2 Hkey Hklen Hvlen Hpacked Hcomplete Hbuckets Hkvoff Halloc Hput.
  assert (Halloc1 : forall off', head (overflowAllocs io) = Some off' ->
            off' <> 0 /\ (DataTable, off') ∉ (keyOfHandle <$> hs)).
  { intros off' Hh. by destruct (Halloc off' Hh) as (? & ? & ?). }
  destruct (put_keeps_directory _ _ _ _ _ _ _ _ _ _ _ Hc Halloc1 Hput) as [Hhash Hidx].
  destruct (put_effect _ _ _ _ _ _ _ _ _ _ _ _ _ Hc Halloc1 Hput)
    as (off & hs' & fresh & old & Hkv & Heff & Hl & Hreads & Hother &
        (h0 & rest & Heq & Hf & Ho) & Hlen & Hrec & _ & _ & _ & Hkeys).
  destruct (Hkvoff off Hkv) as [Hoff Hunused].
  destruct (filterTest (hashOf WithSalt db key')) eqn:Hfilter.
  2: { unfold Get. by rewrite Hhash, Hfilter. }
  rewrite (Get_chain _ _ _ _ _ Hc2 Hfilter).
  destruct (chain_is_linked _ _ _ _ _ _ Hc2) as [Hl2 Hlen2].
  destruct (chain_shape _ _ _ _ _ _ Hc2) as [(g0 & rest2 & Heq2 & Hg & Hgo & _) Hreads2].
  destruct Hbuckets as [->|Hdisj].
  - destruct (chain_shape _ _ _ _ _ _ Hc) as [(g0' & rest' & Heq' & _ & Hgo' & _) _].
    rewrite (Get_linked _ _ _ (S fuel) db' d' key' hs' h0 rest Hl Hreads Heq Hf).
    + rewrite Hhash. f_equal.
      destruct (putEffect_entries _ _ _ _ _ _ _ _ Heff Hoff)
        as (A & B & B' & HA & HB & _ & HBB & Hold).
      rewrite (HBB Hpacked) in HB. rewrite HA, HB.
      destruct (Forall_sub_app _ _ _ _ _ HA Hunused) as (HAu & _ & HBu).
      destruct (Forall_sub_app _ _ _ _ _ HA Hcomplete) as (_ & HXc & _).
      rewrite !search_app, (search_ext _ _ _ _ _ _ _ Hrec HAu).
      destruct (search d _ key' A) as [err|[v|]]; [done|done|].
      rewrite (search_other_key d' _ key' _ key value);
        [|by apply (readKeyValue_newEntry d' d)|done].
      rewrite (search_ext _ _ _ _ _ _ _ Hrec HBu).
      destruct fresh; [done|]. destruct (Hold eq_refl) as [_ Hk].
      apply Forall_cons in HXc as [[[k v] Hkv'] _].
      rewrite (readKeyValue_key _ _ _ _ Hkv') in Hk. simplify_eq.
      by rewrite (search_other_key d _ key' old key v).
    + rewrite Hhash, Hidx, Ho. simplify_eq. congruence.
    + done.
    + by rewrite Hhash.
  - rewrite (Get_linked _ _ _ (S fuel) db' d' key' hs2 g0 rest2 Hl2).
    + rewrite Hhash. f_equal. by apply (search_ext _ _ off (key ++ value)).
    + intros x Hin. rewrite Hother; [by apply Hreads2|].
      intros Hk. destruct (Hkeys _ Hk) as [Hk'|(off' & Hh & Hk')].
      * apply list_elem_of_fmap_1 in Hk' as (y & Hy & Hyin).
        by apply (Hdisj y x Hyin Hin).
      * destruct (Halloc off' Hh) as (_ & _ & Hnot). apply Hnot. rewrite <- Hk'.
        by apply (list_elem_of_fmap_2 keyOfHandle).
    + done.
    + done.
    + by rewrite Hhash, Hidx.
    + lia.
    + by rewrite Hhash.
Qed.

End Store.

Lemma onePut_chain key :
  chain 4096 1 onePut.1 IndexTable
    (blockOffset 4096 (blockIndex (info onePut.1) (hashOf lengthHash onePut.1 key)))
  = Some onePutChain.
Proof.
  assert (Hidx : blockIndex (info onePut.1) (hashOf lengthHash onePut.1 key) = 0).
  { unfold blockIndex. change (level (info onePut.1)) with 0.
    change (splitBlockIdx (info onePut.1)) with 0.
    change (wrap32 (shl32 1 0 - 1)) with 0. rewrite Z.land_0_r. done. }
  rewrite Hidx. by vm_compute.
Qed.

Lemma onePut_compact x :
  x ∈ onePutChain -> next (blk x) <> 0 -> Forall live (entries (blk x)).
Proof. by intros ->%list_elem_of_singleton. Qed.

Lemma onePut_packed x : x ∈ onePutChain -> packed (entries (blk x)).
Proof.
  intros ->%list_elem_of_singleton. unfold packed. simpl. by repeat constructor.
Qed.

Lemma onePut_complete : Forall (complete onePut.2) (handlesEntries onePutChain).
Proof.
  change (handlesEntries onePutChain) with [MkEntry 3 3 2 0 700].
  apply Forall_singleton. exists ([1; 2; 3], [9; 9]). by vm_compute.
Qed.

Lemma onePut_unused (off : Z) :
  inr 900 = @inr error Z off ->
  off <> 0 /\ Forall (fun sl => kvOffset sl <> off) (handlesEntries onePutChain).
Proof.
  intros [= <-]. split; [lia|].
  change (handlesEntries onePutChain) with [MkEntry 3 3 2 0 700].
  apply Forall_singleton. simpl. lia.
Qed.

Lemma no_overflow_needed (kvOff off' : Z) (P : Prop) :
  head (overflowAllocs (putOk [] kvOff)) = Some off' -> P.
Proof. done. Qed.

Lemma Get_searches_the_live_entries_of_the_bucket_witness :
  chain 4096 1 onePut.1 IndexTable
    (blockOffset 4096 (blockIndex (info onePut.1) (hashOf lengthHash onePut.1 [1; 2; 3])))
  = Some onePutChain /\
  Get 4096 lengthHash passAll 1 onePut.1 onePut.2 [1; 2; 3] = Some (inr (Some [9; 9])).
Proof.
  split; [apply onePut_chain|].
  exact (Get_searches_the_live_entries_of_the_bucket 4096 lengthHash passAll 1
           onePut.1 onePut.2 [1; 2; 3] onePutChain (onePut_chain [1; 2; 3])).
Defined.

Lemma Has_says_what_Get_finds_witness :
  Get 4096 lengthHash passAll 1 onePut.1 onePut.2 [1; 2; 3] = Some (inr (Some [9; 9])) /\
  Has 4096 lengthHash passAll 1 onePut.1 onePut.2 [1; 2; 3] = Some (inr true).
Proof.
  assert (HGet : Get 4096 lengthHash passAll 1 onePut.1 onePut.2 [1; 2; 3]
                 = Some (inr (Some [9; 9]))) by (by vm_compute).
  split; [exact HGet|].
  exact (Has_says_what_Get_finds 4096 lengthHash passAll 1 onePut.1 onePut.2 [1; 2; 3]
           (Some [9; 9]) HGet).
Defined.

Lemma Delete_changes_nothing_unless_Has_finds_the_key_witness :
  Has 4096 lengthHash passAll 1 onePut.1 onePut.2 [4; 5] = Some (inr false) /\
  inr false <> @inr error bool true /\
  Delete 4096 lengthHash passAll sumSize clearSlot None None false 1 onePut.1 onePut.2 [4; 5]
  = Some (None, onePut.1, onePut.2).
Proof.
  assert (HHas : Has 4096 lengthHash passAll 1 onePut.1 onePut.2 [4; 5] = Some (inr false))
    by (by vm_compute).
  assert (Hne : inr false <> @inr error bool true) by discriminate.
  split_and!; [exact HHas|exact Hne|].
  exact (Delete_changes_nothing_unless_Has_finds_the_key 4096 lengthHash passAll sumSize
           clearSlot None None false 1 onePut.1 onePut.2 [4; 5] (inr false) HHas Hne).
Defined.

Lemma Get_returns_the_value_put_stored_witness :
  exists db' d',
    put 4096 sumSize (putOk [] 900) 1 onePut.1 onePut.2
        (hashOf lengthHash onePut.1 [4; 5]) [4; 5] [7] 0 = Some (Return None, db', d') /\
    Get 4096 lengthHash passAll 2 db' d' [4; 5] = Some (inr (Some [7])) /\
    Has 4096 lengthHash passAll 2 db' d' [4; 5] = Some (inr true).
Proof.
  destruct (put 4096 sumSize (putOk [] 900) 1 onePut.1 onePut.2
              (hashOf lengthHash onePut.1 [4; 5]) [4; 5] [7] 0)
    as [[[[[err|]|msg] db'] d']|] eqn:Hput;
    [vm_compute in Hput; discriminate| |vm_compute in Hput; discriminate..].
  exists db', d'. split; [reflexivity|].
  apply (Get_returns_the_value_put_stored 4096 lengthHash passAll sumSize (putOk [] 900) 1
           onePut.1 db' onePut.2 d' [4; 5] [7] 0 onePutChain).
  - apply onePut_chain.
  - reflexivity.
  - cbn [length]. lia.
  - cbn [length]. lia.
  - apply onePut_complete.
  - apply onePut_unused.
  - intros off'. by apply no_overflow_needed.
  - exact Hput.
Defined.

Lemma put_overwrites_a_key_that_is_there_and_counts_one_that_is_new_witness :
  (exists db' d',
     put 4096 sumSize (putOk [] 900) 1 onePut.1 onePut.2
         (hashOf lengthHash onePut.1 [4; 5]) [4; 5] [7] 0 = Some (Return None, db', d') /\
     knowsThree (hashOf lengthHash onePut.1 [4; 5]) = false /\
     count (info db') = count (info onePut.1) + 1 /\
     recFreed d' = recFreed onePut.2 /\
     Has 4096 lengthHash knowsThree 1 onePut.1 onePut.2 [4; 5] = Some (inr false)) /\
  (exists db' d',
     put 4096 sumSize (putOk [] 900) 1 onePut.1 onePut.2
         (hashOf lengthHash onePut.1 [1; 2; 3]) [1; 2; 3] [7] 0
       = Some (Return None, db', d') /\
     count (info db') = count (info onePut.1) /\
     (exists old, old ∈ handlesEntries onePutChain /\
        readKey onePut.2 old = inr [1; 2; 3] /\
        recFreed d' = recFreed onePut.2 ++ [(sumSize old, kvOffset old)]) /\
     Has 4096 lengthHash knowsThree 1 onePut.1 onePut.2 [1; 2; 3] = Some (inr true)).
Proof.
  assert (Hcount : 0 <= count (info onePut.1) <= MaxKeys).
  { change (count (info onePut.1)) with 1. unfold MaxKeys. lia. }
  split.
  - destruct (put 4096 sumSize (putOk [] 900) 1 onePut.1 onePut.2
                (hashOf lengthHash onePut.1 [4; 5]) [4; 5] [7] 0)
      as [[[[[err|]|msg] db'] d']|] eqn:Hput;
      [vm_compute in Hput; discriminate| |vm_compute in Hput; discriminate..].
    exists db', d'. split; [reflexivity|]. split; [reflexivity|].
    destruct (put_overwrites_a_key_that_is_there_and_counts_one_that_is_new 4096
                lengthHash knowsThree sumSize (putOk [] 900) 1 onePut.1 db' onePut.2 d'
                [4; 5] [7] 0 onePutChain (onePut_chain [4; 5]) onePut_compact Hcount Hput)
      as [(Hsame & _)|(Hmore & Hfreed & _ & HHas)].
    + vm_compute in Hput. injection Hput as <- <-. vm_compute in Hsame. discriminate.
    + by split_and!.
  - destruct (put 4096 sumSize (putOk [] 900) 1 onePut.1 onePut.2
                (hashOf lengthHash onePut.1 [1; 2; 3]) [1; 2; 3] [7] 0)
      as [[[[[err|]|msg] db'] d']|] eqn:Hput;
      [vm_compute in Hput; discriminate| |vm_compute in Hput; discriminate..].
    exists db', d'. split; [reflexivity|].
    destruct (put_overwrites_a_key_that_is_there_and_counts_one_that_is_new 4096
                lengthHash knowsThree sumSize (putOk [] 900) 1 onePut.1 db' onePut.2 d'
                [1; 2; 3] [7] 0 onePutChain (onePut_chain [1; 2; 3]) onePut_compact
                Hcount Hput)
      as [(Hsame & Hold & HHas)|(Hmore & _)].
    + by split_and!.
    + vm_compute in Hput. injection Hput as <- <-. vm_compute in Hmore. discriminate.
Defined.

Lemma put_leaves_the_other_keys_as_they_are_witness :
  exists db' d',
    put 4096 sumSize (putOk [] 900) 1 onePut.1 onePut.2
        (hashOf lengthHash onePut.1 [4; 5]) [4; 5] [7] 0 = Some (Return None, db', d') /\
    Get 4096 lengthHash passAll 2 db' d' [1; 2; 3] =
    Get 4096 lengthHash passAll 1 onePut.1 onePut.2 [1; 2; 3].
Proof.
  destruct (put 4096 sumSize (putOk [] 900) 1 onePut.1 onePut.2
              (hashOf lengthHash onePut.1 [4; 5]) [4; 5] [7] 0)
    as [[[[[err|]|msg] db'] d']|] eqn:Hput;
    [vm_compute in Hput; discriminate| |vm_compute in Hput; discriminate..].
  exists db', d'. split; [reflexivity|].
  apply (put_leaves_the_other_keys_as_they_are 4096 lengthHash passAll sumSize
           (putOk [] 900) 1 onePut.1 db' onePut.2 d' [4; 5] [7] [1; 2; 3] 0
           onePutChain onePutChain).
  - apply onePut_chain.
  - apply onePut_chain.
  - discriminate.
  - cbn [length]. lia.
  - cbn [length]. lia.
  - apply onePut_packed.
  - apply onePut_complete.
  - by left.
  - apply onePut_unused.
  - intros off'. by apply no_overflow_needed.
  - exact Hput.
Defined.

End KVFacts.
